(** * MRPT: multiple random projection trees (Mrpt.h)

    A shallow embedding of the index of [src/timing/timing_tester/Mrpt.h]:
    forest construction ([grow], [grow_subtree], the leaf size tables),
    the voting query ([query], [exact_knn]), persistence ([save], [load])
    and the part of the tuner that selects parameters ([fit_times],
    [get_optimal_parameters], [delete_extra_trees], [subset_trees]).

    Conventions.
    - Sizes, positions and data-point indices are [nat]; every one of them
      is bounded by an allocation the program makes, so it fits an [int].
      Integers that a caller may pass with any sign ([k], [votes_required])
      are [Z].
    - Single precision values are kept abstract: class [Scalar] lists the
      operations the program applies to them and [ScalarLaws] what is
      assumed of these (a total preorder without NaN, a mean that lies
      between its arguments, a monotone square root).
    - The doubles of the tuner (estimated times and recalls) are rationals.
    - Matrix products and the squared distance belong to Eigen; class
      [Linalg] names them without interpreting them.
    - [std::nth_element] and [std::partial_sort] leave the order of equal
      elements open; class [StdAlgo] names them and [StdAlgoLaws] is
      their contract from the C++ standard.
    - A function returns [None] where the program reads or writes outside
      an array. *)

From Stdlib Require Import ZArith QArith Lia ZifyNat.
From stdpp Require Import base numbers list sorting option.
Close Scope Q_scope.

(** ** Scalars *)

Class Scalar (F : Type) := {
  fle : F → F → bool;      (* a <= b *)
  fadd : F → F → F;        (* a + b *)
  favg : F → F → F;        (* (a + b) / 2.0 stored in a float *)
  fsqrt : F → F;           (* std::sqrt *)
  fone : F;                (* 1 *)
  fneg1 : F;               (* -1 *)
}.

(** [a < b]; without NaN this is the negation of [b <= a]. *)
Definition flt `{Scalar F} (a b : F) : bool := negb (fle b a).

Class ScalarLaws (F : Type) `{Scalar F} : Prop := {
  fle_total : ∀ a b : F, fle a b = true ∨ fle b a = true;
  fle_trans : ∀ a b c : F, fle a b = true → fle b c = true → fle a c = true;
  favg_between : ∀ lo hi : F, fle lo hi = true →
    fle lo (favg hi lo) = true ∧ fle (favg hi lo) hi = true;
  fsqrt_mono : ∀ a b : F, fle a b = true → fle (fsqrt a) (fsqrt b) = true;
}.

(** The comparator and the order that a key into the scalars induces. *)
Definition key_lt `{Scalar F} (key : nat → F) (x y : nat) : bool :=
  flt (key x) (key y).

Definition key_le `{Scalar F} (key : nat → F) (x y : nat) : Prop :=
  fle (key x) (key y) = true.

(** ** Library algorithms whose result is not fully determined *)

Class StdAlgo := {
  (* std::nth_element(first, first + nth, last, comp) on a vector of ints *)
  nth_element : (nat → nat → bool) → nat → list nat → list nat;
  (* std::partial_sort(first, first + middle, last, comp) *)
  partial_sort : (nat → nat → bool) → nat → list nat → list nat;
}.

(** The contracts.  [comp] ranges over the comparators the program builds:
    [comp x y = key x < key y] for a key into the scalars.
    [nth_element]: a rearrangement; no element before position [nth] is
    greater than one at or after it; the element at [nth] is the one a
    sort would put there, that is, a least one of the elements from [nth]
    on.  [partial_sort]: a rearrangement; the first [middle] positions are
    in order and none of them is greater than a later element. *)
Class StdAlgoLaws {F} `{Scalar F} `{StdAlgo} : Prop := {
  nth_element_perm : ∀ (key : nat → F) nth l,
    nth_element (λ x y, flt (key x) (key y)) nth l ≡ₚ l;
  nth_element_split : ∀ (key : nat → F) nth l i j x y,
    i < nth → nth ≤ j →
    nth_element (λ x y, flt (key x) (key y)) nth l !! i = Some x →
    nth_element (λ x y, flt (key x) (key y)) nth l !! j = Some y →
    fle (key x) (key y) = true;
  nth_element_nth : ∀ (key : nat → F) nth l j x y,
    nth ≤ j →
    nth_element (λ x y, flt (key x) (key y)) nth l !! nth = Some x →
    nth_element (λ x y, flt (key x) (key y)) nth l !! j = Some y →
    fle (key x) (key y) = true;
  partial_sort_perm : ∀ (key : nat → F) middle l,
    partial_sort (λ x y, flt (key x) (key y)) middle l ≡ₚ l;
  partial_sort_sorted : ∀ (key : nat → F) middle l i j x y,
    i < middle → i ≤ j →
    partial_sort (λ x y, flt (key x) (key y)) middle l !! i = Some x →
    partial_sort (λ x y, flt (key x) (key y)) middle l !! j = Some y →
    fle (key x) (key y) = true;
}.

(** ** Eigen: products with the data matrix and with a query *)

Class Linalg (F : Type) := {
  (* X->cols() and X->rows() of the data matrix *)
  X_cols : nat;
  X_rows : nat;
  (* the type of a query vector *)
  query_vec : Type;
  (* (M * X)(r, p) for a dense block M of rows *)
  dense_times_X : list (list F) → nat → nat → F;
  (* (M * X)(r, p) for the rows [first, first + count) of a sparse matrix *)
  sparse_times_X : list (nat * nat * F) → nat → nat → nat → nat → F;
  (* (M * q)(j) *)
  dense_times_q : list (list F) → query_vec → nat → F;
  sparse_times_q : list (nat * nat * F) → query_vec → nat → F;
  (* (X.col(i) - q).squaredNorm() *)
  squared_dist : nat → query_vec → F;
}.

(** ** Generic helpers *)

(** The elements at positions [b, e) and their replacement. *)
Definition slab {A} (l : list A) (b e : nat) : list A := take (e - b) (drop b l).

Definition splice {A} (l : list A) (b e : nat) (s : list A) : list A :=
  take b l ++ s ++ drop e l.

(** std::max_element: the position of the first greatest element, [0]
    (that is, [last]) on an empty range. *)
Fixpoint max_element_from (comp : nat → nat → bool) (largest : nat) (lv : nat)
    (pos : nat) (l : list nat) : nat :=
  match l with
  | [] => largest
  | x :: l' =>
      if comp lv x then max_element_from comp pos x (S pos) l'
      else max_element_from comp largest lv (S pos) l'
  end.

Definition max_element (comp : nat → nat → bool) (l : list nat) : nat :=
  match l with
  | [] => 0
  | x :: l' => max_element_from comp 0 x 1 l'
  end.

(** ** Leaf size tables *)

(** [count_leaf_sizes n level tree_depth out]; [rem] is [tree_depth - level]. *)
Fixpoint count_leaf_sizes (rem : nat) (n : nat) (out_leaf_sizes : list nat) : list nat :=
  match rem with
  | 0 => out_leaf_sizes ++ [n]
  | S rem' =>
      let out1 := count_leaf_sizes rem' (n - n / 2) out_leaf_sizes in
      count_leaf_sizes rem' (n / 2) out1
  end.

(** The loop [indices[i+1] = indices[i] + leaf_sizes[i]] from [indices[0] = acc]. *)
Fixpoint prefix_sums (acc : nat) (sizes : list nat) : list nat :=
  match sizes with
  | [] => [acc]
  | s :: sizes' => acc :: prefix_sums (acc + s) sizes'
  end.

Definition count_first_leaf_indices (n depth : nat) : list nat :=
  prefix_sums 0 (count_leaf_sizes depth n []).

(** Appends one table per depth to the vector it is given. *)
Definition count_first_leaf_indices_all (indices : list (list nat)) (n depth_max : nat)
    : list (list nat) :=
  indices ++ fmap (count_first_leaf_indices n) (seq 0 (S depth_max)).

(** Monadic left fold: a loop whose body may leave the arrays. *)
Fixpoint fold_opt {A B} (f : B → A → option B) (l : list A) (b : B) : option B :=
  match l with
  | [] => Some b
  | x :: l' => b' ← f b x; fold_opt f l' b'
  end.

(** ** Parameters and the index *)

Module Parameters.
Record t := mk {
  n_trees : nat;
  depth : nat;
  votes : Z;
  estimated_qtime : Q;
  estimated_recall : Q;
}.
(** A default-constructed record. *)
Definition empty : t := mk 0 0 0 0 0.
End Parameters.

(** A sparse matrix is the list of its stored entries (row, column, value)
    in the order of its compressed row storage. *)
Definition triplet (F : Type) : Type := (nat * nat * F)%type.

(** The random draws of one call of [grow]: the value of each cell of the
    dense matrix, and for the sparse matrix whether a cell is kept and with
    which value.  [uninit] is what the freshly allocated [split_points]
    holds before it is written (row, column). *)
Record Draws (F : Type) := {
  draw_dense : nat → nat → F;
  draw_sparse : nat → nat → option F;
  uninit : nat → nat → F;
}.
Arguments draw_dense {F} _ _ _.
Arguments draw_sparse {F} _ _ _.
Arguments uninit {F} _ _ _.

Record Mrpt (F : Type) := mkMrpt {
  n_samples : nat;
  dim : nat;
  n_trees : nat;
  depth : nat;
  density : F;
  n_pool : nat;
  n_array : nat;
  votes : Z;
  split_points : list (list F);          (* column t holds tree t *)
  tree_leaves : list (list nat);
  dense_random_matrix : list (list F);   (* row major *)
  sparse_random_matrix : list (triplet F);
  leaf_first_indices_all : list (list nat);
  leaf_first_indices : list nat;
  k : option Z;                          (* not initialised by the constructor *)
  recall_level : Q;
  optimal_parameters : Parameters.t;
  opt_pars : list Parameters.t;          (* in the order of the set *)
  pars : list Parameters.t;
}.
Arguments mkMrpt {F}.
Arguments n_samples {F} _.
Arguments dim {F} _.
Arguments n_trees {F} _.
Arguments depth {F} _.
Arguments density {F} _.
Arguments n_pool {F} _.
Arguments n_array {F} _.
Arguments votes {F} _.
Arguments split_points {F} _.
Arguments tree_leaves {F} _.
Arguments dense_random_matrix {F} _.
Arguments sparse_random_matrix {F} _.
Arguments leaf_first_indices_all {F} _.
Arguments leaf_first_indices {F} _.
Arguments k {F} _.
Arguments recall_level {F} _.
Arguments optimal_parameters {F} _.
Arguments opt_pars {F} _.
Arguments pars {F} _.

(** The contents of a file: one cell per 4-byte item written by [fwrite]. *)
Inductive cell (F : Type) :=
  | CInt (z : Z)
  | CFloat (f : F).
Arguments CInt {F} z.
Arguments CFloat {F} f.

Section Index.
Context {F : Type} `{Scalar F} `{StdAlgo} `{Linalg F}.

(** [Mrpt(X_)] with the default member initialisers. *)
Definition Mrpt_new : Mrpt F := {|
  n_samples := X_cols; dim := X_rows;
  n_trees := 0; depth := 0; density := fone; n_pool := 0; n_array := 0;
  votes := 0%Z;
  split_points := []; tree_leaves := [];
  dense_random_matrix := []; sparse_random_matrix := [];
  leaf_first_indices_all := []; leaf_first_indices := [];
  k := None; recall_level := (-1)%Q;
  optimal_parameters := Parameters.empty; opt_pars := []; pars := [];
|}.

(** *** Random matrices *)

Definition build_dense_random_matrix (g : Draws F) (n_row n_col : nat) : list (list F) :=
  fmap (λ j, fmap (λ i, draw_dense g j i) (seq 0 n_col)) (seq 0 n_row).

(** The triplets pushed by the two loops, row by row. *)
Definition sparse_triplets (g : Draws F) (n_row n_col : nat) : list (triplet F) :=
  mjoin (fmap (λ j,
    omap (λ i, match draw_sparse g j i with
               | Some v => Some (j, i, v)
               | None => None
               end) (seq 0 n_col)) (seq 0 n_row)).

(** [a] comes before [b] in row major order. *)
Definition triplet_before (a b : triplet F) : bool :=
  (a.1.1 <? b.1.1) || ((a.1.1 =? b.1.1) && (a.1.2 <? b.1.2)).

Definition same_cell (a b : triplet F) : bool :=
  (a.1.1 =? b.1.1) && (a.1.2 =? b.1.2).

(** setFromTriplets: the entries in storage order, the entries of one cell
    added up. *)
Fixpoint insert_triplet (x : triplet F) (m : list (triplet F)) : list (triplet F) :=
  match m with
  | [] => [x]
  | y :: m' =>
      if triplet_before x y then x :: y :: m'
      else if same_cell x y then (y.1, fadd y.2 x.2) :: m'
      else y :: insert_triplet x m'
  end.

Definition setFromTriplets (ts : list (triplet F)) : list (triplet F) :=
  foldl (λ m x, insert_triplet x m) [] ts.

Definition build_sparse_random_matrix (g : Draws F) (n_row n_col : nat)
    : list (triplet F) :=
  setFromTriplets (sparse_triplets g n_row n_col).

(** *** Growing one tree *)

(** [grow_subtree begin end tree_level i n_tree tree_projections] on the
    state (the index vector of the tree, the column of split points of the
    tree); [rem] is [depth - tree_level]. *)
Fixpoint grow_subtree (rem : nat) (tree_projections : nat → nat → F)
    (begin end_ tree_level i : nat) (st : list nat * list F)
    : option (list nat * list F) :=
  match rem with
  | 0 => Some st
  | S rem' =>
      let n := end_ - begin in
      let comp := λ i1 i2,
        flt (tree_projections tree_level i1) (tree_projections tree_level i2) in
      let indices :=
        splice st.1 begin end_ (nth_element comp (n / 2) (slab st.1 begin end_)) in
      let mid := end_ - n / 2 in
      s ← (if Nat.odd n then
             x ← indices !! (mid - 1);
             Some (tree_projections tree_level x)
           else
             let left_it := begin + max_element comp (slab indices begin mid) in
             r ← indices !! mid;
             l ← indices !! left_it;
             Some (favg (tree_projections tree_level r) (tree_projections tree_level l)));
      guard (i < length st.2);;
      st1 ← grow_subtree rem' tree_projections begin mid (S tree_level) (2 * i + 1)
              (indices, <[i:=s]> st.2);
      grow_subtree rem' tree_projections mid end_ (S tree_level) (2 * i + 2) st1
  end.

(** The projections of tree [n_tree]: the rows of the random matrix that
    belong to the tree, times the data. *)
Definition tree_projections_of (depth_ : nat) (sparse : bool)
    (srm : list (triplet F)) (drm : list (list F)) (n_tree : nat) : nat → nat → F :=
  if sparse then sparse_times_X srm (n_tree * depth_) depth_
  else dense_times_X (take depth_ (drop (n_tree * depth_) drm)).

(** The body of the loop over trees in [grow]: the identity index vector,
    then [grow_subtree] from the root. *)
Definition grow_tree (g : Draws F) (n depth_ n_array_ : nat) (sparse : bool)
    (srm : list (triplet F)) (drm : list (list F)) (n_tree : nat)
    : option (list nat * list F) :=
  grow_subtree depth_ (tree_projections_of depth_ sparse srm drm n_tree) 0 n 0 0
    (seq 0 n, fmap (λ r, uninit g r n_tree) (seq 0 n_array_)).

(** [grow(n_trees_, depth_, density_, seed)]; the draws stand for the seed. *)
Definition grow (this : Mrpt F) (n_trees_ depth_ : nat) (density_ : F) (g : Draws F)
    : option (Mrpt F) :=
  let n_pool_ := n_trees_ * depth_ in
  let n_array_ := 2 ^ (depth_ + 1) in
  let sparse := flt density_ fone in
  let srm := if sparse then build_sparse_random_matrix g n_pool_ (dim this)
             else sparse_random_matrix this in
  let drm := if sparse then dense_random_matrix this
             else build_dense_random_matrix g n_pool_ (dim this) in
  let lfia := count_first_leaf_indices_all (leaf_first_indices_all this)
                (n_samples this) depth_ in
  lfi ← lfia !! depth_;
  trees ← mapM (grow_tree g (n_samples this) depth_ n_array_ sparse srm drm)
          (seq 0 n_trees_);
  Some {|
    n_samples := n_samples this; dim := dim this;
    n_trees := n_trees_; depth := depth_; density := density_;
    n_pool := n_pool_; n_array := n_array_; votes := votes this;
    split_points := trees.*2; tree_leaves := trees.*1;
    dense_random_matrix := drm; sparse_random_matrix := srm;
    leaf_first_indices_all := lfia; leaf_first_indices := lfi;
    k := k this; recall_level := recall_level this;
    optimal_parameters := optimal_parameters this; opt_pars := opt_pars this;
    pars := pars this;
  |}.

(** *** Query *)

(** The descent of one tree: [rem] levels remain, [d] is the level. *)
Fixpoint route_from (split_col : list F) (projected_query : nat → F)
    (n_tree depth_ : nat) (rem d idx_tree : nat) : option nat :=
  match rem with
  | 0 => Some idx_tree
  | S rem' =>
      let j := n_tree * depth_ + d in
      let idx_left := 2 * idx_tree + 1 in
      let idx_right := idx_left + 1 in
      split_point ← split_col !! idx_tree;
      route_from split_col projected_query n_tree depth_ rem' (S d)
        (if fle (projected_query j) split_point then idx_left else idx_right)
  end.

(** [found_leaves[n_tree]]. *)
Definition found_leaf (sp : list (list F)) (projected_query : nat → F)
    (depth_ n_tree : nat) : option nat :=
  split_col ← sp !! n_tree;
  idx_tree ← route_from split_col projected_query n_tree depth_ depth_ 0 0;
  Some (idx_tree + 1 - 2 ^ depth_).

(** [if (++votes(idx) == votes_required) elected(n_elected++) = idx] on the
    state (votes, the written part of elected); [cap] is the size of the
    elected buffer. *)
Definition cast_vote (votes_required : Z) (cap : nat) (st : list Z * list nat)
    (idx : nat) : option (list Z * list nat) :=
  v ← st.1 !! idx;
  let v' := (v + 1)%Z in
  if (v' =? votes_required)%Z then
    guard (length st.2 < cap);;
    Some (<[idx:=v']> st.1, st.2 ++ [idx])
  else Some (<[idx:=v']> st.1, st.2).

(** The votes of the leaf found in one tree. *)
Definition count_votes_tree (lfi : list nat) (leaves : list (list nat))
    (votes_required : Z) (cap : nat) (found_leaves : list nat)
    (st : list Z * list nat) (n_tree : nat) : option (list Z * list nat) :=
  found ← found_leaves !! n_tree;
  leaf_begin ← lfi !! found;
  leaf_end ← lfi !! (found + 1);
  indices ← leaves !! n_tree;
  fold_opt (λ st i, idx ← indices !! i; cast_vote votes_required cap st idx)
    (seq leaf_begin (leaf_end - leaf_begin)) st.

(** The voting step of [query]: the votes and the elected candidates. *)
Definition count_votes (this : Mrpt F) (found_leaves : list nat) (votes_required : Z)
    : option (list Z * list nat) :=
  let max_leaf_size := n_samples this / 2 ^ depth this + 1 in
  let cap := n_trees this * max_leaf_size in
  fold_opt (count_votes_tree (leaf_first_indices this) (tree_leaves this)
              votes_required cap found_leaves)
    (seq 0 (n_trees this)) (replicate (n_samples this) 0%Z, []).

(** minCoeff(&index): the position of the first least coefficient. *)
Fixpoint minCoeff_from (best_pos : nat) (best : F) (pos : nat) (l : list F) : nat :=
  match l with
  | [] => best_pos
  | x :: l' =>
      if flt x best then minCoeff_from pos x (S pos) l'
      else minCoeff_from best_pos best (S pos) l'
  end.

Definition minCoeff (l : list F) : nat :=
  match l with
  | [] => 0
  | x :: l' => minCoeff_from 0 x 1 l'
  end.

(** [distances(i)] as the comparator of [partial_sort] reads it. *)
Definition distance_at (distances : list F) (i : nat) : F :=
  default fneg1 (distances !! i).

(** [exact_knn(q, k, indices, n_elected, out, out_distances)]; [indices]
    holds the first [n_elected] entries of the buffer.  The result is what
    is written to [out] and to [out_distances]. *)
Definition exact_knn (q : query_vec) (k : Z) (indices : list nat)
    : option (list Z * list F) :=
  let n_elected := length indices in
  if n_elected =? 0 then
    Some (replicate (Z.to_nat k) (-1)%Z, replicate (Z.to_nat k) fneg1)
  else
    let distances := fmap (λ i, squared_dist i q) indices in
    if (k =? 1)%Z then
      let index := minCoeff distances in
      c ← indices !! index;
      d ← distances !! index;
      Some ([Z.of_nat c], [fsqrt d])
    else
      guard (0 ≤ k)%Z;;
      let n_to_sort := if (k <? Z.of_nat n_elected)%Z then Z.to_nat k else n_elected in
      let idx := partial_sort
        (λ i1 i2, flt (distance_at distances i1) (distance_at distances i2))
        n_to_sort (seq 0 n_elected) in
      out ← mapM (λ i, if i <? n_elected
                       then p ← idx !! i; c ← indices !! p; Some (Z.of_nat c)
                       else Some (-1)%Z) (seq 0 (Z.to_nat k));
      out_distances ← mapM (λ i, if i <? n_elected
                       then p ← idx !! i; d ← distances !! p; Some (fsqrt d)
                       else Some fneg1) (seq 0 (Z.to_nat k));
      Some (out, out_distances).

Definition projected_query_of (this : Mrpt F) (q : query_vec) : nat → F :=
  if flt (density this) fone then sparse_times_q (sparse_random_matrix this) q
  else dense_times_q (dense_random_matrix this) q.

Definition found_leaves_of (this : Mrpt F) (q : query_vec) : option (list nat) :=
  mapM (found_leaf (split_points this) (projected_query_of this q) (depth this))
    (seq 0 (n_trees this)).

(** [query(q, k, votes_required, out, ..., out_distances, out_n_elected)]:
    the indices, the distances and the number of elected candidates. *)
Definition query (this : Mrpt F) (q : query_vec) (k : Z) (votes_required : Z)
    : option (list Z * list F * nat) :=
  found_leaves ← found_leaves_of this q;
  ve ← count_votes this found_leaves votes_required;
  r ← exact_knn q k ve.2;
  Some (r, length ve.2).


(** *** Persistence *)

Definition leaves_cells (leaves : list nat) : list (cell F) :=
  CInt (Z.of_nat (length leaves)) :: fmap (λ i, CInt (Z.of_nat i)) leaves.

Definition triplet_cells (t : triplet F) : list (cell F) :=
  [CInt (Z.of_nat t.1.1); CInt (Z.of_nat t.1.2); CFloat t.2].

(** [save]: the cells written when the file can be opened. *)
Definition save (this : Mrpt F) : option (list (cell F)) :=
  guard (n_array this * n_trees this ≤ length (mjoin (split_points this)));;
  trees ← mapM (λ i, tree_leaves this !! i) (seq 0 (n_trees this));
  matrix ←
    (if flt (density this) fone then
       Some (CInt (Z.of_nat (length (sparse_random_matrix this)))
             :: mjoin (fmap triplet_cells (sparse_random_matrix this)))
     else
       guard (n_pool this * dim this ≤ length (mjoin (dense_random_matrix this)));;
       Some (fmap CFloat (take (n_pool this * dim this)
                           (mjoin (dense_random_matrix this)))));
  Some ([CInt (Z.of_nat (n_trees this)); CInt (Z.of_nat (depth this));
         CFloat (density this)]
        ++ fmap CFloat (take (n_array this * n_trees this) (mjoin (split_points this)))
        ++ mjoin (fmap leaves_cells trees)
        ++ matrix).

(** Readers: the value and the rest of the file. *)
Definition read_int (fd : list (cell F)) : option (nat * list (cell F)) :=
  match fd with
  | CInt z :: fd' => if (0 <=? z)%Z then Some (Z.to_nat z, fd') else None
  | _ => None
  end.

Definition read_float (fd : list (cell F)) : option (F * list (cell F)) :=
  match fd with
  | CFloat f :: fd' => Some (f, fd')
  | _ => None
  end.

Fixpoint read_many {A} (rd : list (cell F) → option (A * list (cell F)))
    (count : nat) (fd : list (cell F)) : option (list A * list (cell F)) :=
  match count with
  | 0 => Some ([], fd)
  | S count' =>
      x ← rd fd;
      r ← read_many rd count' x.2;
      Some (x.1 :: r.1, r.2)
  end.

Definition read_leaves (fd : list (cell F)) : option (list nat * list (cell F)) :=
  sz ← read_int fd;
  read_many read_int sz.1 sz.2.

Definition read_triplet (fd : list (cell F)) : option (triplet F * list (cell F)) :=
  row ← read_int fd;
  col ← read_int row.2;
  val ← read_float col.2;
  Some ((row.1, col.1, val.1), val.2).

(** [load] on the index [this]. *)
Definition load (this : Mrpt F) (fd : list (cell F)) : option (Mrpt F) :=
  nt ← read_int fd;
  dp ← read_int nt.2;
  ds ← read_float dp.2;
  let n_trees_ := nt.1 in
  let depth_ := dp.1 in
  let density_ := ds.1 in
  let n_pool_ := n_trees_ * depth_ in
  let n_array_ := 2 ^ (depth_ + 1) in
  let lfia := count_first_leaf_indices_all (leaf_first_indices_all this)
                (n_samples this) depth_ in
  lfi ← lfia !! depth_;
  sp ← read_many read_float (n_array_ * n_trees_) ds.2;
  tl ← read_many read_leaves n_trees_ sp.2;
  if flt density_ fone then
    nz ← read_int tl.2;
    ts ← read_many read_triplet nz.1 nz.2;
    Some {|
      n_samples := n_samples this; dim := dim this;
      n_trees := n_trees_; depth := depth_; density := density_;
      n_pool := n_pool_; n_array := n_array_; votes := votes this;
      split_points := reshape (replicate n_trees_ n_array_) sp.1;
      tree_leaves := tl.1;
      dense_random_matrix := dense_random_matrix this;
      sparse_random_matrix := setFromTriplets ts.1;
      leaf_first_indices_all := lfia; leaf_first_indices := lfi;
      k := k this; recall_level := recall_level this;
      optimal_parameters := optimal_parameters this; opt_pars := opt_pars this;
      pars := pars this;
    |}
  else
    dm ← read_many read_float (n_pool_ * dim this) tl.2;
    Some {|
      n_samples := n_samples this; dim := dim this;
      n_trees := n_trees_; depth := depth_; density := density_;
      n_pool := n_pool_; n_array := n_array_; votes := votes this;
      split_points := reshape (replicate n_trees_ n_array_) sp.1;
      tree_leaves := tl.1;
      dense_random_matrix := reshape (replicate n_pool_ (dim this)) dm.1;
      sparse_random_matrix := sparse_random_matrix this;
      leaf_first_indices_all := lfia; leaf_first_indices := lfi;
      k := k this; recall_level := recall_level this;
      optimal_parameters := optimal_parameters this; opt_pars := opt_pars this;
      pars := pars this;
    |}.

(** *** Selecting parameters *)

Definition Qltb (a b : Q) : bool := negb (Qle_bool b a).

Definition is_faster (par1 par2 : Parameters.t) : bool :=
  Qltb (Parameters.estimated_qtime par1) (Parameters.estimated_qtime par2).

(** [std::set<Parameters, is_faster>::insert]: the set is the list of its
    elements in order; an element equivalent to one of the set is not
    inserted. *)
Fixpoint set_insert (par : Parameters.t) (s : list Parameters.t) : list Parameters.t :=
  match s with
  | [] => [par]
  | y :: s' =>
      if is_faster par y then par :: y :: s'
      else if is_faster y par then y :: set_insert par s'
      else y :: s'
  end.

(** The insertions of a loop, one record after the other. *)
Definition insert_all (l : list Parameters.t) (s : list Parameters.t) : list Parameters.t :=
  foldl (λ s par, set_insert par s) s l.

(** The records of the three loops of [fit_times], in the order in which
    they are inserted into [pars]. *)
Definition candidate_pars (get_query_time get_recall : nat → nat → nat → Q)
    (n_trees_ depth_min depth_ votes_max : nat) : list Parameters.t :=
  d ← seq depth_min (S depth_ - depth_min);
  t ← seq 1 n_trees_;
  v ← seq 1 (if votes_max <? t then votes_max else t);
  [Parameters.mk t d (Z.of_nat v) (get_query_time t d v) (get_recall t d v)].

(** [pars.begin()->estimated_recall += idx_sum > 1.0 ? 0.0002 : 0.0001]. *)
Definition perturb_first (idx_sum_gt_1 : bool) (s : list Parameters.t)
    : option (list Parameters.t) :=
  match s with
  | [] => None
  | p :: s' =>
      Some (Parameters.mk (Parameters.n_trees p) (Parameters.depth p) (Parameters.votes p)
              (Parameters.estimated_qtime p)
              (Parameters.estimated_recall p + (if idx_sum_gt_1 then 2 # 10000 else 1 # 10000))%Q
            :: s')
  end.

(** The loop that computes the frontier: the state is [opt_pars] and
    [best_recall]. *)
Definition pareto_step (st : list Parameters.t * Q) (par : Parameters.t)
    : list Parameters.t * Q :=
  if Qltb st.2 (Parameters.estimated_recall par)
  then (set_insert par st.1, Parameters.estimated_recall par)
  else st.

(** The end of [fit_times], from the construction of [pars] on.  The fitted
    times and the measured recalls are given by [get_query_time] and
    [get_recall]. *)
Definition fit_times (get_query_time get_recall : nat → nat → nat → Q)
    (idx_sum_gt_1 : bool) (depth_min votes_max : nat) (this : Mrpt F)
    : option (Mrpt F) :=
  let pars0 := insert_all
      (candidate_pars get_query_time get_recall (n_trees this) depth_min (depth this)
         votes_max) [] in
  pars_ ← perturb_first idx_sum_gt_1 pars0;
  let opt := (foldl pareto_step ([], (-1)%Q) pars_).1 in
  Some {|
    n_samples := n_samples this; dim := dim this;
    n_trees := n_trees this; depth := depth this; density := density this;
    n_pool := n_pool this; n_array := n_array this; votes := votes this;
    split_points := split_points this; tree_leaves := tree_leaves this;
    dense_random_matrix := dense_random_matrix this;
    sparse_random_matrix := sparse_random_matrix this;
    leaf_first_indices_all := leaf_first_indices_all this;
    leaf_first_indices := leaf_first_indices this;
    k := k this; recall_level := recall_level this;
    optimal_parameters := optimal_parameters this; opt_pars := opt;
    pars := pars_;
  |}.

Definition get_optimal_parameters (this : Mrpt F) (target_recall : Q) : Parameters.t :=
  let tr := (target_recall - (1 # 10000))%Q in
  match find (λ par, Qltb tr (Parameters.estimated_recall par)) (opt_pars this) with
  | Some par => par
  | None => Parameters.empty
  end.

(** *** Growing with tuning *)

(** The assignment [k = k_]. *)
Definition set_k (this : Mrpt F) (k_ : Z) : Mrpt F := {|
  n_samples := n_samples this; dim := dim this;
  n_trees := n_trees this; depth := depth this; density := density this;
  n_pool := n_pool this; n_array := n_array this; votes := votes this;
  split_points := split_points this; tree_leaves := tree_leaves this;
  dense_random_matrix := dense_random_matrix this;
  sparse_random_matrix := sparse_random_matrix this;
  leaf_first_indices_all := leaf_first_indices_all this;
  leaf_first_indices := leaf_first_indices this;
  k := Some k_; recall_level := recall_level this;
  optimal_parameters := optimal_parameters this; opt_pars := opt_pars this;
  pars := pars this;
|}.

(** [grow(Q_, k_, trees_max, depth_min_, depth_max, votes_max_, density,
    seed_mrpt)]: the forest is grown at the largest parameters, then
    [fit_times] selects the frontier.  The recalls measured on the test
    queries and the fitted times are given by [get_recall] and
    [get_query_time]. *)
Definition grow_autotune (this : Mrpt F) (k_ : Z)
    (trees_max depth_min depth_max votes_max : nat) (density_ : F) (g : Draws F)
    (get_query_time get_recall : nat → nat → nat → Q) (idx_sum_gt_1 : bool)
    : option (Mrpt F) :=
  f ← grow (set_k this k_) trees_max depth_max density_ g;
  fit_times get_query_time get_recall idx_sum_gt_1 depth_min votes_max f.

(** *** Trimming *)








End Index.

(** ** The shape of a tree and the median rule *)

(** One call [grow_subtree(begin, end, tree_level, i, ...)]. *)
Record call := Call {
  c_level : nat;
  c_node : nat;
  c_begin : nat;
  c_end : nat;
}.

(** The calls made by [grow_subtree] from the call (begin, end,
    tree_level, i) with [rem] levels to go, itself included. *)
Fixpoint calls (rem tree_level i begin end_ : nat) : list call :=
  Call tree_level i begin end_ ::
  match rem with
  | 0 => []
  | S rem' =>
      let mid := end_ - (end_ - begin) / 2 in
      calls rem' (S tree_level) (2 * i + 1) begin mid
      ++ calls rem' (S tree_level) (2 * i + 2) mid end_
  end.

(** The first position of the right child of a call. *)
Definition c_mid (c : call) : nat := c_end c - (c_end c - c_begin c) / 2.

Section Median.
Context {F : Type} `{Scalar F}.

(** [v] has rank [r] (from 1) among the keys of [l]. *)
Definition kth_smallest (key : nat → F) (l : list nat) (r : nat) (v : F) : Prop :=
  length (filter (λ y, flt (key y) v = true) l) < r
  ∧ r ≤ length (filter (λ y, fle (key y) v = true) l).

Definition is_largest (key : nat → F) (l : list nat) (x : nat) : Prop :=
  x ∈ l ∧ ∀ x', x' ∈ l → fle (key x') (key x) = true.

Definition is_smallest (key : nat → F) (l : list nat) (y : nat) : Prop :=
  y ∈ l ∧ ∀ y', y' ∈ l → fle (key y) (key y') = true.

(** The split value [s] of a node whose children hold [left] and [right]. *)
Definition median_rule (key : nat → F) (left right : list nat) (s : F) : Prop :=
  let m := length left + length right in
  (Nat.odd m = true →
     ∃ x, is_largest key left x ∧ s = key x
          ∧ kth_smallest key (left ++ right) ((m + 1) / 2) s)
  ∧ (Nat.odd m = false →
     ∃ x y, is_largest key left x ∧ is_smallest key right y
            ∧ s = favg (key y) (key x))
  ∧ (∀ x, x ∈ left → fle (key x) s = true)
  ∧ (∀ y, y ∈ right → fle s (key y) = true).

(** The node of call [c] in a grown tree. *)
Definition node_ok (tree_projections : nat → nat → F) (indices : list nat)
    (split_col : list F) (c : call) : Prop :=
  ∃ s, split_col !! c_node c = Some s
       ∧ median_rule (tree_projections (c_level c))
           (slab indices (c_begin c) (c_mid c)) (slab indices (c_mid c) (c_end c)) s.

End Median.

(** ** A grown forest *)

(** No internal node of a tree of depth [depth_] over [n] points is empty:
    the last level of internal nodes still holds a point in each node. *)
Definition growable (n depth_ : nat) : Prop := depth_ = 0 ∨ 2 ^ (depth_ - 1) ≤ n.

Section WellFormed.
Context {F : Type} `{Scalar F}.

(** The stored entries of a sparse matrix are in storage order, one per cell. *)
Fixpoint triplets_sorted (m : list (triplet F)) : bool :=
  match m with
  | [] => true
  | x :: m' =>
      match m' with
      | [] => true
      | y :: _ => triplet_before x y && triplets_sorted m'
      end
  end.

(** What [grow] establishes and the queries rely on. *)
Record well_formed (f : Mrpt F) : Prop := {
  wf_n_pool : n_pool f = n_trees f * depth f;
  wf_n_array : n_array f = 2 ^ (depth f + 1);
  wf_leaves_length : length (tree_leaves f) = n_trees f;
  wf_leaves_perm : ∀ leaves, leaves ∈ tree_leaves f → leaves ≡ₚ seq 0 (n_samples f);
  wf_split_length : length (split_points f) = n_trees f;
  wf_split_cols : ∀ col, col ∈ split_points f → length col = n_array f;
  wf_lfi : leaf_first_indices f = count_first_leaf_indices (n_samples f) (depth f);
  wf_dense : flt (density f) fone = false →
    length (dense_random_matrix f) = n_pool f
    ∧ ∀ row, row ∈ dense_random_matrix f → length row = dim f;
  wf_sparse : flt (density f) fone = true →
    triplets_sorted (sparse_random_matrix f) = true;
}.

End WellFormed.

(** ** Votes *)

(** The number of occurrences of [idx] in [l]. *)
Definition occurrences (idx : nat) (l : list nat) : nat :=
  length (filter (λ x, x = idx) l).

(** The points that reach [votes_required] votes while [visits] is
    traversed after [seen], in the order in which they reach it. *)
Fixpoint crossings (votes_required : Z) (seen visits : list nat) : list nat :=
  match visits with
  | [] => []
  | idx :: rest =>
      (if (Z.of_nat (occurrences idx seen) + 1 =? votes_required)%Z then [idx] else [])
      ++ crossings votes_required (seen ++ [idx]) rest
  end.

(** What the voting loop maintains after the points [seen]: the state is
    the vector of votes and the written part of [elected]. *)
Definition votes_inv (n : nat) (votes_required : Z) (seen : list nat)
    (st : list Z * list nat) : Prop :=
  length st.1 = n
  ∧ (∀ idx, idx < n → st.1 !! idx = Some (Z.of_nat (occurrences idx seen)))
  ∧ NoDup st.2
  ∧ (∀ idx, idx ∈ st.2 ↔
       (1 ≤ votes_required)%Z ∧ (votes_required ≤ Z.of_nat (occurrences idx seen))%Z)
  ∧ length st.2 ≤ length seen.

Section Routed.
Context {F : Type}.

(** The slab of the leaf found in tree [n_tree]. *)
Definition routed_slab (this : Mrpt F) (found_leaves : list nat) (n_tree : nat)
    : list nat :=
  default [] (
    found ← found_leaves !! n_tree;
    leaf_begin ← leaf_first_indices this !! found;
    leaf_end ← leaf_first_indices this !! (found + 1);
    indices ← tree_leaves this !! n_tree;
    Some (slab indices leaf_begin leaf_end)).

(** The points of the leaves found in the trees, tree after tree. *)
Definition routed (this : Mrpt F) (found_leaves : list nat) : list nat :=
  mjoin (fmap (routed_slab this found_leaves) (seq 0 (n_trees this))).

End Routed.

(** ** The result of [exact_knn] *)

Section KnnResult.
Context {F : Type} `{Scalar F} `{!Linalg F}.

(** What [out] and [out_distances] hold after [exact_knn] relative to an
    order [idx] of the candidate positions. *)
Definition knn_result (q : query_vec) (k : nat) (indices : list nat)
    (out : list Z) (dists : list F) (idx : list nat) : Prop :=
  let m := length indices in
  length out = k ∧ length dists = k
  ∧ idx ≡ₚ seq 0 m
  ∧ (∀ i, i < k `min` m →
       ∃ p c, idx !! i = Some p ∧ indices !! p = Some c
              ∧ out !! i = Some (Z.of_nat c)
              ∧ dists !! i = Some (fsqrt (squared_dist c q)))
  ∧ (∀ i j p p' c c', i < k `min` m → i ≤ j →
       idx !! i = Some p → idx !! j = Some p' →
       indices !! p = Some c → indices !! p' = Some c' →
       fle (squared_dist c q) (squared_dist c' q) = true)
  ∧ (∀ i j d d', i ≤ j → j < k `min` m →
       dists !! i = Some d → dists !! j = Some d' → fle d d' = true)
  ∧ (∀ i, k `min` m ≤ i → i < k →
       out !! i = Some (-1)%Z ∧ dists !! i = Some fneg1).

End KnnResult.

(** ** The frontier in the words of the specification *)

(** Traverse the records in order and accept a record only if its
    estimated recall strictly exceeds the best recall seen so far. *)
Fixpoint frontier (best_recall : Q) (l : list Parameters.t) : list Parameters.t :=
  match l with
  | [] => []
  | par :: l' =>
      if Qltb best_recall (Parameters.estimated_recall par)
      then par :: frontier (Parameters.estimated_recall par) l'
      else frontier best_recall l'
  end.

(** [a] comes before [b] in a set ordered by [is_faster]. *)
Definition faster (a b : Parameters.t) : Prop :=
  (Parameters.estimated_qtime a < Parameters.estimated_qtime b)%Q.

(** Both the estimated time and the estimated recall grow from [a] to [b]. *)
Definition dominated_step (a b : Parameters.t) : Prop :=
  (Parameters.estimated_qtime a < Parameters.estimated_qtime b)%Q
  ∧ (Parameters.estimated_recall a < Parameters.estimated_recall b)%Q.

(** No record of [l] reaches the target recall. *)
Definition infeasible (l : list Parameters.t) (target_recall : Q) : Prop :=
  ∀ par, par ∈ l →
    ¬ (target_recall - (1 # 10000) < Parameters.estimated_recall par)%Q.

(** ** A small instance

    Integers stand for the scalars, a sort for the two library algorithms,
    and the data are the eight points (0,0), (0,1), ..., (3,1) of the plane. *)

Module Grid.

#[export] Instance Z_scalar : Scalar Z := {|
  fle := Z.leb;
  fadd := Z.add;
  favg := λ a b, ((a + b) / 2)%Z;
  fsqrt := Z.sqrt;
  fone := 1%Z;
  fneg1 := (-1)%Z;
|}.

Fixpoint insert_by (comp : nat → nat → bool) (x : nat) (l : list nat) : list nat :=
  match l with
  | [] => [x]
  | y :: l' => if comp x y then x :: y :: l' else y :: insert_by comp x l'
  end.

Definition sort_by (comp : nat → nat → bool) (l : list nat) : list nat :=
  foldr (insert_by comp) [] l.

(** A sort is one of the results the standard allows. *)
#[export] Instance sort_algo : StdAlgo := {|
  nth_element := λ comp _ l, sort_by comp l;
  partial_sort := λ comp _ l, sort_by comp l;
|}.

Definition X : list (list Z) :=
  [[0; 0]; [0; 1]; [1; 0]; [1; 1]; [2; 0]; [2; 1]; [3; 0]; [3; 1]]%Z.

Definition dot (u v : list Z) : Z :=
  foldr Z.add 0%Z (zip_with Z.mul u v).

Definition sparse_row (m : list (triplet Z)) (r : nat) (v : list Z) : Z :=
  foldr Z.add 0%Z
    (omap (λ t : triplet Z,
       if t.1.1 =? r then Some (t.2 * default 0 (v !! t.1.2))%Z else None) m).

#[export] Instance grid : Linalg Z := {|
  X_cols := 8;
  X_rows := 2;
  query_vec := list Z;
  dense_times_X := λ m r p, dot (default [] (m !! r)) (default [] (X !! p));
  sparse_times_X := λ m first _ r p, sparse_row m (first + r) (default [] (X !! p));
  dense_times_q := λ m q j, dot (default [] (m !! j)) q;
  sparse_times_q := λ m q j, sparse_row m j q;
  squared_dist := λ i q,
    foldr Z.add 0%Z (zip_with (λ a b, (a - b) * (a - b))%Z (default [] (X !! i)) q);
|}.

(** A query at the point (a, b). *)
Definition point (a b : Z) : @query_vec Z grid := [a; b].

(** The draws of the examples: the first random vector of a tree looks at
    the first coordinate, the second at the second. *)
Definition draws : Draws Z := {|
  draw_dense := λ j i, if Nat.even (j + i) then 1%Z else 0%Z;
  draw_sparse := λ j i, if Nat.even (j + i) then Some 1%Z else None;
  uninit := λ _ _, 0%Z;
|}.

(** Measured recalls and fitted times of the examples. *)
Definition example_time (t d v : nat) : Q := inject_Z (Z.of_nat (t * d + v)).
Definition example_recall (t d v : nat) : Q := (1 # 2)%Q.

End Grid.

Module GridRuns.
Import Grid.

(** Two trees of depth 2 over the grid, dense projections. *)
Definition forest : Mrpt Z := default Mrpt_new (grow Mrpt_new 2 2 1%Z draws).

(** One tree of depth 1, tuned for k = 1 with at most one vote. *)
Definition tuned : Mrpt Z :=
  default Mrpt_new
    (grow_autotune Mrpt_new 1 1 1 1 1 1%Z draws example_time example_recall false).

End GridRuns.

(** ** Accessors *)

Section Accessors.
Context {F : Type}.

(** [get_split_point(tree, index)]: [split_points(index, tree)]. *)
Definition get_split_point (this : Mrpt F) (tree index : nat) : option F :=
  col ← split_points this !! tree;
  col !! index.

(** [get_leaf_point(tree, leaf, index)]. *)
Definition get_leaf_point (this : Mrpt F) (tree leaf index : nat) : option nat :=
  leaf_first_indices_ ← leaf_first_indices_all this !! depth this;
  leaf_begin ← leaf_first_indices_ !! leaf;
  leaves ← tree_leaves this !! tree;
  leaves !! (leaf_begin + index).

(** [get_leaf_size(tree, leaf)]; the tree is not looked at. *)
Definition get_leaf_size (this : Mrpt F) (tree leaf : nat) : option Z :=
  leaf_first_indices_ ← leaf_first_indices_all this !! depth this;
  leaf_end ← leaf_first_indices_ !! (leaf + 1);
  leaf_begin ← leaf_first_indices_ !! leaf;
  Some (Z.of_nat leaf_end - Z.of_nat leaf_begin)%Z.



Definition get_depth (this : Mrpt F) : nat := depth this.

Definition get_votes (this : Mrpt F) : Z := votes this.

Definition get_n_points (this : Mrpt F) : nat := n_samples this.

Definition get_dim (this : Mrpt F) : nat := dim this.

(** [optimal_parameter_list()]: the frontier as a vector. *)
Definition optimal_parameter_list (this : Mrpt F) : list Parameters.t := opt_pars this.

End Accessors.

(** ** Counting the points by their votes *)

(** Of the points [0 .. n), those that occur at least [v] times in
    [seen], and those of them that are among the true neighbours
    [exact]. *)
Definition at_least (n v : nat) (seen : list nat) : nat :=
  length (filter (λ idx, v ≤ occurrences idx seen) (seq 0 n)).

Definition at_least_in (exact : list Z) (n v : nat) (seen : list nat) : nat :=
  length (filter (λ idx, v ≤ occurrences idx seen ∧ Z.of_nat idx ∈ exact) (seq 0 n)).

(** What the innermost loop of [count_elected] maintains after the points
    [seen]: the state is the votes and the column of the tree in [recall]
    and in [candidate_set_size]. *)
Definition count_inv (exact : list Z) (n votes_max : nat) (seen : list nat)
    (st : list nat * list nat * list nat) : Prop :=
  length st.1.1 = n
  ∧ (∀ idx, idx < n → st.1.1 !! idx = Some (occurrences idx seen))
  ∧ length st.1.2 = votes_max ∧ length st.2 = votes_max
  ∧ ∀ v, 1 ≤ v → v ≤ votes_max →
      st.1.2 !! (v - 1) = Some (at_least_in exact n v seen)
      ∧ st.2 !! (v - 1) = Some (at_least n v seen).

(** ** Voting at a depth and with a number of trees below those grown *)

Section Tuning.
Context {F : Type} `{Scalar F} `{StdAlgo} `{Linalg F}.

(** [project_query(q, projected_query)]. *)
Definition project_query (this : Mrpt F) (q : query_vec) : nat → F :=
  if flt (density this) fone then sparse_times_q (sparse_random_matrix this) q
  else dense_times_q (dense_random_matrix this) q.

(** [vote(projected_query, votes_required, elected, n_elected, n_trees,
    depth_crnt)]: the entries written to the new buffer [elected], which
    start at the position [n_elected] of the caller, and the new value of
    [n_elected].  The rows of [projected_query] are those of the full
    depth, [n_tree * depth + d]. *)
Definition vote (this : Mrpt F) (projected_query : nat → F) (votes_required : Z)
    (n_elected : nat) (n_trees_ depth_crnt : nat) : option (list nat * nat) :=
  leaf_first_indices_ ← leaf_first_indices_all this !! depth_crnt;
  found_leaves ← mapM (λ n_tree,
      idx_tree ← route_from (default [] (split_points this !! n_tree)) projected_query
                    n_tree (depth this) depth_crnt 0 0;
      Some (idx_tree + 1 - 2 ^ depth_crnt)) (seq 0 n_trees_);
  let max_leaf_size := n_samples this / 2 ^ depth_crnt + 1 in
  let cap := n_trees_ * max_leaf_size in
  ve ← fold_opt (count_votes_tree leaf_first_indices_ (tree_leaves this) votes_required
                   (cap - n_elected) found_leaves)
         (seq 0 n_trees_) (replicate (n_samples this) 0%Z, []);
  Some (ve.2, n_elected + length ve.2).

(** The leaf of the query at depth [depth_crnt] in tree [n_tree], as [vote]
    and [count_elected] find it, and the points of that leaf. *)
Definition leaf_at (this : Mrpt F) (projected_query : nat → F)
    (n_tree depth_crnt : nat) : option nat :=
  idx_tree ← route_from (default [] (split_points this !! n_tree)) projected_query
                n_tree (depth this) depth_crnt 0 0;
  Some (idx_tree + 1 - 2 ^ depth_crnt).

Definition leaf_points_at (this : Mrpt F) (projected_query : nat → F)
    (n_tree depth_crnt : nat) : list nat :=
  default [] (
    found ← leaf_at this projected_query n_tree depth_crnt;
    leaf_first_indices_ ← leaf_first_indices_all this !! depth_crnt;
    leaf_begin ← leaf_first_indices_ !! found;
    leaf_end ← leaf_first_indices_ !! (found + 1);
    indices ← tree_leaves this !! n_tree;
    Some (slab indices leaf_begin leaf_end)).

(** The points of the leaves of the query at depth [depth_crnt] in the
    first [n_trees_] trees, tree after tree. *)
Definition routed_at (this : Mrpt F) (projected_query : nat → F)
    (n_trees_ depth_crnt : nat) : list nat :=
  mjoin (fmap (λ n_tree, leaf_points_at this projected_query n_tree depth_crnt)
           (seq 0 n_trees_)).

(** *** The statistics of the tuner *)

(** The routing loop of [count_elected] for one tree: [start_indices[n_tree]],
    the leaf of the query at each depth from [depth_min] to [depth]. *)
Definition start_indices_of (split_col : list F) (projected_query : nat → F)
    (n_tree depth_ depth_min : nat) : option (list nat) :=
  r ← fold_opt (λ (st : nat * list nat) d,
         let idx_tree := st.1 in
         let j := n_tree * depth_ + d in
         let idx_left := 2 * idx_tree + 1 in
         let idx_right := idx_left + 1 in
         split_point ← split_col !! idx_tree;
         let idx_tree' :=
           if fle (projected_query j) split_point then idx_left else idx_right in
         if depth_min <=? d + 1 then
           guard (d + 1 - depth_min < length st.2);;
           Some (idx_tree', <[d + 1 - depth_min := idx_tree' + 1 - 2 ^ (d + 1)]> st.2)
         else Some (idx_tree', st.2))
       (seq 0 depth_) (0, replicate (depth_ + 1 - depth_min) 0);
  Some r.2.

(** The body of the innermost loop of [count_elected] on the votes and on
    column [n_tree] of [recall] and of [candidate_set_size].  The counts
    are doubles that only ever hold whole numbers. *)
Definition count_elected_point (exact : list Z) (votes_max : nat)
    (st : list nat * list nat * list nat) (idx : nat)
    : option (list nat * list nat * list nat) :=
  v0 ← st.1.1 !! idx;
  let v := S v0 in
  let votes' := <[idx := v]> st.1.1 in
  if v <=? votes_max then
    c ← st.2 !! (v - 1);
    let cs_col := <[v - 1 := S c]> st.2 in
    if bool_decide (Z.of_nat idx ∈ exact) then
      r ← st.1.2 !! (v - 1);
      Some (votes', <[v - 1 := S r]> st.1.2, cs_col)
    else Some (votes', st.1.2, cs_col)
  else Some (votes', st.1.2, st.2).

(** One tree of the vote count of [count_elected] at depth [depth_crnt]:
    the state is the votes and the columns of [recall] and of
    [candidate_set_size] written so far. *)
Definition count_elected_tree (leaf_first_indices_ : list nat) (leaves : list (list nat))
    (exact : list Z) (votes_max : nat) (start_indices : list (list nat))
    (level : nat) (st : list nat * list (list nat) * list (list nat)) (n_tree : nat)
    : option (list nat * list (list nat) * list (list nat)) :=
  found_leaves ← start_indices !! n_tree;
  recall_col ← (if n_tree =? 0 then Some (replicate votes_max 0)
                else st.1.2 !! (n_tree - 1));
  cs_col ← (if n_tree =? 0 then Some (replicate votes_max 0)
            else st.2 !! (n_tree - 1));
  found ← found_leaves !! level;
  leaf_begin ← leaf_first_indices_ !! found;
  leaf_end ← leaf_first_indices_ !! (found + 1);
  indices ← leaves !! n_tree;
  r ← fold_opt (λ st i, idx ← indices !! i; count_elected_point exact votes_max st idx)
        (seq leaf_begin (leaf_end - leaf_begin)) (st.1.1, recall_col, cs_col);
  Some (r.1.1, st.1.2 ++ [r.1.2], st.2 ++ [r.2]).

(** The body of the loop over [depth_crnt]: the matrices [recall] and
    [candidate_set_size] of the depth, as lists of columns. *)
Definition count_elected_depth (this : Mrpt F) (exact : list Z) (votes_max : nat)
    (start_indices : list (list nat)) (depth_min depth_crnt : nat)
    : option (list (list nat) * list (list nat)) :=
  leaf_first_indices_ ← leaf_first_indices_all this !! depth_crnt;
  guard (0 < n_trees this);;
  r ← fold_opt (count_elected_tree leaf_first_indices_ (tree_leaves this) exact votes_max
                  start_indices (depth_crnt - depth_min))
        (seq 0 (n_trees this)) (replicate (n_samples this) 0, [], []);
  Some (r.1.2, r.2).

(** [count_elected(q, exact, votes_max, recalls, cs_sizes)]; [n_depths] is
    the size of the vectors [recalls] and [cs_sizes] that it fills. *)
Definition count_elected (this : Mrpt F) (q : query_vec) (exact : list Z)
    (votes_max n_depths : nat)
    : option (list (list (list nat)) * list (list (list nat))) :=
  let projected_query := projected_query_of this q in
  guard (n_depths ≤ depth this + 1);;
  let depth_min := depth this + 1 - n_depths in
  start_indices ← mapM (λ n_tree,
      start_indices_of (default [] (split_points this !! n_tree)) projected_query
        n_tree (depth this) depth_min) (seq 0 (n_trees this));
  ms ← mapM (count_elected_depth this exact votes_max start_indices depth_min)
         (seq depth_min (depth this + 1 - depth_min));
  Some (ms.*1, ms.*2).

(** [std::sort] on integers. *)
Definition std_sort (l : list Z) : list Z := merge_sort Z.le l.

(** [compute_exact(out_exact)]: one column of [out_exact] per test query.
    The members [Q] and [k] are the arguments [test_queries] and [k_]. *)
Definition compute_exact (this : Mrpt F) (test_queries : list query_vec) (k_ : Z)
    : option (list (list Z)) :=
  mapM (λ q, r ← exact_knn q k_ (seq 0 (n_samples this)); Some (std_sort r.1))
    test_queries.



End Tuning.

Module GridTrims.
Import Grid.


End GridTrims.

(** * Properties *)

#[local] Arguments Nat.div : simpl never.
#[local] Arguments Nat.pow : simpl never.

(** ** Slabs of a vector *)

Lemma length_slab {A} (l : list A) b e :
  e ≤ length l → length (slab l b e) = e - b.
Proof. intros. unfold slab. rewrite length_take, length_drop. lia. Qed.

Lemma slab_decompose {A} (l : list A) b e :
  b ≤ e → l = take b l ++ slab l b e ++ drop e l.
Proof.
  intros Hbe. unfold slab.
  rewrite <- (take_drop b l) at 1. f_equal.
  rewrite <- (take_drop (e - b) (drop b l)) at 1. f_equal.
  rewrite drop_drop. f_equal. lia.
Qed.

Lemma slab_split {A} (l : list A) b m e :
  b ≤ m → m ≤ e → slab l b e = slab l b m ++ slab l m e.
Proof.
  intros Hbm Hme. unfold slab.
  replace (e - b) with ((m - b) + (e - m)) by lia.
  rewrite <- take_take_drop, drop_drop. do 3 f_equal. lia.
Qed.

Lemma lookup_slab {A} (l : list A) b e j :
  j < e - b → slab l b e !! j = l !! (b + j).
Proof. intros. unfold slab. rewrite lookup_take_lt, lookup_drop; done. Qed.

Lemma elem_of_slab {A} (l : list A) b e x :
  x ∈ slab l b e ↔ ∃ p, b ≤ p < e ∧ l !! p = Some x.
Proof.
  unfold slab. rewrite elem_of_take. split.
  - intros (j & Hj & Hlt). rewrite lookup_drop in Hj. exists (b + j). split; [lia|done].
  - intros (p & Hp & Hx). exists (p - b). split; [|lia].
    rewrite lookup_drop. by replace (b + (p - b)) with p by lia.
Qed.

Lemma length_splice {A} (l s : list A) b e :
  b ≤ e → e ≤ length l → length s = e - b → length (splice l b e s) = length l.
Proof.
  intros. unfold splice. rewrite !length_app, length_take, length_drop. lia.
Qed.

Lemma take_splice {A} (l s : list A) b e :
  b ≤ length l → take b (splice l b e s) = take b l.
Proof.
  intros. unfold splice. rewrite take_app_length'; [done|].
  rewrite length_take. lia.
Qed.

Lemma drop_splice {A} (l s : list A) b e :
  b ≤ e → e ≤ length l → length s = e - b → drop e (splice l b e s) = drop e l.
Proof.
  intros. unfold splice. rewrite app_assoc. rewrite drop_app_length'; [done|].
  rewrite length_app, length_take. lia.
Qed.

Lemma slab_splice {A} (l s : list A) b e :
  b ≤ e → e ≤ length l → length s = e - b → slab (splice l b e s) b e = s.
Proof.
  intros. unfold slab, splice.
  rewrite drop_app_length' by (rewrite length_take; lia).
  rewrite take_app_length'; [done|lia].
Qed.

(** A vector that changed only inside [b, e) has the slabs outside of it. *)
Lemma slab_frame_left {A} (l l' : list A) b b' e' :
  take b l' = take b l → e' ≤ b → slab l' b' e' = slab l b' e'.
Proof.
  intros Ht He. unfold slab.
  destruct (decide (b' ≤ e')) as [Hle|Hgt].
  - rewrite !take_drop_commute.
    replace (b' + (e' - b')) with e' by lia.
    assert (take e' l' = take e' l) as ->; [|done].
    replace e' with (e' `min` b) by lia.
    rewrite <- !take_take. by rewrite Ht.
  - replace (e' - b') with 0 by lia. done.
Qed.

Lemma slab_frame_right {A} (l l' : list A) e b' e' :
  drop e l' = drop e l → e ≤ b' → slab l' b' e' = slab l b' e'.
Proof.
  intros Hd He. unfold slab.
  replace b' with (e + (b' - e)) by lia.
  rewrite <- !drop_drop. by rewrite Hd.
Qed.

Lemma slab_frame_mid {A} (l l' : list A) b e b' e' :
  b ≤ e → e ≤ length l → length l' = length l →
  take b l' = take b l → drop e l' = drop e l →
  slab l' b e ≡ₚ slab l b e →
  b' ≤ b → e ≤ e' → slab l' b' e' ≡ₚ slab l b' e'.
Proof.
  intros Hbe Hel Hlen Ht Hd Hp Hb' He'.
  rewrite (slab_split l' b' b e'), (slab_split l b' b e') by lia.
  rewrite (slab_split l' b e e'), (slab_split l b e e') by lia.
  rewrite (slab_frame_left l l' b b' b), (slab_frame_right l l' e e e') by (done || lia).
  by rewrite Hp.
Qed.

(** ** Scalars *)

Section ScalarFacts.
Context {F : Type} `{ScalarLaws F}.

Lemma fle_refl (a : F) : fle a a = true.
Proof. by destruct (fle_total a a). Qed.

Lemma flt_false_fle (a b : F) : flt a b = false → fle b a = true.
Proof. unfold flt. by destruct (fle b a). Qed.

Lemma flt_true_fle (a b : F) : flt a b = true → fle a b = true.
Proof.
  unfold flt. intros Hlt. destruct (fle_total a b) as [Hab|Hba]; [done|].
  by rewrite Hba in Hlt.
Qed.

Lemma flt_fle_trans (a b c : F) : flt a b = true → fle b c = true → flt a c = true.
Proof.
  unfold flt. intros Hab Hbc. destruct (fle c a) eqn:Hca; [|done].
  by rewrite (fle_trans b c a Hbc Hca) in Hab.
Qed.

Lemma fle_flt_trans (a b c : F) : fle a b = true → flt b c = true → flt a c = true.
Proof.
  unfold flt. intros Hab Hbc. destruct (fle c a) eqn:Hca; [|done].
  by rewrite (fle_trans c a b Hca Hab) in Hbc.
Qed.

(** *** std::max_element *)

Lemma max_element_from_spec (key : nat → F) (l pre : list nat) largest lv :
  pre !! largest = Some lv →
  (∀ x, x ∈ pre → fle (key x) (key lv) = true) →
  let p := max_element_from (λ a b, flt (key a) (key b)) largest lv (length pre) l in
  ∃ x, (pre ++ l) !! p = Some x ∧ ∀ x', x' ∈ pre ++ l → fle (key x') (key x) = true.
Proof.
  revert pre largest lv. induction l as [|y l IH]; intros pre largest lv Hl Hmax; simpl.
  - exists lv. rewrite app_nil_r. done.
  - destruct (flt (key lv) (key y)) eqn:Hlt.
    + specialize (IH (pre ++ [y]) (length pre) y).
      rewrite length_app in IH. simpl in IH.
      replace (length pre + 1) with (S (length pre)) in IH by lia.
      rewrite <- app_assoc in IH. simpl in IH. apply IH.
      * by rewrite lookup_app_r, Nat.sub_diag.
      * intros x [Hx| ->%list_elem_of_singleton]%elem_of_app; [|apply fle_refl].
        eapply fle_trans; [by apply Hmax|]. by apply flt_true_fle.
    + specialize (IH (pre ++ [y]) largest lv).
      rewrite length_app in IH. simpl in IH.
      replace (length pre + 1) with (S (length pre)) in IH by lia.
      rewrite <- app_assoc in IH. simpl in IH. apply IH.
      * rewrite lookup_app_l; [done|]. by eapply lookup_lt_Some.
      * intros x [Hx| ->%list_elem_of_singleton]%elem_of_app; [by apply Hmax|].
        by apply flt_false_fle.
Qed.

Lemma max_element_spec (key : nat → F) (l : list nat) :
  l ≠ [] →
  ∃ x, l !! max_element (λ a b, flt (key a) (key b)) l = Some x
       ∧ is_largest key l x.
Proof.
  destruct l as [|y l]; [done|]. intros _. simpl.
  destruct (max_element_from_spec key l [y] 0 y) as (x & Hx & Hmax); [done| |].
  - intros x ->%list_elem_of_singleton. apply fle_refl.
  - exists x. split; [done|]. split; [|done]. by eapply list_elem_of_lookup_2.
Qed.

(** *** The median rule does not depend on the order within the children *)

Lemma kth_smallest_perm (key : nat → F) l l' r v :
  l ≡ₚ l' → kth_smallest key l r v → kth_smallest key l' r v.
Proof. unfold kth_smallest. intros Hp. by rewrite Hp. Qed.

Lemma median_rule_perm (key : nat → F) left left' right right' s :
  left ≡ₚ left' → right ≡ₚ right' →
  median_rule key left right s → median_rule key left' right' s.
Proof.
  intros Hl Hr (Ho & He & Hle & Hge). unfold median_rule.
  rewrite <- (Permutation_length Hl), <- (Permutation_length Hr).
  split_and!.
  - intros Hodd. destruct (Ho Hodd) as (x & [Hin Hmax] & -> & Hk).
    exists x. split_and!; [split|done|].
    + by rewrite <- Hl.
    + intros x'. rewrite <- Hl. apply Hmax.
    + eapply kth_smallest_perm; [|done]. by rewrite Hl, Hr.
  - intros Hev. destruct (He Hev) as (x & y & [Hx Hmax] & [Hy Hmin] & ->).
    exists x, y. split_and!; [split|split|done].
    + by rewrite <- Hl.
    + intros x'. rewrite <- Hl. apply Hmax.
    + by rewrite <- Hr.
    + intros y'. rewrite <- Hr. apply Hmin.
  - intros x. rewrite <- Hl. apply Hle.
  - intros y. rewrite <- Hr. apply Hge.
Qed.

(** The rank of the largest key of [left] when nothing of [right] is
    below it. *)
Lemma filter_all {A} (P : A → Prop) `{∀ x, Decision (P x)} (l : list A) :
  (∀ x, x ∈ l → P x) → filter P l = l.
Proof.
  induction l as [|a l IH]; intros Hall; [done|].
  rewrite filter_cons_True by (apply Hall; left).
  f_equal. apply IH. intros x Hx. apply Hall. by right.
Qed.

Lemma filter_none {A} (P : A → Prop) `{∀ x, Decision (P x)} (l : list A) :
  (∀ x, x ∈ l → ¬ P x) → filter P l = [].
Proof.
  induction l as [|a l IH]; intros Hall; [done|].
  rewrite filter_cons_False by (apply Hall; left).
  apply IH. intros x Hx. apply Hall. by right.
Qed.

Lemma largest_left_rank (key : nat → F) left right x :
  is_largest key left x →
  (∀ y, y ∈ right → fle (key x) (key y) = true) →
  kth_smallest key (left ++ right) (length left) (key x).
Proof.
  intros [Hin Hmax] Hr. unfold kth_smallest. rewrite !list.filter_app, !length_app. split.
  - rewrite (filter_none _ right).
    + simpl. rewrite Nat.add_0_r. apply (length_filter_lt _ _ x); [done|].
      unfold flt. rewrite fle_refl. done.
    + intros y Hy. unfold flt. rewrite (Hr y Hy). done.
  - rewrite (filter_all _ left) by done. lia.
Qed.

End ScalarFacts.

Lemma odd_true_half n : Nat.odd n = true → n = 2 * (n / 2) + 1.
Proof. intros Ho. pose proof (Nat.div2_odd n) as Hd. rewrite Ho in Hd. simpl in Hd. lia. Qed.

Lemma odd_false_half n : Nat.odd n = false → n = 2 * (n / 2).
Proof. intros Ho. pose proof (Nat.div2_odd n) as Hd. rewrite Ho in Hd. simpl in Hd. lia. Qed.

Lemma elem_of_drop_lookup {A} (l : list A) n x :
  x ∈ drop n l ↔ ∃ j, n ≤ j ∧ l !! j = Some x.
Proof.
  rewrite list_elem_of_lookup. split.
  - intros [i Hi]. rewrite lookup_drop in Hi. exists (n + i). split; [lia|done].
  - intros (j & Hj & Hx). exists (j - n). rewrite lookup_drop.
    by replace (n + (j - n)) with j by lia.
Qed.

(** ** The split value of one node *)

Section Node.
Context {F : Type} `{ScalarLaws F} `{!StdAlgo} `{!StdAlgoLaws}.

Lemma length_nth_element (key : nat → F) nth l :
  length (nth_element (λ x y, flt (key x) (key y)) nth l) = length l.
Proof. apply Permutation_length, nth_element_perm. Qed.

Lemma split_odd (key : nat → F) (l0 l : list nat) n :
  n = length l0 →
  l = nth_element (λ x y, flt (key x) (key y)) (n / 2) l0 →
  Nat.odd n = true →
  ∃ x, l !! (n - n / 2 - 1) = Some x
       ∧ median_rule key (take (n - n / 2) l) (drop (n - n / 2) l) (key x).
Proof.
  intros Hn0 Hl Hodd. pose proof (odd_true_half n Hodd) as Hn.
  assert (length l = n) as Hlen by (subst l n; apply length_nth_element).
  destruct (lookup_lt_is_Some_2 l (n - n / 2 - 1)) as [x Hx]; [lia|].
  replace (n - n / 2 - 1) with (n / 2) in Hx |- * by lia.
  exists x. split; [done|].
  assert (is_largest key (take (n - n / 2) l) x) as Hlarge.
  { split.
    - apply elem_of_take. exists (n / 2). split; [done|lia].
    - intros x' (i & Hi & Hlt)%elem_of_take.
      destruct (decide (i = n / 2)) as [->|Hne].
      + rewrite Hx in Hi. injection Hi as ->. apply fle_refl.
      + subst l; eapply (nth_element_split key (n / 2) l0 i (n / 2)); [lia|lia|done..]. }
  assert (∀ y, y ∈ drop (n - n / 2) l → fle (key x) (key y) = true) as Hright.
  { intros y (j & Hj & Hy)%elem_of_drop_lookup.
    subst l; eapply (nth_element_nth key (n / 2) l0 j); [lia|done..]. }
  assert (length (take (n - n / 2) l) + length (drop (n - n / 2) l) = n) as Hm.
  { rewrite length_take, length_drop. lia. }
  unfold median_rule. rewrite Hm. split_and!.
  - intros _. exists x. split_and!; [done..|].
    replace ((n + 1) / 2) with (length (take (n - n / 2) l)) by (rewrite length_take; lia).
    by apply largest_left_rank.
  - intros Hev. congruence.
  - apply Hlarge.
  - done.
Qed.

Lemma split_even (key : nat → F) (l0 l : list nat) n :
  n = length l0 →
  l = nth_element (λ x y, flt (key x) (key y)) (n / 2) l0 →
  Nat.odd n = false → 1 ≤ n →
  ∃ r x, l !! (n - n / 2) = Some r
       ∧ l !! max_element (λ x y, flt (key x) (key y)) (take (n - n / 2) l) = Some x
       ∧ median_rule key (take (n - n / 2) l) (drop (n - n / 2) l) (favg (key r) (key x)).
Proof.
  intros Hn0 Hl Hev Hpos. pose proof (odd_false_half n Hev) as Hn.
  assert (length l = n) as Hlen by (subst l n; apply length_nth_element).
  assert (n - n / 2 = n / 2) as Hmid by (clear -Hn; lia). rewrite Hmid.
  destruct (lookup_lt_is_Some_2 l (n / 2)) as [r Hr]; [lia|].
  destruct (max_element_spec key (take (n / 2) l)) as (x & Hx & Hlarge).
  { intros Hnil. assert (length (take (n / 2) l) = 0) as Hz by (by rewrite Hnil).
    rewrite length_take in Hz. lia. }
  apply lookup_take_Some in Hx as [Hx Hp].
  exists r, x. split_and!; [done..|].
  assert (is_smallest key (drop (n / 2) l) r) as Hsmall.
  { split.
    - apply elem_of_drop_lookup. by exists (n / 2).
    - intros y (j & Hj & Hy)%elem_of_drop_lookup.
      subst l; by eapply (nth_element_nth key (n / 2) l0 j). }
  assert (fle (key x) (key r) = true) as Hxr.
  { subst l; eapply (nth_element_split key (n / 2) l0 _ (n / 2)); [exact Hp|lia|done..]. }
  destruct (favg_between (key x) (key r) Hxr) as [Hlo Hhi].
  assert (length (take (n / 2) l) + length (drop (n / 2) l) = n) as Hm.
  { rewrite length_take, length_drop. lia. }
  unfold median_rule. rewrite Hm. split_and!.
  - intros Hodd. congruence.
  - intros _. by exists x, r.
  - intros x' Hx'. eapply fle_trans; [|exact Hlo]. by apply Hlarge.
  - intros y Hy. eapply fle_trans; [exact Hhi|]. by apply Hsmall.
Qed.

End Node.

(** ** The calls of [grow_subtree] *)

Lemma calls_self rem l i b e : Call l i b e ∈ calls rem l i b e.
Proof. destruct rem; left. Qed.

Lemma calls_children rem l i b e c :
  c ∈ calls (S rem) l i b e ↔
  c = Call l i b e
  ∨ c ∈ calls rem (S l) (2 * i + 1) b (e - (e - b) / 2)
  ∨ c ∈ calls rem (S l) (2 * i + 2) (e - (e - b) / 2) e.
Proof. simpl. rewrite elem_of_cons, elem_of_app. done. Qed.

Lemma calls_level rem : ∀ l i b e c,
  c ∈ calls rem l i b e → l ≤ c_level c ∧ c_level c ≤ l + rem.
Proof.
  induction rem as [|rem IH]; intros l i b e c Hc.
  - apply list_elem_of_singleton in Hc as ->. simpl. lia.
  - apply calls_children in Hc as [->|[Hc|Hc]]; [simpl; lia|..];
      apply IH in Hc; lia.
Qed.

Lemma calls_within rem : ∀ l i b e c,
  b ≤ e → c ∈ calls rem l i b e →
  b ≤ c_begin c ∧ c_begin c ≤ c_end c ∧ c_end c ≤ e.
Proof.
  induction rem as [|rem IH]; intros l i b e c Hbe Hc.
  - apply list_elem_of_singleton in Hc as ->. simpl. lia.
  - apply calls_children in Hc as [->|[Hc|Hc]]; [simpl; lia|..];
      apply IH in Hc; lia.
Qed.

(** Nodes of level [l] have the heap indices [2^l - 1 .. 2^(l+1) - 2]. *)
Lemma calls_heap rem : ∀ l i b e c,
  2 ^ l ≤ i + 1 → i + 1 < 2 ^ (l + 1) → c ∈ calls rem l i b e →
  2 ^ c_level c ≤ c_node c + 1 ∧ c_node c + 1 < 2 ^ (c_level c + 1).
Proof.
  induction rem as [|rem IH]; intros l i b e c Hlo Hhi Hc.
  - apply list_elem_of_singleton in Hc as ->. done.
  - apply calls_children in Hc as [->|[Hc|Hc]]; [done|..];
      (eapply IH; [| |exact Hc]);
      rewrite ?Nat.pow_add_r, ?Nat.pow_succ_r' in *; simpl in *; lia.
Qed.

(** The nodes below node [i] at relative level [k]. *)
Lemma calls_span rem : ∀ l i b e c,
  c ∈ calls rem l i b e →
  (i + 1) * 2 ^ (c_level c - l) ≤ c_node c + 1
  ∧ c_node c + 1 < (i + 2) * 2 ^ (c_level c - l).
Proof.
  induction rem as [|rem IH]; intros l i b e c Hc.
  - apply list_elem_of_singleton in Hc as ->. simpl. rewrite Nat.sub_diag. simpl. lia.
  - apply calls_children in Hc as [->|[Hc|Hc]].
    + simpl. rewrite Nat.sub_diag. simpl. lia.
    + pose proof (calls_level _ _ _ _ _ _ Hc) as [Hl _].
      apply IH in Hc. replace (c_level c - l) with (S (c_level c - S l)) by lia.
      rewrite Nat.pow_succ_r'. lia.
    + pose proof (calls_level _ _ _ _ _ _ Hc) as [Hl _].
      apply IH in Hc. replace (c_level c - l) with (S (c_level c - S l)) by lia.
      rewrite Nat.pow_succ_r'. lia.
Qed.

Lemma heap_level_unique l l' j :
  2 ^ l ≤ j → j < 2 ^ (l + 1) → 2 ^ l' ≤ j → j < 2 ^ (l' + 1) → l = l'.
Proof.
  intros H1 H2 H3 H4.
  destruct (Nat.lt_trichotomy l l') as [Hlt|[->|Hlt]]; [|done|].
  - assert (2 ^ (l + 1) ≤ 2 ^ l') by (apply Nat.pow_le_mono_r; lia). lia.
  - assert (2 ^ (l' + 1) ≤ 2 ^ l) by (apply Nat.pow_le_mono_r; lia). lia.
Qed.

(** The two subtrees of a node share no heap index, and none with the node. *)
Lemma calls_disjoint rem l i b1 e1 b2 e2 c1 c2 :
  2 ^ l ≤ i + 1 → i + 1 < 2 ^ (l + 1) →
  c1 ∈ calls rem (S l) (2 * i + 1) b1 e1 →
  c2 ∈ calls rem (S l) (2 * i + 2) b2 e2 →
  c_node c1 ≠ c_node c2.
Proof.
  intros Hlo Hhi H1 H2 Heq.
  assert (2 ^ S l = 2 * 2 ^ l) as E1 by apply Nat.pow_succ_r'.
  assert (2 ^ (l + 1) = 2 * 2 ^ l) as E2 by (rewrite Nat.pow_add_r; simpl; lia).
  assert (2 ^ (S l + 1) = 4 * 2 ^ l) as E3 by (rewrite Nat.pow_add_r, E1; simpl; lia).
  destruct (calls_heap rem (S l) (2 * i + 1) b1 e1 c1) as [Hc1 Hc1']; [lia..|done|].
  destruct (calls_heap rem (S l) (2 * i + 2) b2 e2 c2) as [Hc2 Hc2']; [lia..|done|].
  rewrite Heq in Hc1, Hc1'.
  pose proof (heap_level_unique _ _ _ Hc1 Hc1' Hc2 Hc2') as Hlev.
  apply calls_span in H1, H2. rewrite Heq, Hlev in H1.
  destruct H1 as [_ H1], H2 as [H2 _].
  replace (2 * i + 1 + 2) with (2 * i + 2 + 1) in H1 by lia. lia.
Qed.

Lemma calls_not_parent rem l i b e c :
  2 ^ l ≤ i + 1 → i + 1 < 2 ^ (l + 1) →
  (c ∈ calls rem (S l) (2 * i + 1) b (e - (e - b) / 2)
   ∨ c ∈ calls rem (S l) (2 * i + 2) (e - (e - b) / 2) e) →
  c_node c ≠ i.
Proof.
  intros Hlo Hhi Hc Heq.
  assert ((i + 1) * 2 ^ (c_level c - l) ≤ c_node c + 1) as Hs.
  { destruct Hc as [Hc|Hc]; pose proof (calls_level _ _ _ _ _ _ Hc) as [Hl _];
      apply calls_span in Hc as [Hc _];
      replace (c_level c - l) with (S (c_level c - S l)) by lia;
      rewrite Nat.pow_succ_r'; lia. }
  assert (S l ≤ c_level c) as Hl.
  { destruct Hc as [Hc|Hc]; apply calls_level in Hc; lia. }
  replace (c_level c - l) with (S (c_level c - S l)) in Hs by lia.
  rewrite Nat.pow_succ_r' in Hs.
  assert (1 ≤ 2 ^ (c_level c - S l)) by (apply Nat.neq_0_lt_0, Nat.pow_nonzero; lia).
  nia.
Qed.

(** ** [grow_subtree] *)

Lemma lookup_splice_mid {A} (l s : list A) b e j :
  b ≤ length l → j < length s → splice l b e s !! (b + j) = s !! j.
Proof.
  intros Hb Hj. unfold splice.
  rewrite lookup_app_r by (rewrite length_take; lia).
  rewrite length_take. replace (b + j - b `min` length l) with j by lia.
  by rewrite lookup_app_l.
Qed.

Lemma slab_splice_left {A} (l s : list A) b e m :
  b ≤ m → m ≤ e → e ≤ length l → length s = e - b →
  slab (splice l b e s) b m = take (m - b) s.
Proof.
  intros. unfold slab, splice.
  rewrite drop_app_length' by (rewrite length_take; lia).
  rewrite take_app_le by lia. done.
Qed.

Lemma slab_splice_right {A} (l s : list A) b e m :
  b ≤ m → m ≤ e → e ≤ length l → length s = e - b →
  slab (splice l b e s) m e = drop (m - b) s.
Proof.
  intros. unfold slab, splice.
  assert (∀ X : list A, drop m X = drop (m - b) (drop b X)) as ->.
  { intros X. rewrite drop_drop. f_equal. lia. }
  rewrite drop_app_length' by (rewrite length_take; lia).
  rewrite drop_app_le by lia.
  rewrite take_app_length'; [done|]. rewrite length_drop. lia.
Qed.

Section GrowSubtree.
Context {F : Type} `{ScalarLaws F} `{!StdAlgo} `{!StdAlgoLaws}.

(** The split value computed at a node that holds at least one point. *)
Lemma grow_subtree_split (tp : nat → nat → F) b e l (idx : list nat) :
  b < e → e ≤ length idx →
  let n := e - b in
  let comp := λ i1 i2, flt (tp l i1) (tp l i2) in
  let indices := splice idx b e (nth_element comp (n / 2) (slab idx b e)) in
  let mid := e - n / 2 in
  ∃ s,
    (if Nat.odd n then x ← indices !! (mid - 1); Some (tp l x)
     else
       let left_it := b + max_element comp (slab indices b mid) in
       r ← indices !! mid; x ← indices !! left_it; Some (favg (tp l r) (tp l x)))
    = Some s
    ∧ median_rule (tp l) (slab indices b mid) (slab indices mid e) s.
Proof.
  intros Hbe He n comp indices mid.
  assert (n = e - b) as Hn0 by done.
  assert (mid = e - n / 2) as Hmid0 by done.
  clearbody n mid. subst indices comp.
  set (l0 := slab idx b e).
  set (srt := nth_element _ (n / 2) l0) in *.
  set (indices := splice idx b e srt).
  assert (length l0 = n) as Hl0 by (unfold l0; rewrite length_slab; lia).
  assert (length srt = n) as Hsrt by (unfold srt; rewrite length_nth_element; done).
  assert (n / 2 ≤ n) as Hhalf by (clear; lia).
  assert (slab indices b mid = take (n - n / 2) srt) as Hleft.
  { unfold indices. rewrite slab_splice_left by lia. f_equal. lia. }
  assert (slab indices mid e = drop (n - n / 2) srt) as Hright.
  { unfold indices. rewrite slab_splice_right by lia. f_equal. lia. }
  rewrite Hleft, Hright.
  destruct (Nat.odd n) eqn:Hodd.
  - destruct (split_odd (tp l) l0 srt n) as (x & Hx & Hrule); [done..|].
    exists (tp l x). split; [|done].
    pose proof (odd_true_half n Hodd) as Hn.
    replace (mid - 1) with (b + (n - n / 2 - 1)) by lia.
    unfold indices. rewrite lookup_splice_mid by lia. fold srt. rewrite Hx. done.
  - assert (1 ≤ n) as Hpos by lia.
    destruct (split_even (tp l) l0 srt n) as (r & x & Hr & Hx & Hrule); [done..|].
    exists (favg (tp l r) (tp l x)). split; [|done].
    pose proof (odd_false_half n Hodd) as Hn.
    pose proof (lookup_lt_Some _ _ _ Hx) as Hp.
    cbv zeta.
    replace mid with (b + (n - n / 2)) at 1 by lia.
    unfold indices at 1 2. rewrite !lookup_splice_mid by lia. fold srt.
    rewrite Hr. cbn [mbind option_bind]. rewrite Hx. done.
Qed.


Lemma node_ok_frame (tp : nat → nat → F) idx idx' (sp sp' : list F) c :
  sp' !! c_node c = sp !! c_node c →
  slab idx' (c_begin c) (c_mid c) ≡ₚ slab idx (c_begin c) (c_mid c) →
  slab idx' (c_mid c) (c_end c) ≡ₚ slab idx (c_mid c) (c_end c) →
  node_ok tp idx sp c → node_ok tp idx' sp' c.
Proof.
  intros Hsp Hl Hr (s & Hs & Hrule). exists s. split; [congruence|].
  eapply median_rule_perm; [symmetry; exact Hl|symmetry; exact Hr|done].
Qed.

Lemma grow_subtree_unfold (tp : nat → nat → F) rem b e l i idx (sp : list F) :
  grow_subtree (S rem) tp b e l i (idx, sp) =
  let n := e - b in
  let comp := λ i1 i2, flt (tp l i1) (tp l i2) in
  let indices := splice idx b e (nth_element comp (n / 2) (slab idx b e)) in
  let mid := e - n / 2 in
  s ← (if Nat.odd n then x ← indices !! (mid - 1); Some (tp l x)
       else
         let left_it := b + max_element comp (slab indices b mid) in
         r ← indices !! mid; x ← indices !! left_it;
         Some (favg (tp l r) (tp l x)));
  guard (i < length sp);;
  st1 ← grow_subtree rem tp b mid (S l) (2 * i + 1) (indices, <[i:=s]> sp);
  grow_subtree rem tp mid e (S l) (2 * i + 2) st1.
Proof. reflexivity. Qed.

Lemma grow_subtree_spec (tp : nat → nat → F) rem : ∀ b e l i idx sp,
  b ≤ e → e ≤ length idx →
  (rem = 0 ∨ 2 ^ (rem - 1) ≤ e - b) →
  2 ^ l ≤ i + 1 → i + 1 < 2 ^ (l + 1) →
  2 ^ (l + rem) ≤ length sp + 1 →
  ∃ idx' sp',
    grow_subtree rem tp b e l i (idx, sp) = Some (idx', sp')
    ∧ length idx' = length idx
    ∧ take b idx' = take b idx
    ∧ drop e idx' = drop e idx
    ∧ slab idx' b e ≡ₚ slab idx b e
    ∧ length sp' = length sp
    ∧ (∀ j, (∀ c, c ∈ calls rem l i b e → c_level c < l + rem → c_node c ≠ j) →
            sp' !! j = sp !! j)
    ∧ (∀ c, c ∈ calls rem l i b e → c_level c < l + rem → node_ok tp idx' sp' c).
Proof.
  induction rem as [|rem IH]; intros b e l i idx sp Hbe He Hsize Hlo Hhi Hsp.
  - exists idx, sp. split_and!; try done.
    intros c ->%list_elem_of_singleton. simpl. lia.
  - destruct Hsize as [?|Hsize]; [done|].
    replace (S rem - 1) with rem in Hsize by lia.
    assert (1 ≤ 2 ^ rem) as Hpow by (apply Nat.neq_0_lt_0, Nat.pow_nonzero; lia).
    assert (2 ^ S l = 2 * 2 ^ l) as E1 by apply Nat.pow_succ_r'.
    assert (2 ^ (l + 1) = 2 * 2 ^ l) as E2 by (rewrite Nat.pow_add_r; simpl; lia).
    assert (2 ^ (S l + 1) = 4 * 2 ^ l) as E3 by (rewrite Nat.pow_add_r, E1; simpl; lia).
    assert (2 ^ (l + 1) ≤ 2 ^ (l + S rem)) as E4 by (apply Nat.pow_le_mono_r; lia).
    destruct (grow_subtree_split tp b e l idx) as (s & Hs & Hrule); [lia|done|].
    cbv zeta in Hs, Hrule.
    set (n := e - b) in *.
    set (indices := splice idx b e _) in *.
    set (mid := e - n / 2) in *.
    assert (mid = e - (e - b) / 2) as Hmid by done.
    assert (b ≤ mid ∧ mid ≤ e) as [Hbm Hme] by (clear -Hbe Hmid; lia).
    assert (length indices = length idx) as Hlen.
    { unfold indices. rewrite length_splice; [done..|].
      rewrite length_nth_element, length_slab; done. }
    assert (take b indices = take b idx) as Htake.
    { unfold indices. rewrite take_splice; [done|lia]. }
    assert (drop e indices = drop e idx) as Hdrop.
    { unfold indices. rewrite drop_splice; [done..|].
      rewrite length_nth_element, length_slab; done. }
    assert (slab indices b e ≡ₚ slab idx b e) as Hperm.
    { unfold indices. rewrite slab_splice; [apply nth_element_perm|done..|].
      rewrite length_nth_element, length_slab; done. }
    assert (i < length sp) as Hi by lia.
    destruct (IH b mid (S l) (2 * i + 1) indices (<[i:=s]> sp))
      as (idx1 & sp1 & Hrun1 & Hlen1 & Htake1 & Hdrop1 & Hperm1 & Hsp1 & Hframe1 & Hok1).
    { done. } { lia. }
    { destruct rem as [|rem']; [by left|right]. simpl.
      rewrite Nat.sub_0_r. rewrite Nat.pow_succ_r' in Hsize.
      clear -Hsize Hmid Hbe. lia. }
    { lia. } { lia. }
    { rewrite length_insert. by replace (S l + rem) with (l + S rem) by lia. }
    destruct (IH mid e (S l) (2 * i + 2) idx1 sp1)
      as (idx2 & sp2 & Hrun2 & Hlen2 & Htake2 & Hdrop2 & Hperm2 & Hsp2 & Hframe2 & Hok2).
    { done. } { lia. }
    { destruct rem as [|rem']; [by left|right]. simpl.
      rewrite Nat.sub_0_r. rewrite Nat.pow_succ_r' in Hsize.
      clear -Hsize Hmid Hbe. lia. }
    { lia. } { lia. }
    { rewrite Hsp1, length_insert. by replace (S l + rem) with (l + S rem) by lia. }
    exists idx2, sp2.
    assert (take mid idx2 = take mid idx1) as Htm by done.
    assert (drop mid idx1 = drop mid indices) as Hdm by done.
    assert (slab idx2 b mid = slab idx1 b mid) as Hl21.
    { apply (slab_frame_left idx1 idx2 mid); [done|lia]. }
    assert (slab idx1 mid e = slab indices mid e) as Hr10.
    { apply (slab_frame_right indices idx1 mid); [done|lia]. }
    split_and!.
    + rewrite grow_subtree_unfold. cbv zeta. fold n. fold indices. fold mid.
      rewrite Hs. cbn [mbind option_bind].
      rewrite option_guard_True by done.
      rewrite Hrun1. done.
    + lia.
    + assert (∀ X : list nat, take b X = take b (take mid X)) as Htt.
      { intros X. rewrite take_take. f_equal. lia. }
      rewrite (Htt idx2), Htm, <- Htt. congruence.
    + assert (∀ X : list nat, drop e X = drop (e - mid) (drop mid X)) as Hdd.
      { intros X. rewrite drop_drop. f_equal. lia. }
      rewrite Hdrop2, (Hdd idx1), Hdm, <- Hdd. done.
    + rewrite (slab_split idx2 b mid e), (slab_split idx b mid e) by done.
      rewrite Hl21, Hperm1, Hperm2, Hr10.
      rewrite <- (slab_split indices b mid e) by done.
      rewrite Hperm. by rewrite <- slab_split.
    + by rewrite Hsp2, Hsp1, length_insert.
    + intros j Hj. rewrite Hframe2, Hframe1.
      * apply list_lookup_insert_ne. apply (Hj (Call l i b e)); [apply calls_self|simpl; lia].
      * intros c Hc Hlev. apply Hj; [|lia]. apply calls_children. auto.
      * intros c Hc Hlev. apply Hj; [|lia]. apply calls_children. auto.
    + intros c Hc Hlev. apply calls_children in Hc as [->|[Hc|Hc]].
      * exists s. split.
        -- cbn [c_node]. rewrite Hframe2, Hframe1.
           ++ by apply list_lookup_insert_eq.
           ++ intros c Hc _. apply (calls_not_parent rem l i b e); auto.
           ++ intros c Hc _. apply (calls_not_parent rem l i b e); auto.
        -- unfold c_mid. cbn [c_begin c_end c_level]. fold n. fold mid.
           eapply median_rule_perm; [| |exact Hrule].
           ++ by rewrite Hl21, Hperm1.
           ++ by rewrite Hperm2, Hr10.
      * pose proof (calls_within _ _ _ _ _ _ Hbm Hc) as (Hcb & Hcbe & Hce).
        assert (c_mid c ≤ c_end c) as Hcm by (unfold c_mid; clear; lia).
        assert (c_begin c ≤ c_mid c) as Hcm' by (unfold c_mid; clear -Hcbe; lia).
        apply (node_ok_frame tp idx1 idx2 sp1 sp2).
        -- apply Hframe2. intros c' Hc' _ Heq.
           by apply (calls_disjoint rem l i b mid mid e c c').
        -- rewrite (slab_frame_left idx1 idx2 mid); [done|done|lia].
        -- rewrite (slab_frame_left idx1 idx2 mid); [done|done|lia].
        -- apply Hok1; [done|lia].
      * apply Hok2; [done|lia].
Qed.

(** Whatever it returns, [grow_subtree] keeps the length of the index vector. *)
Lemma grow_subtree_length (tp : nat → nat → F) rem : ∀ b e l i idx sp idx' sp',
  b ≤ e → e ≤ length idx →
  grow_subtree rem tp b e l i (idx, sp) = Some (idx', sp') →
  length idx' = length idx.
Proof.
  induction rem as [|rem IH]; intros b e l i idx sp idx' sp' Hbe He Hrun.
  - by injection Hrun as <- <-.
  - rewrite grow_subtree_unfold in Hrun. cbv zeta in Hrun.
    set (n := e - b) in *.
    set (indices := splice idx b e _) in *.
    set (mid := e - n / 2) in *.
    assert (mid = e - (e - b) / 2) as Hmid by done.
    assert (b ≤ mid ∧ mid ≤ e) as [Hbm Hme] by (clear -Hbe Hmid; lia).
    assert (length indices = length idx) as Hlen.
    { unfold indices. rewrite length_splice; [done..|].
      rewrite length_nth_element, length_slab; done. }
    clearbody indices mid.
    destruct (if Nat.odd n then _ else _) as [s|]; [|done].
    cbn [mbind option_bind] in Hrun.
    destruct (decide (i < length sp)) as [Hi|Hi];
      [rewrite option_guard_True in Hrun by done
      |rewrite option_guard_False in Hrun by done; done].
    cbn [mbind option_bind] in Hrun.
    destruct (grow_subtree rem tp b mid (S l) (2 * i + 1) _) as [[idx1 sp1]|] eqn:Hrun1;
      [|done].
    cbn [mbind option_bind] in Hrun.
    apply IH in Hrun1; [|done|lia].
    apply IH in Hrun; [|done|lia]. lia.
Qed.

(** A node with fewer than [2^rem] points and [rem + 1] levels to go, at
    the right end of the vector: the rightmost node of some level below
    has no point, and its even branch reads [*mid], which is [*end], past
    the end of the vector. *)
Lemma grow_subtree_empty_node (tp : nat → nat → F) rem : ∀ b e l i idx sp,
  b ≤ e → e = length idx → e - b < 2 ^ rem →
  grow_subtree (S rem) tp b e l i (idx, sp) = None.
Proof.
  induction rem as [|rem IH]; intros b e l i idx sp Hbe He Hsize;
    rewrite grow_subtree_unfold; cbv zeta.
  - assert (e - b = 0) as -> by (revert Hsize; compute; lia).
    assert (b = e) as -> by lia.
    replace (0 / 2) with 0 by done. rewrite Nat.sub_0_r.
    cbn [Nat.odd].
    rewrite (lookup_ge_None_2 _ e); [done|].
    rewrite length_splice; [lia|done|lia|].
    rewrite length_nth_element, length_slab; lia.
  - set (n := e - b) in *.
    set (indices := splice idx b e _) in *.
    set (mid := e - n / 2) in *.
    assert (mid = e - (e - b) / 2) as Hmid by done.
    assert (b ≤ mid ∧ mid ≤ e) as [Hbm Hme] by (clear -Hbe Hmid; lia).
    assert (length indices = length idx) as Hlen.
    { unfold indices. rewrite length_splice; [done|done|lia|].
      rewrite length_nth_element, length_slab; lia. }
    assert (e - mid < 2 ^ rem) as Hright.
    { rewrite Nat.pow_succ_r' in Hsize. clear -Hsize Hmid Hbe. fold n in Hmid. lia. }
    clearbody indices mid.
    destruct (if Nat.odd n then _ else _) as [s|]; [|done].
    cbn [mbind option_bind].
    destruct (decide (i < length sp)) as [Hi|Hi];
      [rewrite option_guard_True by done|rewrite option_guard_False by done; done].
    cbn [mbind option_bind].
    destruct (grow_subtree (S rem) tp b mid (S l) (2 * i + 1) _) as [[idx1 sp1]|] eqn:Hrun1;
      [|done].
    cbn [mbind option_bind].
    apply grow_subtree_length in Hrun1; [|done|lia].
    apply IH; [done|lia|done].
Qed.

End GrowSubtree.

(** ** Leaf sizes *)

Lemma sum_list_app (l1 l2 : list nat) : sum_list (l1 ++ l2) = sum_list l1 + sum_list l2.
Proof. induction l1 as [|a l1 IH]; simpl; lia. Qed.

Lemma count_leaf_sizes_app rem : ∀ n out,
  count_leaf_sizes rem n out = out ++ count_leaf_sizes rem n [].
Proof.
  induction rem as [|rem IH]; intros n out; simpl; [done|].
  rewrite (IH (n / 2) (count_leaf_sizes rem (n - n / 2) out)).
  rewrite (IH (n / 2) (count_leaf_sizes rem (n - n / 2) [])).
  rewrite (IH (n - n / 2) out). by rewrite app_assoc.
Qed.

Lemma count_leaf_sizes_S rem n :
  count_leaf_sizes (S rem) n [] =
  count_leaf_sizes rem (n - n / 2) [] ++ count_leaf_sizes rem (n / 2) [].
Proof. simpl. apply count_leaf_sizes_app. Qed.

Lemma length_count_leaf_sizes rem : ∀ n, length (count_leaf_sizes rem n []) = 2 ^ rem.
Proof.
  induction rem as [|rem IH]; intros n; [done|].
  rewrite count_leaf_sizes_S, length_app, !IH, Nat.pow_succ_r'. lia.
Qed.

Lemma sum_count_leaf_sizes rem : ∀ n, sum_list (count_leaf_sizes rem n []) = n.
Proof.
  induction rem as [|rem IH]; intros n; [simpl; lia|].
  rewrite count_leaf_sizes_S, sum_list_app, !IH. lia.
Qed.

(** A leaf of depth [rem] holds at most the ceiling of [n / 2^rem] points. *)
Lemma count_leaf_sizes_ceil rem : ∀ n s,
  s ∈ count_leaf_sizes rem n [] → s * 2 ^ rem + 1 ≤ n + 2 ^ rem.
Proof.
  induction rem as [|rem IH]; intros n s Hs.
  - apply list_elem_of_singleton in Hs as ->. simpl. lia.
  - rewrite count_leaf_sizes_S in Hs. rewrite Nat.pow_succ_r'.
    apply elem_of_app in Hs as [Hs|Hs]; apply IH in Hs; lia.
Qed.

Lemma count_leaf_sizes_floor rem : ∀ n s,
  s ∈ count_leaf_sizes rem n [] → n ≤ s * 2 ^ rem + 2 ^ rem - 1.
Proof.
  induction rem as [|rem IH]; intros n s Hs.
  - apply list_elem_of_singleton in Hs as ->. simpl. lia.
  - rewrite count_leaf_sizes_S in Hs. rewrite Nat.pow_succ_r'.
    assert (1 ≤ 2 ^ rem) by (apply Nat.neq_0_lt_0, Nat.pow_nonzero; lia).
    apply elem_of_app in Hs as [Hs|Hs]; apply IH in Hs; lia.
Qed.

Lemma count_leaf_sizes_max rem n s :
  s ∈ count_leaf_sizes rem n [] → s ≤ n / 2 ^ rem + 1.
Proof.
  intros Hs%count_leaf_sizes_ceil.
  assert (1 ≤ 2 ^ rem) as Hp by (apply Nat.neq_0_lt_0, Nat.pow_nonzero; lia).
  destruct s as [|s]; [lia|].
  assert (s ≤ n / 2 ^ rem); [|lia].
  apply Nat.div_le_lower_bound; [lia|]. lia.
Qed.

(** ** Prefix sums *)

Lemma length_prefix_sums sizes : ∀ acc, length (prefix_sums acc sizes) = S (length sizes).
Proof. induction sizes as [|s sizes IH]; intros acc; simpl; [done|]. by rewrite IH. Qed.

Lemma lookup_prefix_sums sizes : ∀ acc k,
  k ≤ length sizes →
  prefix_sums acc sizes !! k = Some (acc + sum_list (take k sizes)).
Proof.
  induction sizes as [|s sizes IH]; intros acc k Hk.
  - simpl in Hk. replace k with 0 by lia. simpl. f_equal. lia.
  - destruct k as [|k]; simpl.
    + f_equal. lia.
    + rewrite IH by (simpl in Hk; lia). f_equal. lia.
Qed.

Lemma lookup_count_first_leaf_indices n depth k :
  k ≤ 2 ^ depth →
  count_first_leaf_indices n depth !! k
  = Some (sum_list (take k (count_leaf_sizes depth n []))).
Proof.
  intros Hk. unfold count_first_leaf_indices.
  rewrite lookup_prefix_sums by (rewrite length_count_leaf_sizes; done). done.
Qed.

Lemma sum_take_le (l : list nat) k : sum_list (take k l) ≤ sum_list l.
Proof.
  rewrite <- (take_drop k l) at 2. rewrite sum_list_app. lia.
Qed.

Lemma sum_take_S (l : list nat) k s :
  l !! k = Some s → sum_list (take (S k) l) = sum_list (take k l) + s.
Proof.
  intros Hs. rewrite (take_S_r _ _ _ Hs), sum_list_app. simpl. lia.
Qed.

(** The slab of a leaf: where it starts and ends in the table of the depth. *)
Lemma leaf_bounds n depth leaf :
  leaf < 2 ^ depth →
  ∃ b e, count_first_leaf_indices n depth !! leaf = Some b
       ∧ count_first_leaf_indices n depth !! (leaf + 1) = Some e
       ∧ b ≤ e ∧ e ≤ n ∧ e - b ≤ n / 2 ^ depth + 1
       ∧ count_leaf_sizes depth n [] !! leaf = Some (e - b).
Proof.
  intros Hleaf.
  destruct (lookup_lt_is_Some_2 (count_leaf_sizes depth n []) leaf) as [s Hs].
  { by rewrite length_count_leaf_sizes. }
  exists (sum_list (take leaf (count_leaf_sizes depth n []))),
         (sum_list (take (S leaf) (count_leaf_sizes depth n []))).
  rewrite !lookup_count_first_leaf_indices by lia.
  replace (leaf + 1) with (S leaf) by lia.
  rewrite (sum_take_S _ _ _ Hs).
  pose proof (sum_take_le (count_leaf_sizes depth n []) (S leaf)) as Hle.
  rewrite (sum_take_S _ _ _ Hs), sum_count_leaf_sizes in Hle.
  pose proof (count_leaf_sizes_max depth n s (list_elem_of_lookup_2 _ _ _ Hs)).
  split_and!; [done|done|lia|lia|lia|].
  rewrite Hs. f_equal. lia.
Qed.


(** ** Sparse matrices *)

Section Sparse.
Context {F : Type} `{Scalar F}.

Lemma triplet_before_trans (a b c : triplet F) :
  triplet_before a b = true → triplet_before b c = true → triplet_before a c = true.
Proof.
  unfold triplet_before. intros Hab Hbc.
  destruct (Nat.ltb_spec a.1.1 b.1.1), (Nat.eqb_spec a.1.1 b.1.1),
    (Nat.ltb_spec a.1.2 b.1.2), (Nat.ltb_spec b.1.1 c.1.1), (Nat.eqb_spec b.1.1 c.1.1),
    (Nat.ltb_spec b.1.2 c.1.2), (Nat.ltb_spec a.1.1 c.1.1), (Nat.eqb_spec a.1.1 c.1.1),
    (Nat.ltb_spec a.1.2 c.1.2); simpl in *; try done; lia.
Qed.

Lemma triplet_before_cases (a b : triplet F) :
  triplet_before a b = false → same_cell a b = false → triplet_before b a = true.
Proof.
  unfold triplet_before, same_cell.
  destruct (Nat.ltb_spec a.1.1 b.1.1), (Nat.eqb_spec a.1.1 b.1.1),
    (Nat.ltb_spec a.1.2 b.1.2), (Nat.eqb_spec a.1.2 b.1.2),
    (Nat.ltb_spec b.1.1 a.1.1), (Nat.eqb_spec b.1.1 a.1.1),
    (Nat.ltb_spec b.1.2 a.1.2); simpl in *; try done; lia.
Qed.

Lemma triplet_before_asym (a b : triplet F) :
  triplet_before a b = true → triplet_before b a = false ∧ same_cell b a = false.
Proof.
  unfold triplet_before, same_cell.
  destruct (Nat.ltb_spec a.1.1 b.1.1), (Nat.eqb_spec a.1.1 b.1.1),
    (Nat.ltb_spec a.1.2 b.1.2), (Nat.eqb_spec b.1.2 a.1.2),
    (Nat.ltb_spec b.1.1 a.1.1), (Nat.eqb_spec b.1.1 a.1.1),
    (Nat.ltb_spec b.1.2 a.1.2); simpl in *; try done; lia.
Qed.

Lemma triplets_sorted_cons (x y : triplet F) m :
  triplets_sorted (x :: y :: m) = triplet_before x y && triplets_sorted (y :: m).
Proof. done. Qed.

(** The head of [insert_triplet x m] is [x] or occupies the cell of the
    head of [m]. *)
Lemma insert_triplet_sorted (x : triplet F) m :
  triplets_sorted m = true →
  triplets_sorted (insert_triplet x m) = true
  ∧ ∀ z, triplet_before z x = true →
      (∀ y m', m = y :: m' → triplet_before z y = true) →
      ∀ y m', insert_triplet x m = y :: m' → triplet_before z y = true.
Proof.
  induction m as [|y m IH]; intros Hs.
  - split; [done|]. intros z Hz _ y m' [= <- <-]. done.
  - cbn [insert_triplet].
    destruct (triplet_before x y) eqn:Hxy.
    { split; [rewrite triplets_sorted_cons, Hxy; done|].
      intros z Hz _ y' m' [= <- <-]. done. }
    destruct (same_cell x y) eqn:Hsame.
    { split.
      - destruct m as [|y2 m]; [done|].
        rewrite triplets_sorted_cons in Hs |- *.
        apply andb_true_iff in Hs as [Hy Hs]. apply andb_true_iff. split; [|done].
        revert Hy. unfold triplet_before. simpl. done.
      - intros z Hz Hy y' m' [= <- <-]. specialize (Hy y m eq_refl).
        revert Hy. unfold triplet_before. simpl. done. }
    assert (triplets_sorted m = true) as Hsm.
    { destruct m as [|y2 m]; [done|]. rewrite triplets_sorted_cons in Hs.
      by apply andb_true_iff in Hs as [_ Hs]. }
    destruct (IH Hsm) as [IH1 IH2].
    split.
    + destruct (insert_triplet x m) as [|y2 m2] eqn:Hins; [done|].
      rewrite triplets_sorted_cons. apply andb_true_iff. split; [|done].
      apply (IH2 y) with (m' := m2); [by apply triplet_before_cases| |done].
      intros y3 m3 ->. rewrite triplets_sorted_cons in Hs.
      by apply andb_true_iff in Hs as [Hs _].
    + intros z Hz Hy y' m' [= <- <-]. by apply (Hy y m).
Qed.

Lemma setFromTriplets_sorted (ts : list (triplet F)) :
  triplets_sorted (setFromTriplets ts) = true.
Proof.
  unfold setFromTriplets.
  assert (∀ acc, triplets_sorted acc = true →
    triplets_sorted (foldl (λ m x, insert_triplet x m) acc ts) = true) as Hgen.
  { induction ts as [|x ts IH]; intros acc Hacc; [done|].
    simpl. apply IH. by apply insert_triplet_sorted. }
  by apply Hgen.
Qed.

End Sparse.

(** ** [grow] *)

Section Grow.
Context {F : Type} `{ScalarLaws F} `{!StdAlgo} `{!StdAlgoLaws} `{!Linalg F}.

Lemma slab_all {A} (l : list A) : slab l 0 (length l) = l.
Proof. unfold slab. rewrite Nat.sub_0_r. simpl. apply firstn_all. Qed.

Lemma grow_tree_ok (g : Draws F) n depth_ sparse srm drm n_tree :
  growable n depth_ →
  ∃ leaves col,
    grow_tree g n depth_ (2 ^ (depth_ + 1)) sparse srm drm n_tree = Some (leaves, col)
    ∧ leaves ≡ₚ seq 0 n
    ∧ length col = 2 ^ (depth_ + 1)
    ∧ ∀ c, c ∈ calls depth_ 0 0 0 n → c_level c < depth_ →
        node_ok (tree_projections_of depth_ sparse srm drm n_tree) leaves col c.
Proof.
  intros Hgrow. unfold grow_tree.
  set (tp := tree_projections_of depth_ sparse srm drm n_tree).
  set (sp := fmap _ (seq 0 (2 ^ (depth_ + 1)))).
  assert (length sp = 2 ^ (depth_ + 1)) as Hsp.
  { unfold sp. by rewrite length_fmap, length_seq. }
  destruct (grow_subtree_spec tp depth_ 0 n 0 0 (seq 0 n) sp)
    as (idx' & sp' & Hrun & Hlen & _ & _ & Hperm & Hsp' & _ & Hok).
  - lia.
  - by rewrite length_seq.
  - rewrite Nat.sub_0_r. exact Hgrow.
  - compute. lia.
  - compute. lia.
  - rewrite Hsp. simpl. rewrite Nat.pow_add_r. simpl. lia.
  - exists idx', sp'. split_and!; [done| |congruence|done].
    rewrite length_seq in Hlen.
    pose proof (slab_all idx') as E1. rewrite Hlen in E1.
    pose proof (slab_all (seq 0 n)) as E2. rewrite length_seq in E2.
    by rewrite E1, E2 in Hperm.
Qed.

Lemma lookup_count_first_leaf_indices_all n depth_max d :
  d ≤ depth_max →
  count_first_leaf_indices_all [] n depth_max !! d = Some (count_first_leaf_indices n d).
Proof.
  intros Hd. unfold count_first_leaf_indices_all. rewrite app_nil_l.
  rewrite list_lookup_fmap, lookup_seq_lt by lia. done.
Qed.

Lemma length_build_dense (g : Draws F) n_row n_col :
  length (build_dense_random_matrix g n_row n_col) = n_row
  ∧ ∀ row, row ∈ build_dense_random_matrix g n_row n_col → length row = n_col.
Proof.
  unfold build_dense_random_matrix. split.
  - by rewrite length_fmap, length_seq.
  - intros row (j & -> & _)%list_elem_of_fmap. by rewrite length_fmap, length_seq.
Qed.

(** The forest built by [grow] on a new index. *)
Lemma grow_ok (n_trees_ depth_ : nat) (density_ : F) (g : Draws F) :
  growable X_cols depth_ →
  ∃ f, grow Mrpt_new n_trees_ depth_ density_ g = Some f
    ∧ well_formed f
    ∧ n_samples f = X_cols ∧ dim f = X_rows
    ∧ n_trees f = n_trees_ ∧ depth f = depth_ ∧ density f = density_
    ∧ votes f = 0%Z ∧ k f = None
    ∧ leaf_first_indices_all f = map (count_first_leaf_indices X_cols) (seq 0 (S depth_))
    ∧ ∀ n_tree, n_tree < n_trees_ →
        ∃ leaves col,
          tree_leaves f !! n_tree = Some leaves
          ∧ split_points f !! n_tree = Some col
          ∧ ∀ c, c ∈ calls depth_ 0 0 0 X_cols → c_level c < depth_ →
              node_ok (tree_projections_of depth_ (flt density_ fone)
                         (sparse_random_matrix f) (dense_random_matrix f) n_tree)
                leaves col c.
Proof.
  intros Hgrow. unfold grow. cbn [leaf_first_indices_all n_samples dim Mrpt_new].
  rewrite lookup_count_first_leaf_indices_all by done.
  cbn [mbind option_bind].
  set (sparse := flt density_ fone).
  set (srm := if sparse then build_sparse_random_matrix _ _ _ else _).
  set (drm := if sparse then _ else build_dense_random_matrix _ _ _).
  destruct (mapM (grow_tree g X_cols depth_ (2 ^ (depth_ + 1)) sparse srm drm)
              (seq 0 n_trees_)) as [trees|] eqn:Htrees.
  2: { apply mapM_None in Htrees. apply Exists_exists in Htrees as (t & _ & Ht).
       destruct (grow_tree_ok g X_cols depth_ sparse srm drm t Hgrow) as (? & ? & Ht' & _).
       congruence. }
  apply mapM_Some in Htrees.
  assert (length trees = n_trees_) as Hlen.
  { apply Forall2_length in Htrees. by rewrite length_seq in Htrees. }
  assert (∀ t leaves col, trees !! t = Some (leaves, col) →
            leaves ≡ₚ seq 0 X_cols ∧ length col = 2 ^ (depth_ + 1)
            ∧ ∀ c, c ∈ calls depth_ 0 0 0 X_cols → c_level c < depth_ →
                node_ok (tree_projections_of depth_ sparse srm drm t) leaves col c)
    as Htree.
  { intros t leaves col Ht.
    destruct (Forall2_lookup_r _ _ _ _ _ Htrees Ht) as (t' & Ht' & Hrun).
    apply lookup_seq in Ht' as [-> _]. simpl in Hrun.
    destruct (grow_tree_ok g X_cols depth_ sparse srm drm t Hgrow)
      as (leaves' & col' & Hrun' & Hp & Hc & Hok).
    rewrite Hrun in Hrun'. injection Hrun' as <- <-. done. }
  eexists. split; [reflexivity|].
  cbn [n_samples dim n_trees depth density votes k leaf_first_indices_all
       tree_leaves split_points sparse_random_matrix dense_random_matrix].
  split_and!; try done.
  - constructor; cbn [n_samples dim n_trees depth density n_pool n_array votes
      tree_leaves split_points sparse_random_matrix dense_random_matrix
      leaf_first_indices]; try done.
    + by rewrite length_fmap.
    + intros leaves (t & Ht)%list_elem_of_lookup.
      rewrite list_lookup_fmap in Ht.
      destruct (trees !! t) as [[leaves' col]|] eqn:Hlk; [|done].
      injection Ht as <-. by apply (Htree t leaves' col).
    + by rewrite length_fmap.
    + intros col (t & Ht)%list_elem_of_lookup.
      rewrite list_lookup_fmap in Ht.
      destruct (trees !! t) as [[leaves col']|] eqn:Hlk; [|done].
      injection Ht as <-. by apply (Htree t leaves col').
    + intros Hd. unfold drm. fold sparse in Hd. rewrite Hd.
      apply length_build_dense.
    + intros Hd. unfold srm. fold sparse in Hd. rewrite Hd.
      apply setFromTriplets_sorted.
  - intros t Ht.
    destruct (lookup_lt_is_Some_2 trees t) as [[leaves col] Hlk]; [lia|].
    exists leaves, col. rewrite !list_lookup_fmap, Hlk.
    split_and!; [done..|]. by apply (Htree t leaves col).
Qed.

(** X1.  [growable] is needed: with a tree to grow and an internal level that
    has more nodes than there are points, [grow] reads past the end of the
    index vector of the first tree. *)
Lemma grow_not_growable (this : Mrpt F) (n_trees_ depth_ : nat) (density_ : F)
    (g : Draws F) :
  1 ≤ n_trees_ → ¬ growable (n_samples this) depth_ →
  grow this n_trees_ depth_ density_ g = None.
Proof.
  intros Ht Hng. unfold grow. cbv zeta.
  destruct (_ !! depth_) as [lfi|]; [|done]. cbn [mbind option_bind].
  destruct n_trees_ as [|t]; [lia|].
  destruct depth_ as [|rem]; [by destruct Hng; left|].
  assert (n_samples this < 2 ^ rem) as Hn.
  { destruct (decide (2 ^ rem ≤ n_samples this)) as [Hle|]; [|lia].
    destruct Hng. right. by replace (S rem - 1) with rem by lia. }
  rewrite <- cons_seq. cbn [mapM].
  assert (∀ n_array_ sparse srm drm,
    grow_tree g (n_samples this) (S rem) n_array_ sparse srm drm 0 = None) as ->; [|done].
  intros. unfold grow_tree.
  apply grow_subtree_empty_node; [lia|by rewrite length_seq|lia].
Qed.

End Grow.


Section GrowTheorems.
Context {F : Type} `{ScalarLaws F} `{!StdAlgo} `{!StdAlgoLaws} `{!Linalg F}.

(** C1.  In every tree grown by [grow], every internal node reached by
    [grow_subtree] with [m = end - begin] points stores a split value [s]
    that obeys the median rule on the projections of the node's level: for
    odd [m], [s] is the projection of a point of the left child that is a
    largest one there and has rank (m+1)/2 among the points of the node;
    for even [m], [s] is the mean of a largest projection of the left child
    and a smallest one of the right child; no point of the left child
    projects above [s] and none of the right child below.  [grow] is
    defined when no internal node is empty ([growable]). *)
Theorem grow_split_values_obey_median_rule
    (n_trees_ depth_ : nat) (density_ : F) (g : Draws F) :
  growable X_cols depth_ →
  ∃ f, grow Mrpt_new n_trees_ depth_ density_ g = Some f
    ∧ ∀ n_tree c,
        n_tree < n_trees_ → c ∈ calls depth_ 0 0 0 X_cols → c_level c < depth_ →
        ∃ leaves col s,
          tree_leaves f !! n_tree = Some leaves
          ∧ split_points f !! n_tree = Some col
          ∧ col !! c_node c = Some s
          ∧ length (slab leaves (c_begin c) (c_mid c))
            + length (slab leaves (c_mid c) (c_end c)) = c_end c - c_begin c
          ∧ median_rule
              (tree_projections_of depth_ (flt density_ fone)
                 (sparse_random_matrix f) (dense_random_matrix f) n_tree (c_level c))
              (slab leaves (c_begin c) (c_mid c))
              (slab leaves (c_mid c) (c_end c)) s.
Proof.
  intros Hgrow.
  destruct (grow_ok n_trees_ depth_ density_ g Hgrow)
    as (f & Hrun & Hwf & Hn & _ & Hnt & _ & _ & _ & _ & _ & Htrees).
  exists f. split; [done|]. intros n_tree c Ht Hc Hlev.
  destruct (Htrees n_tree Ht) as (leaves & col & Hl & Hcol & Hok).
  destruct (Hok c Hc Hlev) as (s & Hs & Hrule).
  exists leaves, col, s. split_and!; [done..| |done].
  assert (leaves ≡ₚ seq 0 X_cols) as Hperm.
  { rewrite <- Hn. apply (wf_leaves_perm f Hwf). by eapply list_elem_of_lookup_2. }
  apply Permutation_length in Hperm. rewrite length_seq in Hperm.
  pose proof (calls_within _ _ _ _ _ _ (Nat.le_0_l X_cols) Hc) as (_ & Hbe & He).
  assert (c_begin c ≤ c_mid c ∧ c_mid c ≤ c_end c) as [Hbm Hme].
  { unfold c_mid. clear -Hbe. lia. }
  rewrite !length_slab by lia. lia.
Qed.


End GrowTheorems.

(** ** Counting votes *)

Lemma occurrences_nil idx : occurrences idx [] = 0.
Proof. done. Qed.

Lemma occurrences_app idx l1 l2 :
  occurrences idx (l1 ++ l2) = occurrences idx l1 + occurrences idx l2.
Proof. unfold occurrences. by rewrite list.filter_app, length_app. Qed.

Lemma occurrences_singleton idx x :
  occurrences idx [x] = if decide (x = idx) then 1 else 0.
Proof. unfold occurrences. rewrite filter_cons. by destruct (decide (x = idx)). Qed.

Lemma occurrences_pos idx l : 0 < occurrences idx l ↔ idx ∈ l.
Proof.
  unfold occurrences. split.
  - intros Hpos. destruct (filter (λ x, x = idx) l) as [|y l'] eqn:Hf; [simpl in Hpos; lia|].
    assert (y ∈ filter (λ x, x = idx) l) as Hy by (rewrite Hf; left).
    apply list_elem_of_filter in Hy as [-> Hy]. done.
  - intros Hin.
    assert (idx ∈ filter (λ x, x = idx) l) as Hy by (by apply list_elem_of_filter).
    destruct (filter (λ x, x = idx) l); [by apply not_elem_of_nil in Hy|simpl; lia].
Qed.

Lemma occurrences_NoDup idx l : NoDup l → occurrences idx l ≤ 1.
Proof.
  induction 1 as [|x l Hx Hnd IH]; [rewrite occurrences_nil; lia|].
  change (x :: l) with ([x] ++ l). rewrite occurrences_app, occurrences_singleton.
  destruct (decide (x = idx)) as [->|]; [|lia].
  assert (occurrences idx l = 0); [|lia].
  destruct (occurrences idx l) eqn:Ho; [done|].
  exfalso. apply Hx, occurrences_pos. lia.
Qed.

Lemma fold_opt_cons {A B} (f : B → A → option B) x l b :
  fold_opt f (x :: l) b = f b x ≫= fold_opt f l.
Proof. done. Qed.

Lemma fold_opt_app {A B} (f : B → A → option B) l1 l2 b :
  fold_opt f (l1 ++ l2) b = fold_opt f l1 b ≫= fold_opt f l2.
Proof.
  revert b. induction l1 as [|x l1 IH]; intros b; [done|].
  rewrite <- app_comm_cons, !fold_opt_cons.
  destruct (f b x) as [b'|]; [|done]. apply IH.
Qed.

Lemma cast_vote_unfold votes_required cap votes elected idx v :
  votes !! idx = Some v →
  cast_vote votes_required cap (votes, elected) idx =
  if (v + 1 =? votes_required)%Z
  then guard (length elected < cap);; Some (<[idx:=(v + 1)%Z]> votes, elected ++ [idx])
  else Some (<[idx:=(v + 1)%Z]> votes, elected).
Proof. intros Hv. unfold cast_vote. cbn [fst snd]. by rewrite Hv. Qed.

Section Votes.
Context (n : nat) (votes_required : Z) (cap : nat).

Lemma cast_votes_spec (visits : list nat) : ∀ seen st,
  (∀ idx, idx ∈ visits → idx < n) →
  length seen + length visits ≤ cap →
  votes_inv n votes_required seen st →
  ∃ st', fold_opt (cast_vote votes_required cap) visits st = Some st'
       ∧ votes_inv n votes_required (seen ++ visits) st'
       ∧ st'.2 = st.2 ++ crossings votes_required seen visits.
Proof.
  induction visits as [|idx rest IH]; intros seen [votes elected] Hlt Hcap Hinv.
  - exists (votes, elected). simpl. rewrite !app_nil_r. done.
  - destruct Hinv as (Hlen & Hvotes & Hnd & Hel & Hsz). cbn [fst snd length] in *.
    assert (idx < n) as Hidx by (apply Hlt; left).
    rewrite fold_opt_cons.
    rewrite (cast_vote_unfold _ _ _ _ _ _ (Hvotes idx Hidx)).
    set (c := occurrences idx seen).
    assert (votes_inv n votes_required (seen ++ [idx])
              (<[idx:=(Z.of_nat c + 1)%Z]> votes,
               elected ++ (if (Z.of_nat c + 1 =? votes_required)%Z then [idx] else [])))
      as Hinv'.
    { unfold votes_inv. cbn [fst snd]. split_and!.
      - by rewrite length_insert.
      - intros j Hj. rewrite occurrences_app, occurrences_singleton.
        destruct (decide (idx = j)) as [->|Hne].
        + rewrite list_lookup_insert_eq by lia. f_equal. fold c. lia.
        + rewrite list_lookup_insert_ne by done. rewrite Hvotes by done. f_equal. lia.
      - destruct (Z.eqb_spec (Z.of_nat c + 1) votes_required) as [Heq|Hne];
          [|by rewrite app_nil_r].
        apply list.NoDup_app. split_and!; [done| |apply NoDup_singleton].
        intros j Hj ->%list_elem_of_singleton. apply Hel in Hj. fold c in Hj. lia.
      - intros j. rewrite elem_of_app, Hel, occurrences_app, occurrences_singleton.
        destruct (Z.eqb_spec (Z.of_nat c + 1) votes_required) as [Heq|Hne].
        + rewrite list_elem_of_singleton.
          destruct (decide (idx = j)) as [->|Hne]; [fold c; lia|].
          split; [intros [?|?]; [lia|congruence]|lia].
        + rewrite elem_of_nil.
          destruct (decide (idx = j)) as [->|Hne']; [fold c; lia|lia].
      - rewrite !length_app. simpl.
        destruct (Z.eqb_spec (Z.of_nat c + 1) votes_required); simpl; lia. }
    cbn [crossings]. fold c.
    destruct (Z.eqb_spec (Z.of_nat c + 1) votes_required) as [Heq|Hne].
    + rewrite option_guard_True by lia.
      destruct (IH (seen ++ [idx]) _ ltac:(intros; apply Hlt; by right)
                  ltac:(rewrite length_app; simpl; lia) Hinv') as (st' & Hrun & Hi & He).
      exists st'. cbn [fst snd] in *.
      rewrite <- !app_assoc in Hi, He. done.
    + rewrite app_nil_r in Hinv'.
      destruct (IH (seen ++ [idx]) _ ltac:(intros; apply Hlt; by right)
                  ltac:(rewrite length_app; simpl; lia) Hinv') as (st' & Hrun & Hi & He).
      exists st'. cbn [fst snd] in *.
      rewrite <- !app_assoc in Hi. done.
Qed.

End Votes.

(** ** Routing *)

Section Routing.
Context {F : Type} `{Scalar F}.

Lemma route_from_ok (split_col : list F) (pq : nat → F) n_tree depth_ rem :
  2 ^ depth_ ≤ length split_col + 1 →
  ∀ d idx_tree,
    d + rem = depth_ → 2 ^ d ≤ idx_tree + 1 → idx_tree + 1 < 2 ^ (d + 1) →
    ∃ r, route_from split_col pq n_tree depth_ rem d idx_tree = Some r
       ∧ 2 ^ depth_ ≤ r + 1 ∧ r + 1 < 2 ^ (depth_ + 1).
Proof.
  intros Hcol. induction rem as [|rem IH]; intros d idx_tree Hd Hlo Hhi.
  - exists idx_tree. replace depth_ with d by lia. done.
  - cbn [route_from].
    assert (2 ^ (d + 1) ≤ 2 ^ depth_) by (apply Nat.pow_le_mono_r; lia).
    destruct (lookup_lt_is_Some_2 split_col idx_tree) as [s Hs]; [lia|].
    rewrite Hs. cbn [mbind option_bind].
    assert (2 ^ (d + 1) = 2 * 2 ^ d) as E1 by (rewrite Nat.pow_add_r; simpl; lia).
    assert (2 ^ (S d + 1) = 4 * 2 ^ d) as E2.
    { replace (S d + 1) with (S (S d)) by lia. rewrite !Nat.pow_succ_r'. lia. }
    assert (2 ^ S d = 2 * 2 ^ d) as E3 by apply Nat.pow_succ_r'.
    apply IH; [lia|destruct (fle _ _); lia..].
Qed.

Lemma found_leaf_ok (sp : list (list F)) (pq : nat → F) depth_ n_tree col :
  sp !! n_tree = Some col → length col = 2 ^ (depth_ + 1) →
  ∃ leaf, found_leaf sp pq depth_ n_tree = Some leaf ∧ leaf < 2 ^ depth_.
Proof.
  intros Hcol Hlen. unfold found_leaf. rewrite Hcol. cbn [mbind option_bind].
  assert (2 ^ (depth_ + 1) = 2 * 2 ^ depth_) as E by (rewrite Nat.pow_add_r; simpl; lia).
  destruct (route_from_ok col pq n_tree depth_ depth_ ltac:(lia) 0 0)
    as (r & Hr & Hlo & Hhi); [lia|compute; lia..|].
  rewrite Hr. cbn [mbind option_bind]. eexists. split; [done|]. lia.
Qed.

Lemma found_leaves_ok `{!Linalg F} (f : Mrpt F) (q : query_vec) :
  well_formed f →
  ∃ found, found_leaves_of f q = Some found
         ∧ length found = n_trees f
         ∧ ∀ n_tree leaf, found !! n_tree = Some leaf → leaf < 2 ^ depth f.
Proof.
  intros Hwf. unfold found_leaves_of.
  set (pq := projected_query_of f q).
  destruct (mapM (found_leaf (split_points f) pq (depth f)) (seq 0 (n_trees f)))
    as [found|] eqn:Hm.
  - exists found. apply mapM_Some in Hm. split_and!; [done| |].
    + apply Forall2_length in Hm. by rewrite length_seq in Hm.
    + intros t leaf Ht.
      destruct (Forall2_lookup_r _ _ _ _ _ Hm Ht) as (t' & Ht' & Hrun).
      apply lookup_seq in Ht' as [-> Hlt]. simpl in *.
      destruct (lookup_lt_is_Some_2 (split_points f) t) as [col Hcol].
      { by rewrite (wf_split_length f Hwf). }
      destruct (found_leaf_ok (split_points f) pq (depth f) t col Hcol) as (leaf' & Hl & Hb).
      { rewrite <- (wf_n_array f Hwf). apply (wf_split_cols f Hwf).
        by eapply list_elem_of_lookup_2. }
      congruence.
  - apply mapM_None in Hm. apply list.Exists_exists in Hm as (t & Ht & Hnone).
    apply elem_of_seq in Ht as [_ Ht]. simpl in Ht.
    destruct (lookup_lt_is_Some_2 (split_points f) t) as [col Hcol].
    { by rewrite (wf_split_length f Hwf). }
    destruct (found_leaf_ok (split_points f) pq (depth f) t col Hcol) as (leaf' & Hl & Hb).
    { rewrite <- (wf_n_array f Hwf). apply (wf_split_cols f Hwf).
      by eapply list_elem_of_lookup_2. }
    congruence.
Qed.

End Routing.

(** ** The voting loop on a forest *)

Lemma fold_positions {B} (g : B → nat → option B) (indices : list nat) k : ∀ b st,
  b + k ≤ length indices →
  fold_opt (λ st i, idx ← indices !! i; g st idx) (seq b k) st
  = fold_opt g (slab indices b (b + k)) st.
Proof.
  induction k as [|k IH]; intros b st Hk.
  - unfold slab. replace (b + 0 - b) with 0 by lia. done.
  - destruct (lookup_lt_is_Some_2 indices b) as [x Hx]; [lia|].
    assert (slab indices b (b + S k) = x :: slab indices (S b) (S b + k)) as ->.
    { unfold slab. replace (b + S k - b) with (S k) by lia.
      replace (S b + k - S b) with k by lia.
      rewrite (drop_S _ _ _ Hx). done. }
    cbn [seq]. rewrite !fold_opt_cons, Hx. cbn [mbind option_bind].
    destruct (g st x) as [st'|]; [|done]. cbn [mbind option_bind].
    apply IH. lia.
Qed.

Lemma mjoin_cons {A} (x : list A) (ls : list (list A)) : mjoin (x :: ls) = x ++ mjoin ls.
Proof. done. Qed.

Section VotesForest.
Context {F : Type} `{Scalar F}.

(** The slab of a found leaf in a well-formed forest. *)
Lemma routed_slab_ok (f : Mrpt F) found n_tree leaf :
  well_formed f → n_tree < n_trees f →
  found !! n_tree = Some leaf → leaf < 2 ^ depth f →
  ∃ indices b e,
    tree_leaves f !! n_tree = Some indices
    ∧ leaf_first_indices f !! leaf = Some b
    ∧ leaf_first_indices f !! (leaf + 1) = Some e
    ∧ b ≤ e ∧ e ≤ length indices
    ∧ e - b ≤ n_samples f / 2 ^ depth f + 1
    ∧ indices ≡ₚ seq 0 (n_samples f)
    ∧ routed_slab f found n_tree = slab indices b e.
Proof.
  intros Hwf Ht Hfound Hleaf.
  destruct (lookup_lt_is_Some_2 (tree_leaves f) n_tree) as [indices Hidx].
  { by rewrite (wf_leaves_length f Hwf). }
  destruct (leaf_bounds (n_samples f) (depth f) leaf Hleaf)
    as (b & e & Hb & He & Hbe & Hen & Hsz & _).
  assert (indices ≡ₚ seq 0 (n_samples f)) as Hperm.
  { apply (wf_leaves_perm f Hwf). by eapply list_elem_of_lookup_2. }
  pose proof (Permutation_length Hperm) as Hlen. rewrite length_seq in Hlen.
  exists indices, b, e. rewrite (wf_lfi f Hwf).
  split_and!; [done|done|done|done|lia|done|done|].
  unfold routed_slab. rewrite Hfound. cbn [mbind option_bind].
  rewrite (wf_lfi f Hwf), Hb. cbn [mbind option_bind].
  rewrite He. cbn [mbind option_bind]. rewrite Hidx. done.
Qed.

Lemma count_votes_tree_eq (f : Mrpt F) found votes_required cap st n_tree leaf :
  well_formed f → n_tree < n_trees f →
  found !! n_tree = Some leaf → leaf < 2 ^ depth f →
  count_votes_tree (leaf_first_indices f) (tree_leaves f) votes_required cap found st n_tree
  = fold_opt (cast_vote votes_required cap) (routed_slab f found n_tree) st.
Proof.
  intros Hwf Ht Hfound Hleaf.
  destruct (routed_slab_ok f found n_tree leaf Hwf Ht Hfound Hleaf)
    as (indices & b & e & Hidx & Hb & He & Hbe & Hel & _ & _ & ->).
  unfold count_votes_tree. rewrite Hfound. cbn [mbind option_bind].
  rewrite Hb. cbn [mbind option_bind]. rewrite He. cbn [mbind option_bind].
  rewrite Hidx. cbn [mbind option_bind].
  rewrite fold_positions by lia. by replace (b + (e - b)) with e by lia.
Qed.

Lemma count_votes_trees_eq (f : Mrpt F) found votes_required cap (ts : list nat) :
  well_formed f →
  (∀ n_tree leaf, found !! n_tree = Some leaf → leaf < 2 ^ depth f) →
  length found = n_trees f →
  ∀ st, (∀ t, t ∈ ts → t < n_trees f) →
  fold_opt (count_votes_tree (leaf_first_indices f) (tree_leaves f) votes_required
              cap found) ts st
  = fold_opt (cast_vote votes_required cap) (mjoin (routed_slab f found <$> ts)) st.
Proof.
  intros Hwf Hfound Hlen. induction ts as [|t ts IH]; intros st Hts; [done|].
  rewrite fmap_cons, fold_opt_cons, mjoin_cons, fold_opt_app.
  assert (t < n_trees f) as Ht by (apply Hts; left).
  destruct (lookup_lt_is_Some_2 found t) as [leaf Hleaf]; [lia|].
  rewrite (count_votes_tree_eq f found votes_required cap st t leaf); [|done..|by eapply Hfound].
  destruct (fold_opt _ (routed_slab f found t) st) as [st'|]; [|done].
  cbn [mbind option_bind]. apply IH. intros t' Ht'. apply Hts. by right.
Qed.

Lemma length_routed (f : Mrpt F) found (ts : list nat) :
  well_formed f →
  (∀ n_tree leaf, found !! n_tree = Some leaf → leaf < 2 ^ depth f) →
  length found = n_trees f →
  (∀ t, t ∈ ts → t < n_trees f) →
  length (mjoin (routed_slab f found <$> ts))
  ≤ length ts * (n_samples f / 2 ^ depth f + 1).
Proof.
  intros Hwf Hfound Hlen. induction ts as [|t ts IH]; intros Hts; [done|].
  rewrite fmap_cons, mjoin_cons, length_app. cbn [length].
  assert (t < n_trees f) as Ht by (apply Hts; left).
  destruct (lookup_lt_is_Some_2 found t) as [leaf Hleaf]; [lia|].
  destruct (routed_slab_ok f found t leaf Hwf Ht Hleaf ltac:(by eapply Hfound))
    as (indices & b & e & Hidx & Hb & He & Hbe & Hel & Hsz & _ & ->).
  rewrite length_slab by done.
  specialize (IH ltac:(intros t' Ht'; apply Hts; by right)).
  revert Hsz IH. generalize (n_samples f / 2 ^ depth f + 1).
  generalize (length (mjoin (routed_slab f found <$> ts))). intros. lia.
Qed.

Lemma routed_in_range (f : Mrpt F) found idx :
  well_formed f →
  (∀ n_tree leaf, found !! n_tree = Some leaf → leaf < 2 ^ depth f) →
  length found = n_trees f →
  idx ∈ routed f found → idx < n_samples f.
Proof.
  intros Hwf Hfound Hlen. unfold routed.
  intros (sl & Hin & (t & -> & Ht%elem_of_seq)%list_elem_of_fmap)%list_elem_of_join.
  simpl in Ht. destruct Ht as [_ Ht].
  destruct (lookup_lt_is_Some_2 found t) as [leaf Hleaf]; [lia|].
  destruct (routed_slab_ok f found t leaf Hwf Ht Hleaf ltac:(by eapply Hfound))
    as (indices & b & e & Hidx & Hb & He & Hbe & Hel & Hsz & Hperm & Heq).
  rewrite Heq in Hin. apply elem_of_slab in Hin as (p & _ & Hp).
  apply list_elem_of_lookup_2 in Hp. rewrite Hperm in Hp.
  apply elem_of_seq in Hp. lia.
Qed.

(** The loop of [query] that counts votes, on a well-formed forest. *)
Lemma count_votes_ok (f : Mrpt F) found votes_required :
  well_formed f →
  (∀ n_tree leaf, found !! n_tree = Some leaf → leaf < 2 ^ depth f) →
  length found = n_trees f →
  ∃ votes elected,
    count_votes f found votes_required = Some (votes, elected)
    ∧ votes_inv (n_samples f) votes_required (routed f found) (votes, elected)
    ∧ elected = crossings votes_required [] (routed f found)
    ∧ length elected ≤ n_trees f * (n_samples f / 2 ^ depth f + 1).
Proof.
  intros Hwf Hfound Hlen. unfold count_votes.
  rewrite count_votes_trees_eq; [|done..|by intros t [_ Ht]%elem_of_seq].
  fold (routed f found).
  pose proof (length_routed f found (seq 0 (n_trees f)) Hwf Hfound Hlen
                ltac:(by intros t [_ Ht]%elem_of_seq)) as Hcap.
  rewrite length_seq in Hcap. fold (routed f found) in Hcap.
  destruct (cast_votes_spec (n_samples f) votes_required
              (n_trees f * (n_samples f / 2 ^ depth f + 1)) (routed f found) []
              (replicate (n_samples f) 0%Z, []))
    as ([votes elected] & Hrun & Hinv & Hel).
  - intros idx. by apply routed_in_range.
  - simpl. revert Hcap. generalize (n_trees f * (n_samples f / 2 ^ depth f + 1)). lia.
  - unfold votes_inv. cbn [fst snd]. split_and!.
    + by rewrite length_replicate.
    + intros idx Hidx. by rewrite lookup_replicate_2.
    + constructor.
    + intros idx. rewrite elem_of_nil, occurrences_nil. lia.
    + done.
  - exists votes, elected. cbn [fst snd] in *. split_and!; [done..|].
    destruct Hinv as (_ & _ & _ & _ & Hsz). cbn [snd] in Hsz. rewrite app_nil_l in Hsz.
    revert Hsz Hcap. generalize (n_trees f * (n_samples f / 2 ^ depth f + 1)). lia.
Qed.

End VotesForest.

Section VoteCount.
Context {F : Type} `{Scalar F}.

Lemma NoDup_slab {A} (l : list A) b e : NoDup l → NoDup (slab l b e).
Proof.
  intros Hnd. unfold slab.
  eapply sublist_NoDup; [|apply sublist_take].
  eapply sublist_NoDup; [exact Hnd|apply sublist_drop].
Qed.

(** A tree gives a point at most one vote. *)
Lemma routed_slab_once (f : Mrpt F) found n_tree idx :
  well_formed f → n_tree < n_trees f →
  (∀ n_tree leaf, found !! n_tree = Some leaf → leaf < 2 ^ depth f) →
  length found = n_trees f →
  occurrences idx (routed_slab f found n_tree) ≤ 1.
Proof.
  intros Hwf Ht Hfound Hlen.
  destruct (lookup_lt_is_Some_2 found n_tree) as [leaf Hleaf]; [lia|].
  destruct (routed_slab_ok f found n_tree leaf Hwf Ht Hleaf ltac:(by eapply Hfound))
    as (indices & b & e & _ & _ & _ & _ & _ & _ & Hperm & ->).
  apply occurrences_NoDup, NoDup_slab. rewrite Hperm. apply NoDup_seq.
Qed.

Lemma occurrences_routed_le (f : Mrpt F) found idx :
  well_formed f →
  (∀ n_tree leaf, found !! n_tree = Some leaf → leaf < 2 ^ depth f) →
  length found = n_trees f →
  occurrences idx (routed f found) ≤ n_trees f.
Proof.
  intros Hwf Hfound Hlen. unfold routed.
  assert (∀ ts, (∀ t, t ∈ ts → t < n_trees f) →
            occurrences idx (mjoin (routed_slab f found <$> ts)) ≤ length ts) as Hgen.
  { induction ts as [|t ts IH]; intros Hts; [done|].
    rewrite fmap_cons, mjoin_cons, occurrences_app. cbn [length].
    pose proof (routed_slab_once f found t idx Hwf ltac:(apply Hts; left) Hfound Hlen).
    specialize (IH ltac:(intros t' Ht'; apply Hts; by right)). lia. }
  specialize (Hgen (seq 0 (n_trees f)) ltac:(by intros t [_ Ht]%elem_of_seq)).
  by rewrite length_seq in Hgen.
Qed.

End VoteCount.

Section QueryTheorems.
Context {F : Type} `{ScalarLaws F} `{!StdAlgo} `{!StdAlgoLaws} `{!Linalg F}.

(** C3.  For a query on a grown forest with [votes_required >= 1], the
    voting loop runs to its end and [elected] holds exactly the points
    whose number of votes over the leaves found in the [n_trees] trees
    reaches [votes_required], each once, in the order in which their
    counters reach [votes_required]; a tree gives a point at most one
    vote. *)
Theorem query_elects_exactly_the_voted
    (n_trees_ depth_ : nat) (density_ : F) (g : Draws F) :
  growable X_cols depth_ →
  ∃ f, grow Mrpt_new n_trees_ depth_ density_ g = Some f
    ∧ ∀ (q : query_vec) (votes_required : Z),
        (1 ≤ votes_required)%Z →
        ∃ found votes elected,
          found_leaves_of f q = Some found
          ∧ count_votes f found votes_required = Some (votes, elected)
          ∧ NoDup elected
          ∧ (∀ idx, idx ∈ elected ↔
               (votes_required ≤ Z.of_nat (occurrences idx (routed f found)))%Z)
          ∧ elected = crossings votes_required [] (routed f found)
          ∧ (∀ idx, idx < X_cols →
               votes !! idx = Some (Z.of_nat (occurrences idx (routed f found))))
          ∧ (∀ idx n_tree, n_tree < n_trees_ →
               occurrences idx (routed_slab f found n_tree) ≤ 1).
Proof.
  intros Hgrow.
  destruct (grow_ok n_trees_ depth_ density_ g Hgrow)
    as (f & Hrun & Hwf & Hn & _ & Hnt & Hd & _ & _ & _ & _ & _).
  exists f. split; [done|]. intros q votes_required Hvr.
  destruct (found_leaves_ok f q Hwf) as (found & Hfound & Hlen & Hleaf).
  destruct (count_votes_ok f found votes_required Hwf Hleaf Hlen)
    as (votes & elected & Hcount & (Hvl & Hvotes & Hnd & Hel & _) & Hcross & _).
  cbn [fst snd] in *.
  exists found, votes, elected. split_and!; [done..| |done| |].
  - intros idx. rewrite Hel. lia.
  - intros idx Hidx. apply Hvotes. by rewrite Hn.
  - intros idx t Ht. apply routed_slab_once; [done|lia|done..].
Qed.

(** C10.  For a query on a grown forest, whatever [votes_required], no
    write [elected(n_elected++)] leaves the buffer of
    [n_trees * (n_samples / 2^depth + 1)] entries: the voting loop runs to
    its end and the number of elected points stays within that size.  A
    leaf of depth [d] holds at most the ceiling of [n_samples / 2^d] points,
    which is at most [n_samples / 2^d + 1], and the found leaves hold at
    most [n_trees] times as many points together. *)
Theorem query_elected_fits_buffer
    (n_trees_ depth_ : nat) (density_ : F) (g : Draws F) :
  growable X_cols depth_ →
  ∃ f, grow Mrpt_new n_trees_ depth_ density_ g = Some f
    ∧ (∀ s, s ∈ count_leaf_sizes depth_ X_cols [] →
         s * 2 ^ depth_ + 1 ≤ X_cols + 2 ^ depth_
         ∧ s ≤ X_cols / 2 ^ depth_ + 1)
    ∧ ∀ (q : query_vec) (votes_required : Z),
        ∃ found votes elected,
          found_leaves_of f q = Some found
          ∧ count_votes f found votes_required = Some (votes, elected)
          ∧ NoDup elected
          ∧ length elected ≤ length (routed f found)
          ∧ length (routed f found) ≤ n_trees_ * (X_cols / 2 ^ depth_ + 1).
Proof.
  intros Hgrow.
  destruct (grow_ok n_trees_ depth_ density_ g Hgrow)
    as (f & Hrun & Hwf & Hn & _ & Hnt & Hd & _ & _ & _ & _ & _).
  exists f. split; [done|]. split.
  { intros s Hs. split; [by apply count_leaf_sizes_ceil|by apply count_leaf_sizes_max]. }
  intros q votes_required.
  destruct (found_leaves_ok f q Hwf) as (found & Hfound & Hlen & Hleaf).
  destruct (count_votes_ok f found votes_required Hwf Hleaf Hlen)
    as (votes & elected & Hcount & (Hvl & Hvotes & Hnd & Hel & Hsz) & Hcross & Hcap).
  cbn [fst snd] in *.
  exists found, votes, elected. split_and!; [done..|].
  pose proof (length_routed f found (seq 0 (n_trees f)) Hwf Hleaf Hlen
                ltac:(by intros t [_ Ht]%elem_of_seq)) as Hr.
  change (mjoin _) with (routed f found) in Hr.
  rewrite length_seq, Hn, Hnt, Hd in Hr. exact Hr.
Qed.

End QueryTheorems.

(** ** [exact_knn] *)

Section ExactKnn.
Context {F : Type} `{ScalarLaws F} `{!StdAlgo} `{!StdAlgoLaws} `{!Linalg F}.

Lemma minCoeff_from_spec (l pre : list F) best_pos best :
  pre !! best_pos = Some best →
  (∀ v, v ∈ pre → fle best v = true) →
  ∃ v, (pre ++ l) !! minCoeff_from best_pos best (length pre) l = Some v
       ∧ ∀ v', v' ∈ pre ++ l → fle v v' = true.
Proof.
  revert pre best_pos best. induction l as [|y l IH]; intros pre best_pos best Hb Hmin.
  - exists best. rewrite app_nil_r. done.
  - cbn [minCoeff_from]. destruct (flt y best) eqn:Hlt.
    + specialize (IH (pre ++ [y]) (length pre) y).
      rewrite length_app in IH. cbn [length] in IH.
      replace (length pre + 1) with (S (length pre)) in IH by lia.
      rewrite <- app_assoc in IH. apply IH.
      * by rewrite lookup_app_r, Nat.sub_diag.
      * intros v [Hv| ->%list_elem_of_singleton]%elem_of_app; [|apply fle_refl].
        eapply fle_trans; [by apply flt_true_fle|by apply Hmin].
    + specialize (IH (pre ++ [y]) best_pos best).
      rewrite length_app in IH. cbn [length] in IH.
      replace (length pre + 1) with (S (length pre)) in IH by lia.
      rewrite <- app_assoc in IH. apply IH.
      * rewrite lookup_app_l; [done|]. by eapply lookup_lt_Some.
      * intros v [Hv| ->%list_elem_of_singleton]%elem_of_app; [by apply Hmin|].
        by apply flt_false_fle.
Qed.

Lemma minCoeff_spec (l : list F) :
  l ≠ [] →
  ∃ v, l !! minCoeff l = Some v ∧ ∀ v', v' ∈ l → fle v v' = true.
Proof.
  destruct l as [|y l]; [done|]. intros _. cbn [minCoeff].
  destruct (minCoeff_from_spec l [y] 0 y) as (v & Hv & Hmin); [done| |by exists v].
  intros v ->%list_elem_of_singleton. apply fle_refl.
Qed.

(** The positions of the candidates with position [p] moved to the front. *)
Lemma front_permutation (p m : nat) :
  p < m → p :: filter (λ i, i ≠ p) (seq 0 m) ≡ₚ seq 0 m.
Proof.
  intros Hp. apply NoDup_Permutation.
  - constructor.
    + rewrite list_elem_of_filter. intros [? _]. done.
    + apply list.NoDup_filter, NoDup_seq.
  - apply NoDup_seq.
  - intros i. rewrite elem_of_cons, list_elem_of_filter, !elem_of_seq.
    destruct (decide (i = p)); lia.
Qed.

Lemma knn_result_dists (q : query_vec) k indices out dists idx :
  length out = k → length dists = k → idx ≡ₚ seq 0 (length indices) →
  (∀ i, i < k `min` length indices →
     ∃ p c, idx !! i = Some p ∧ indices !! p = Some c
            ∧ out !! i = Some (Z.of_nat c)
            ∧ dists !! i = Some (fsqrt (squared_dist c q))) →
  (∀ i j p p' c c', i < k `min` length indices → i ≤ j →
     idx !! i = Some p → idx !! j = Some p' →
     indices !! p = Some c → indices !! p' = Some c' →
     fle (squared_dist c q) (squared_dist c' q) = true) →
  (∀ i, k `min` length indices ≤ i → i < k →
     out !! i = Some (-1)%Z ∧ dists !! i = Some fneg1) →
  knn_result q k indices out dists idx.
Proof.
  intros Hout Hd Hperm Hfirst Hsorted Hpad. unfold knn_result.
  split_and!; [done..| |done].
  intros i j d d' Hij Hj Hi' Hj'.
  destruct (Hfirst i ltac:(lia)) as (p & c & Hp & Hc & _ & Hdi).
  destruct (Hfirst j Hj) as (p' & c' & Hp' & Hc' & _ & Hdj).
  rewrite Hdi in Hi'. rewrite Hdj in Hj'. injection Hi' as <-. injection Hj' as <-.
  apply fsqrt_mono. by apply (Hsorted i j p p' c c'); [lia|..].
Qed.


Lemma mapM_total {A B} (f : A → option B) (g : A → B) (l : list A) :
  (∀ x, x ∈ l → f x = Some (g x)) → mapM f l = Some (g <$> l).
Proof.
  intros Hf. apply mapM_Some. apply Forall2_fmap_r, Forall_Forall2_diag.
  by apply list.Forall_forall.
Qed.

Lemma exact_knn_spec (q : query_vec) (k : Z) (indices : list nat) :
  (1 ≤ k)%Z →
  ∃ out dists idx,
    exact_knn q k indices = Some (out, dists)
    ∧ knn_result q (Z.to_nat k) indices out dists idx.
Proof.
  intros Hk. unfold exact_knn.
  set (m := length indices).
  set (distances := (λ i, squared_dist i q) <$> indices).
  assert (length distances = m) as Hdlen by (unfold distances; by rewrite length_fmap).
  assert (∀ p c, indices !! p = Some c → distances !! p = Some (squared_dist c q)) as Hdist.
  { intros p c Hp. unfold distances. by rewrite list_lookup_fmap, Hp. }
  destruct (Nat.eqb_spec m 0) as [Hm0|Hm0].
  { exists (replicate (Z.to_nat k) (-1)%Z), (replicate (Z.to_nat k) fneg1), [].
    split; [done|]. apply knn_result_dists.
    - by rewrite length_replicate.
    - by rewrite length_replicate.
    - fold m. by rewrite Hm0.
    - fold m. intros i Hi. lia.
    - fold m. intros i j p p' c c' Hi. lia.
    - intros i _ Hi. by rewrite !lookup_replicate_2. }
  destruct (Z.eqb_spec k 1) as [->|Hk1].
  { destruct (minCoeff_spec distances) as (v & Hv & Hmin).
    { intros Hnil. rewrite Hnil in Hdlen. simpl in Hdlen. lia. }
    pose proof (lookup_lt_Some _ _ _ Hv) as Hlt. rewrite Hdlen in Hlt.
    destruct (lookup_lt_is_Some_2 indices (minCoeff distances)) as [c Hc]; [done|].
    rewrite Hc. cbn [mbind option_bind]. rewrite Hv. cbn [mbind option_bind].
    pose proof (Hdist _ _ Hc) as Hv'. rewrite Hv in Hv'. injection Hv' as ->.
    exists [Z.of_nat c], [fsqrt (squared_dist c q)],
      (minCoeff distances :: filter (λ i, i ≠ minCoeff distances) (seq 0 m)).
    split; [done|]. apply knn_result_dists; fold m.
    - done.
    - done.
    - by apply front_permutation.
    - intros i Hi. assert (i = 0) as -> by lia.
      exists (minCoeff distances), c. done.
    - intros i j p p' c1 c2 Hi Hij Hp Hp' Hc1 Hc2.
      assert (i = 0) as -> by lia. injection Hp as <-.
      rewrite Hc in Hc1. injection Hc1 as <-.
      apply Hmin. apply (list_elem_of_lookup_2 _ p'). by apply Hdist.
    - intros i Hlo Hhi. lia. }
  rewrite option_guard_True by lia.
  set (K := Z.to_nat k).
  set (n_to_sort := if (k <? Z.of_nat m)%Z then K else m).
  assert (n_to_sort = K `min` m) as Hsort.
  { unfold n_to_sort. destruct (Z.ltb_spec k (Z.of_nat m)); lia. }
  set (key := distance_at distances).
  set (idx := partial_sort _ n_to_sort (seq 0 m)).
  assert (idx ≡ₚ seq 0 m) as Hperm by apply (partial_sort_perm key).
  assert (length idx = m) as Hilen.
  { rewrite (Permutation_length Hperm). apply length_seq. }
  assert (∀ i p, idx !! i = Some p → p < m) as Hrange.
  { intros i p Hp. apply list_elem_of_lookup_2 in Hp. rewrite Hperm in Hp.
    apply elem_of_seq in Hp. lia. }
  set (pos := λ i, default 0 (idx !! i)).
  set (cand := λ i, default 0 (indices !! pos i)).
  rewrite (mapM_total _ (λ i, if i <? m then Z.of_nat (cand i) else (-1)%Z)).
  2: { intros i _. destruct (Nat.ltb_spec i m) as [Hi|Hi]; [|done].
       unfold cand, pos.
       destruct (lookup_lt_is_Some_2 idx i) as [p Hp]; [lia|]. rewrite Hp.
       cbn [mbind option_bind default from_option id].
       destruct (lookup_lt_is_Some_2 indices p) as [c Hc]; [by eapply Hrange|].
       rewrite Hc. done. }
  cbn [mbind option_bind].
  rewrite (mapM_total _ (λ i, if i <? m then fsqrt (squared_dist (cand i) q) else fneg1)).
  2: { intros i _. destruct (Nat.ltb_spec i m) as [Hi|Hi]; [|done].
       unfold cand, pos.
       destruct (lookup_lt_is_Some_2 idx i) as [p Hp]; [lia|]. rewrite Hp.
       cbn [mbind option_bind default from_option id].
       destruct (lookup_lt_is_Some_2 indices p) as [c Hc]; [by eapply Hrange|].
       rewrite Hc. cbn [mbind option_bind default from_option id]. rewrite (Hdist _ _ Hc). done. }
  cbn [mbind option_bind].
  eexists _, _, idx. split; [reflexivity|]. apply knn_result_dists; fold m; fold K.
  - by rewrite length_fmap, length_seq.
  - by rewrite length_fmap, length_seq.
  - done.
  - intros i Hi.
    destruct (lookup_lt_is_Some_2 idx i) as [p Hp]; [lia|].
    destruct (lookup_lt_is_Some_2 indices p) as [c Hc]; [by eapply Hrange|].
    exists p, c. rewrite !list_lookup_fmap, !lookup_seq_lt by lia.
    cbn [fmap option_fmap option_map].
    destruct (Nat.ltb_spec (0 + i) m); [|lia].
    unfold cand, pos. cbn [Nat.add]. rewrite Hp. cbn [default from_option id]. rewrite Hc. done.
  - intros i j p p' c c' Hi Hij Hp Hp' Hc Hc'.
    pose proof (partial_sort_sorted key n_to_sort (seq 0 m) i j p p' ltac:(lia) Hij Hp Hp')
      as Hle.
    unfold key, distance_at in Hle. by rewrite (Hdist _ _ Hc), (Hdist _ _ Hc') in Hle.
  - intros i Hlo Hhi. rewrite !list_lookup_fmap, !lookup_seq_lt by lia.
    cbn [fmap option_fmap option_map].
    destruct (Nat.ltb_spec (0 + i) m); [lia|done].
Qed.


(** [exact_knn] also returns for [k = 0], without writing. *)
Lemma exact_knn_total (q : query_vec) (k : Z) (indices : list nat) :
  (0 ≤ k)%Z →
  ∃ out dists,
    exact_knn q k indices = Some (out, dists)
    ∧ length out = Z.to_nat k
    ∧ (∀ i, length indices ≤ i → i < Z.to_nat k → out !! i = Some (-1)%Z).
Proof.
  intros Hk. destruct (decide (k = 0%Z)) as [->|Hne].
  - exists [], []. split; [|split; [done|intros i _ Hi; simpl in Hi; lia]].
    unfold exact_knn. destruct (length indices =? 0); done.
  - destruct (exact_knn_spec q k indices ltac:(lia))
      as (out & dists & idx & Hrun & Hout & _ & _ & _ & _ & _ & Hpad).
    exists out, dists. split_and!; [done..|].
    intros i Hlo Hhi. apply Hpad; lia.
Qed.

Lemma exact_knn_empty (q : query_vec) (k : Z) :
  exact_knn q k [] = Some (replicate (Z.to_nat k) (-1)%Z, replicate (Z.to_nat k) fneg1).
Proof. done. Qed.

(** C4.  [exact_knn] with [k >= 1] on [m] candidates returns; there is an
    order [idx] of the candidate positions such that the first [min(k, m)]
    slots of [out] are the candidates at [idx[0]], [idx[1]], ..., these are
    in non-decreasing squared distance to the query and none of them is
    farther than a candidate left out; [out_distances] holds the square
    roots of these squared distances, non-decreasing; every slot from
    [min(k, m)] on holds -1 in both buffers. *)
Theorem exact_knn_sorted_closest_padded (q : query_vec) (k : Z) (indices : list nat) :
  (1 ≤ k)%Z →
  ∃ out dists idx,
    exact_knn q k indices = Some (out, dists)
    ∧ knn_result q (Z.to_nat k) indices out dists idx.
Proof. apply exact_knn_spec. Qed.

End ExactKnn.

(** ** Persistence *)

Section Readers.
Context {F : Type}.

Lemma read_many_app {A} (rd : list (cell F) → option (A * list (cell F)))
    (enc : A → list (cell F)) (l : list A) :
  (∀ x rest, rd (enc x ++ rest) = Some (x, rest)) →
  ∀ rest, read_many rd (length l) (mjoin (enc <$> l) ++ rest) = Some (l, rest).
Proof.
  intros Hrd. induction l as [|x l IH]; intros rest; [done|].
  rewrite fmap_cons, mjoin_cons, <- app_assoc. cbn [length read_many].
  rewrite Hrd. cbn [mbind option_bind fst snd]. rewrite IH. done.
Qed.

Lemma mjoin_singletons {A B} (g : A → B) (l : list A) :
  mjoin ((λ x, [g x]) <$> l) = g <$> l.
Proof. induction l as [|x l IH]; [done|]. rewrite !fmap_cons, mjoin_cons, IH. done. Qed.

Lemma read_floats (l : list F) rest :
  read_many read_float (length l) ((CFloat <$> l) ++ rest) = Some (l, rest).
Proof.
  rewrite <- (mjoin_singletons CFloat).
  by apply (read_many_app read_float (λ x, [CFloat x])).
Qed.

Lemma read_int_of_nat (n : nat) (rest : list (cell F)) :
  read_int (CInt (Z.of_nat n) :: rest) = Some (n, rest).
Proof.
  unfold read_int. destruct (Z.leb_spec 0 (Z.of_nat n)); [|lia].
  by rewrite Nat2Z.id.
Qed.

Lemma read_ints (l : list nat) (rest : list (cell F)) :
  read_many read_int (length l) (((λ i, CInt (Z.of_nat i)) <$> l) ++ rest) = Some (l, rest).
Proof.
  rewrite <- (mjoin_singletons (λ i, CInt (Z.of_nat i))).
  apply (read_many_app read_int (λ i, [CInt (Z.of_nat i)])).
  intros x r. apply read_int_of_nat.
Qed.

Lemma read_leaves_cells (leaves : list nat) (rest : list (cell F)) :
  read_leaves (leaves_cells leaves ++ rest) = Some (leaves, rest).
Proof.
  unfold read_leaves, leaves_cells. rewrite <- app_comm_cons, read_int_of_nat.
  cbn [mbind option_bind fst snd]. apply read_ints.
Qed.

Lemma read_triplet_cells (t : triplet F) (rest : list (cell F)) :
  read_triplet (triplet_cells t ++ rest) = Some (t, rest).
Proof.
  unfold read_triplet, triplet_cells. destruct t as [[r c] v].
  cbn [fst snd app]. rewrite read_int_of_nat. cbn [mbind option_bind fst snd].
  rewrite read_int_of_nat. done.
Qed.

Lemma reshape_mjoin {A} (ls : list (list A)) n m :
  length ls = n → (∀ l, l ∈ ls → length l = m) →
  reshape (replicate n m) (mjoin ls) = ls.
Proof.
  revert n. induction ls as [|l ls IH]; intros n Hn Hm.
  - by subst n.
  - subst n. cbn [length replicate reshape]. rewrite mjoin_cons.
    rewrite <- (Hm l) by left.
    rewrite take_app_length, drop_app_length. f_equal.
    rewrite (Hm l) by left. apply IH; [done|]. intros l' Hl'. apply Hm. by right.
Qed.

Lemma length_mjoin_uniform {A} (ls : list (list A)) m :
  (∀ l, l ∈ ls → length l = m) → length (mjoin ls) = length ls * m.
Proof.
  induction ls as [|l ls IH]; intros Hm; [done|].
  rewrite mjoin_cons, length_app, IH, (Hm l) by (try left; intros; apply Hm; by right).
  simpl. lia.
Qed.

End Readers.

Section SparseRoundTrip.
Context {F : Type} `{Scalar F}.

Lemma triplets_sorted_app_before (m : list (triplet F)) x y :
  triplets_sorted (y :: m ++ [x]) = true → triplet_before y x = true.
Proof.
  revert y. induction m as [|z m IH]; intros y Hs.
  - simpl in Hs. by apply andb_true_iff in Hs as [Hs _].
  - rewrite <- app_comm_cons, triplets_sorted_cons in Hs.
    apply andb_true_iff in Hs as [Hyz Hs].
    eapply triplet_before_trans; [exact Hyz|]. by apply IH.
Qed.

Lemma triplets_sorted_tail (y : triplet F) m :
  triplets_sorted (y :: m) = true → triplets_sorted m = true.
Proof.
  destruct m as [|z m]; [done|]. rewrite triplets_sorted_cons.
  by intros [_ ?]%andb_true_iff.
Qed.

Lemma insert_triplet_last (m : list (triplet F)) x :
  triplets_sorted (m ++ [x]) = true → insert_triplet x m = m ++ [x].
Proof.
  induction m as [|y m IH]; intros Hs; [done|].
  rewrite <- app_comm_cons in Hs. cbn [insert_triplet].
  pose proof (triplets_sorted_app_before m x y Hs) as Hyx.
  destruct (triplet_before_asym y x Hyx) as [-> ->].
  rewrite <- app_comm_cons. f_equal. apply IH. by eapply triplets_sorted_tail.
Qed.

Lemma triplets_sorted_prefix (m1 m2 : list (triplet F)) :
  triplets_sorted (m1 ++ m2) = true → triplets_sorted m1 = true.
Proof.
  induction m1 as [|y m1 IH]; intros Hs; [done|].
  destruct m1 as [|z m1]; [done|].
  rewrite <- !app_comm_cons, triplets_sorted_cons in Hs.
  apply andb_true_iff in Hs as [Hyz Hs].
  rewrite triplets_sorted_cons, Hyz. by apply IH.
Qed.

(** Entries that are already in storage order are stored as they are. *)
Lemma setFromTriplets_sorted_id (m : list (triplet F)) :
  triplets_sorted m = true → setFromTriplets m = m.
Proof.
  unfold setFromTriplets.
  assert (∀ ts acc, triplets_sorted (acc ++ ts) = true →
            foldl (λ m x, insert_triplet x m) acc ts = acc ++ ts) as Hgen.
  { induction ts as [|x ts IH]; intros acc Hs; [by rewrite app_nil_r|].
    cbn [foldl]. rewrite insert_triplet_last.
    - rewrite IH; rewrite <- app_assoc; done.
    - apply (triplets_sorted_prefix _ ts). by rewrite <- app_assoc. }
  intros Hs. by apply (Hgen m []).
Qed.

End SparseRoundTrip.

Section RoundTrip.
Context {F : Type} `{ScalarLaws F} `{!StdAlgo} `{!StdAlgoLaws} `{!Linalg F}.

Lemma mapM_lookup_all {A} (l : list A) :
  mapM (λ i, l !! i) (seq 0 (length l)) = Some l.
Proof.
  apply mapM_Some. apply Forall2_same_length_lookup. split.
  - by rewrite length_seq.
  - intros i x y Hx Hy. apply lookup_seq in Hx as [-> _]. done.
Qed.

Lemma lookup_count_first_leaf_indices_all_is_Some (old : list (list nat)) n d :
  is_Some (count_first_leaf_indices_all old n d !! d).
Proof.
  apply lookup_lt_is_Some_2. unfold count_first_leaf_indices_all.
  rewrite length_app, length_fmap, length_seq. lia.
Qed.

(** [load] reads back what [save] wrote of a well-formed forest. *)
Lemma load_save (f this : Mrpt F) :
  well_formed f → dim this = dim f →
  ∃ fd lfi,
    save f = Some fd
    ∧ count_first_leaf_indices_all (leaf_first_indices_all this) (n_samples this)
        (depth f) !! depth f = Some lfi
    ∧ load this fd = Some {|
        n_samples := n_samples this; dim := dim this;
        n_trees := n_trees f; depth := depth f; density := density f;
        n_pool := n_pool f; n_array := n_array f; votes := votes this;
        split_points := split_points f; tree_leaves := tree_leaves f;
        dense_random_matrix :=
          (if flt (density f) fone then dense_random_matrix this
           else dense_random_matrix f);
        sparse_random_matrix :=
          (if flt (density f) fone then sparse_random_matrix f
           else sparse_random_matrix this);
        leaf_first_indices_all :=
          count_first_leaf_indices_all (leaf_first_indices_all this) (n_samples this)
            (depth f);
        leaf_first_indices := lfi;
        k := k this; recall_level := recall_level this;
        optimal_parameters := optimal_parameters this; opt_pars := opt_pars this;
        pars := pars this;
      |}.
Proof.
  intros Hwf Hdim.
  destruct (lookup_count_first_leaf_indices_all_is_Some (leaf_first_indices_all this)
              (n_samples this) (depth f)) as [lfi Hlfi].
  pose proof (wf_n_pool f Hwf) as Hpool. pose proof (wf_n_array f Hwf) as Harr.
  pose proof (wf_leaves_length f Hwf) as Htl. pose proof (wf_split_length f Hwf) as Hspl.
  pose proof (length_mjoin_uniform (split_points f) (n_array f) (wf_split_cols f Hwf)) as Hsp.
  rewrite Hspl in Hsp.
  assert (take (n_array f * n_trees f) (mjoin (split_points f)) = mjoin (split_points f))
    as Htake by (apply take_ge; lia).
  assert (mapM (λ i, tree_leaves f !! i) (seq 0 (n_trees f)) = Some (tree_leaves f)) as Hmap.
  { rewrite <- Htl. apply mapM_lookup_all. }
  assert (∀ rest : list (cell F), read_many read_leaves (n_trees f)
            (mjoin (leaves_cells <$> tree_leaves f) ++ rest) = Some (tree_leaves f, rest))
    as Hrl.
  { intros rest. rewrite <- Htl.
    apply (read_many_app read_leaves leaves_cells), read_leaves_cells. }
  unfold save. rewrite option_guard_True by lia.
  rewrite Hmap. cbn [mbind option_bind]. rewrite Htake.
  destruct (flt (density f) fone) eqn:Hsparse.
  - cbn [mbind option_bind]. eexists _, lfi. split; [reflexivity|]. split; [done|].
    unfold load. cbn [app]. rewrite read_int_of_nat. cbn [mbind option_bind fst snd].
    rewrite read_int_of_nat. cbn [mbind option_bind fst snd read_float]. cbv zeta.
    rewrite Hlfi. cbn [mbind option_bind]. rewrite Hsparse.
    replace (2 ^ (depth f + 1) * n_trees f) with (length (mjoin (split_points f))) by lia.
    rewrite read_floats. cbn [mbind option_bind fst snd].
    rewrite Hrl.
    cbn [mbind option_bind fst snd]. rewrite read_int_of_nat.
    cbn [mbind option_bind fst snd].
    rewrite <- (app_nil_r (mjoin (triplet_cells <$> sparse_random_matrix f))).
    rewrite (read_many_app read_triplet triplet_cells) by apply read_triplet_cells.
    cbn [mbind option_bind fst snd].
    rewrite setFromTriplets_sorted_id by (by apply (wf_sparse f Hwf)).
    rewrite reshape_mjoin; [|done|].
    2: { intros col Hcol. rewrite <- Harr. by apply (wf_split_cols f Hwf). }
    by rewrite <- Harr, <- Hpool.
  - destruct (wf_dense f Hwf Hsparse) as [Hrows Hcols].
    pose proof (length_mjoin_uniform (dense_random_matrix f) (dim f) Hcols) as Hdm.
    rewrite Hrows in Hdm.
    rewrite option_guard_True by lia.
    assert (take (n_pool f * dim f) (mjoin (dense_random_matrix f))
            = mjoin (dense_random_matrix f)) as Htake' by (apply take_ge; lia).
    rewrite Htake'. cbn [mbind option_bind].
    eexists _, lfi. split; [reflexivity|]. split; [done|].
    unfold load. cbn [app]. rewrite read_int_of_nat. cbn [mbind option_bind fst snd].
    rewrite read_int_of_nat. cbn [mbind option_bind fst snd read_float]. cbv zeta.
    rewrite Hlfi. cbn [mbind option_bind]. rewrite Hsparse.
    replace (2 ^ (depth f + 1) * n_trees f) with (length (mjoin (split_points f))) by lia.
    rewrite read_floats. cbn [mbind option_bind fst snd].
    rewrite Hrl.
    cbn [mbind option_bind fst snd].
    rewrite <- (app_nil_r (CFloat <$> mjoin (dense_random_matrix f))).
    replace (n_trees f * depth f * dim this) with (length (mjoin (dense_random_matrix f)))
      by (rewrite Hdm, Hpool, Hdim; done).
    rewrite read_floats. cbn [mbind option_bind fst snd].
    rewrite reshape_mjoin; [|done|].
    2: { intros col Hcol. rewrite <- Harr. by apply (wf_split_cols f Hwf). }
    rewrite reshape_mjoin; [|lia|].
    2: { intros row Hrow. rewrite Hdim. by apply Hcols. }
    by rewrite <- Harr, <- Hpool.
Qed.


(** The members that [grow] does not compute keep their value. *)
Lemma grow_fields (this f : Mrpt F) n_trees_ depth_ density_ (g : Draws F) :
  grow this n_trees_ depth_ density_ g = Some f →
  n_samples f = n_samples this ∧ dim f = dim this
  ∧ votes f = votes this ∧ k f = k this ∧ recall_level f = recall_level this
  ∧ optimal_parameters f = optimal_parameters this
  ∧ opt_pars f = opt_pars this ∧ pars f = pars this
  ∧ leaf_first_indices_all f
    = count_first_leaf_indices_all (leaf_first_indices_all this) (n_samples this) depth_
  ∧ (flt density_ fone = true → dense_random_matrix f = dense_random_matrix this)
  ∧ (flt density_ fone = false → sparse_random_matrix f = sparse_random_matrix this).
Proof.
  unfold grow. intros Hrun.
  destruct (_ !! depth_) as [lfi|]; [|done]. cbn [mbind option_bind] in Hrun.
  destruct (mapM _ _) as [trees|]; [|done]. cbn [mbind option_bind] in Hrun.
  injection Hrun as <-. cbn. split_and!; try done; by intros ->.
Qed.

(** C5.  A forest grown on a new index and saved is restored by [load] on
    a new index over the same data: the loaded index equals the saved one
    member by member (so [n_trees], [depth], [density], [split_points],
    the leaf vectors and the projection matrix, dense or sparse, are those
    that were saved), and every query gives the same result on both. *)
Theorem save_load_round_trip (n_trees_ depth_ : nat) (density_ : F) (g : Draws F) :
  growable X_cols depth_ →
  ∃ f fd f',
    grow Mrpt_new n_trees_ depth_ density_ g = Some f
    ∧ save f = Some fd
    ∧ load Mrpt_new fd = Some f'
    ∧ f' = f
    ∧ n_trees f' = n_trees f ∧ depth f' = depth f ∧ density f' = density f
    ∧ split_points f' = split_points f
    ∧ tree_leaves f' = tree_leaves f
    ∧ dense_random_matrix f' = dense_random_matrix f
    ∧ sparse_random_matrix f' = sparse_random_matrix f
    ∧ ∀ (q : query_vec) (k_ votes_required : Z),
        query f' q k_ votes_required = query f q k_ votes_required.
Proof.
  intros Hgrow.
  destruct (grow_ok n_trees_ depth_ density_ g Hgrow)
    as (f & Hrun & Hwf & Hn & Hdim & Hnt & Hd & Hdens & _).
  destruct (grow_fields Mrpt_new f _ _ _ _ Hrun)
    as (_ & _ & Hv & Hk & Hrl & Hop & Hopt & Hpars & Hlfia & Hdense & Hsparse).
  destruct (load_save f Mrpt_new Hwf ltac:(by rewrite Hdim)) as (fd & lfi & Hsave & Hlfi & Hload).
  assert (lfi = leaf_first_indices f) as ->.
  { cbn [leaf_first_indices_all n_samples Mrpt_new] in Hlfi.
    rewrite Hd, lookup_count_first_leaf_indices_all in Hlfi by done.
    injection Hlfi as <-. by rewrite (wf_lfi f Hwf), Hn, Hd. }
  eexists f, fd, _. split; [done|]. split; [done|]. split; [exact Hload|].
  match goal with |- ?x = f ∧ _ => assert (x = f) as -> end; [|done].
  destruct f. cbn in *. subst.
  destruct (flt density_ fone); [rewrite Hdense|rewrite Hsparse]; done.
Qed.

End RoundTrip.

(** ** The ordered set of parameters *)

Lemma Qltb_lt (a b : Q) : Qltb a b = true ↔ (a < b)%Q.
Proof.
  unfold Qltb. rewrite negb_true_iff. split.
  - intros Hle. apply Qnot_le_lt. intros Hba. apply Qle_bool_iff in Hba. congruence.
  - intros Hlt. destruct (Qle_bool b a) eqn:Hle; [|done].
    apply Qle_bool_iff in Hle. by apply Qlt_not_le in Hlt.
Qed.

Lemma Qltb_nlt (a b : Q) : Qltb a b = false ↔ ¬ (a < b)%Q.
Proof. rewrite <- Qltb_lt. by destruct (Qltb a b). Qed.

Lemma is_faster_faster a b : is_faster a b = true ↔ faster a b.
Proof. apply Qltb_lt. Qed.

Lemma faster_trans a b c : faster a b → faster b c → faster a c.
Proof. unfold faster. apply Qlt_trans. Qed.

Lemma faster_asym a b : faster a b → is_faster b a = false.
Proof.
  unfold faster. intros Hab. apply Qltb_nlt. intros Hba.
  apply (Qlt_irrefl (Parameters.estimated_qtime a)). by eapply Qlt_trans.
Qed.

Lemma set_insert_elem par s p : p ∈ set_insert par s → p = par ∨ p ∈ s.
Proof.
  induction s as [|y s IH]; cbn [set_insert].
  - intros ->%list_elem_of_singleton. by left.
  - destruct (is_faster par y); [|destruct (is_faster y par)].
    + intros [->|Hp]%elem_of_cons; [by left|by right].
    + intros [->|Hp]%elem_of_cons; [right; left|].
      destruct (IH Hp) as [->|?]; [by left|right; by right].
    + by right.
Qed.

Lemma set_insert_keeps par s p : p ∈ s → p ∈ set_insert par s.
Proof.
  induction s as [|y s IH]; cbn [set_insert]; [by intros ?%elem_of_nil|].
  destruct (is_faster par y); [|destruct (is_faster y par)].
  - by right.
  - intros [->|Hp]%elem_of_cons; [left|right; by apply IH].
  - done.
Qed.

(** An inserted record is in the set, or a record with the same estimated
    time was there before. *)
Lemma set_insert_time par s :
  ∃ p, p ∈ set_insert par s
       ∧ (Parameters.estimated_qtime p == Parameters.estimated_qtime par)%Q.
Proof.
  induction s as [|y s IH]; cbn [set_insert].
  - exists par. split; [left|reflexivity].
  - destruct (is_faster par y) eqn:Hpy; [|destruct (is_faster y par) eqn:Hyp].
    + exists par. split; [left|reflexivity].
    + destruct IH as (p & Hp & Heq). exists p. split; [by right|done].
    + exists y. split; [left|].
      apply Qltb_nlt in Hpy, Hyp. apply Qle_antisym; by apply Qnot_lt_le.
Qed.

Lemma set_insert_sorted par s :
  StronglySorted faster s → StronglySorted faster (set_insert par s).
Proof.
  induction 1 as [|y s Hs IH Hall]; cbn [set_insert].
  - repeat constructor.
  - destruct (is_faster par y) eqn:Hpy; [|destruct (is_faster y par) eqn:Hyp].
    + apply is_faster_faster in Hpy. constructor; [by constructor|].
      constructor; [done|]. eapply list.Forall_impl; [exact Hall|].
      intros z Hz. by eapply faster_trans.
    + constructor; [done|]. apply list.Forall_forall. intros z Hz.
      apply set_insert_elem in Hz as [->|Hz]; [by apply is_faster_faster|].
      by eapply (proj1 (list.Forall_forall _ _) Hall).
    + by constructor.
Qed.

Lemma set_insert_last par s :
  StronglySorted faster s → Forall (λ y, faster y par) s → set_insert par s = s ++ [par].
Proof.
  induction 1 as [|y s Hs IH Hall]; intros Hlt; [done|].
  apply list.Forall_cons in Hlt as [Hy Hlt]. cbn [set_insert].
  rewrite (faster_asym _ _ Hy), (proj2 (is_faster_faster _ _) Hy).
  rewrite <- app_comm_cons. f_equal. by apply IH.
Qed.

Lemma set_insert_nonempty par s : set_insert par s ≠ [].
Proof.
  destruct s as [|y s]; cbn [set_insert]; [done|].
  destruct (is_faster par y); [|destruct (is_faster y par)]; done.
Qed.

Lemma insert_all_sorted l : ∀ s,
  StronglySorted faster s → StronglySorted faster (insert_all l s).
Proof.
  induction l as [|x l IH]; intros s Hs; [done|].
  apply IH. by apply set_insert_sorted.
Qed.

Lemma insert_all_nonempty l s : l ≠ [] ∨ s ≠ [] → insert_all l s ≠ [].
Proof.
  revert s. induction l as [|x l IH]; intros s [Hl|Hs]; try done.
  - apply IH. right. apply set_insert_nonempty.
  - apply IH. right. apply set_insert_nonempty.
Qed.

Lemma insert_all_elem l : ∀ s p, p ∈ insert_all l s → p ∈ l ∨ p ∈ s.
Proof.
  induction l as [|x l IH]; intros s p Hp; [by right|].
  apply IH in Hp as [Hp|Hp]; [left; by right|].
  apply set_insert_elem in Hp as [->|Hp]; [left; left|by right].
Qed.

Lemma insert_all_keeps l : ∀ s p, p ∈ s → p ∈ insert_all l s.
Proof.
  induction l as [|x l IH]; intros s p Hp; [done|].
  apply IH. by apply set_insert_keeps.
Qed.

Lemma insert_all_time l : ∀ s c, c ∈ l →
  ∃ p, p ∈ insert_all l s
       ∧ (Parameters.estimated_qtime p == Parameters.estimated_qtime c)%Q.
Proof.
  induction l as [|x l IH]; intros s c Hc; [by apply not_elem_of_nil in Hc|].
  apply elem_of_cons in Hc as [->|Hc]; [|by apply IH].
  destruct (set_insert_time x s) as (p & Hp & Heq).
  exists p. split; [|done]. by apply (insert_all_keeps l (set_insert x s)).
Qed.

(** ** The frontier *)

Lemma frontier_elem best l p : p ∈ frontier best l → p ∈ l.
Proof.
  revert best. induction l as [|x l IH]; intros best; cbn [frontier]; [done|].
  destruct (Qltb best (Parameters.estimated_recall x)).
  - intros [->|Hp]%elem_of_cons; [left|right; by eapply IH].
  - intros Hp. right. by eapply IH.
Qed.

Lemma frontier_above best l :
  Forall (λ p, (best < Parameters.estimated_recall p)%Q) (frontier best l).
Proof.
  revert best. induction l as [|x l IH]; intros best; cbn [frontier]; [constructor|].
  destruct (Qltb best (Parameters.estimated_recall x)) eqn:Hlt; [|apply IH].
  apply Qltb_lt in Hlt. constructor; [done|].
  eapply list.Forall_impl; [apply IH|]. intros p Hp. by eapply Qlt_trans.
Qed.

Lemma frontier_sorted best l :
  StronglySorted faster l → StronglySorted dominated_step (frontier best l).
Proof.
  intros Hs. revert best. induction Hs as [|x l Hs IH Hall]; intros best; cbn [frontier].
  - constructor.
  - destruct (Qltb best (Parameters.estimated_recall x)); [|apply IH].
    constructor; [apply IH|].
    apply list.Forall_forall. intros p Hp. split.
    + apply (proj1 (list.Forall_forall _ _) Hall). by eapply frontier_elem.
    + by apply (proj1 (list.Forall_forall _ _) (frontier_above _ l)).
Qed.

(** The loop of [fit_times] builds the frontier of a set in order. *)
Lemma pareto_loop rest : ∀ opt best,
  StronglySorted faster opt → StronglySorted faster rest →
  (∀ o p, o ∈ opt → p ∈ rest → faster o p) →
  (foldl pareto_step (opt, best) rest).1 = opt ++ frontier best rest.
Proof.
  induction rest as [|p rest IH]; intros opt best Hopt Hrest Hlt.
  - by rewrite app_nil_r.
  - apply StronglySorted_inv in Hrest as [Hrest Hall].
    cbn [foldl frontier]. unfold pareto_step at 2. cbn [fst snd].
    destruct (Qltb best (Parameters.estimated_recall p)).
    + rewrite set_insert_last; [|done|].
      2: { apply list.Forall_forall. intros o Ho. apply Hlt; [done|left]. }
      assert (StronglySorted faster (opt ++ [p])) as Hopt'.
      { apply StronglySorted_app_2; [|done|repeat constructor].
        intros o p' Ho ->%list_elem_of_singleton. apply Hlt; [done|left]. }
      assert (∀ o p', o ∈ opt ++ [p] → p' ∈ rest → faster o p') as Hlt'.
      { intros o p' [Ho| ->%list_elem_of_singleton]%elem_of_app Hp'.
        - apply Hlt; [done|by right].
        - by apply (proj1 (list.Forall_forall _ _) Hall). }
      rewrite (IH _ _ Hopt' Hrest Hlt'). by rewrite <- app_assoc.
    + apply IH; [done..|]. intros o p' Ho Hp'. apply Hlt; [done|by right].
Qed.

Lemma find_first {A} (P : A → bool) (l : list A) :
  match find P l with
  | Some x => ∃ l1 l2, l = l1 ++ x :: l2 ∧ Forall (λ y, P y = false) l1 ∧ P x = true
  | None => Forall (λ y, P y = false) l
  end.
Proof.
  induction l as [|a l IH]; cbn [find]; [constructor|].
  destruct (P a) eqn:Ha.
  - exists [], l. split_and!; [done|constructor|done].
  - destruct (find P l) as [x|].
    + destruct IH as (l1 & l2 & -> & Hl1 & Hx).
      exists (a :: l1), l2. split_and!; [done|by constructor|done].
    + by constructor.
Qed.

Section Tuner.
Context {F : Type} `{Scalar F} `{!StdAlgo} `{!Linalg F}.

(** C6.  [get_optimal_parameters] returns the first record of [opt_pars],
    in the order of the set, whose estimated recall strictly exceeds
    [target_recall - 1e-4]; where the set is in ascending order of
    estimated query time, every other record that exceeds the threshold has
    a greater estimated query time.  If no record exceeds the threshold it
    returns a default-constructed record, whose [n_trees] is 0. *)
Theorem get_optimal_parameters_first_above_target (this : Mrpt F) (target_recall : Q) :
  (∃ l1 par l2,
      opt_pars this = l1 ++ par :: l2
      ∧ infeasible l1 target_recall
      ∧ (target_recall - (1 # 10000) < Parameters.estimated_recall par)%Q
      ∧ get_optimal_parameters this target_recall = par
      ∧ (StronglySorted faster (opt_pars this) →
         ∀ p, p ∈ opt_pars this →
           (target_recall - (1 # 10000) < Parameters.estimated_recall p)%Q →
           p = par ∨ faster par p))
  ∨ (infeasible (opt_pars this) target_recall
     ∧ get_optimal_parameters this target_recall = Parameters.empty
     ∧ Parameters.n_trees (get_optimal_parameters this target_recall) = 0).
Proof.
  unfold get_optimal_parameters.
  pose proof (find_first
    (λ par, Qltb (target_recall - (1 # 10000)) (Parameters.estimated_recall par))
    (opt_pars this)) as Hfind.
  destruct (find _ (opt_pars this)) as [par|].
  - left. destruct Hfind as (l1 & l2 & Heq & Hl1 & Hpar).
    exists l1, par, l2. apply Qltb_lt in Hpar. split_and!; [done| |done|done|].
    + intros p Hp. apply Qltb_nlt.
      by apply (proj1 (list.Forall_forall _ _) Hl1).
    + rewrite Heq. intros Hs p Hp Habove.
      apply StronglySorted_app in Hs as (Hcross & _ & Hs).
      apply StronglySorted_inv in Hs as [_ Hall].
      apply elem_of_app in Hp as [Hp|[->|Hp]%elem_of_cons].
      * apply (proj1 (list.Forall_forall _ _) Hl1), Qltb_nlt in Hp. done.
      * by left.
      * right. by apply (proj1 (list.Forall_forall _ _) Hall).
  - right. split_and!; [|done..].
    intros p Hp. apply Qltb_nlt. by apply (proj1 (list.Forall_forall _ _) Hfind).
Qed.

Lemma candidate_first (gq gr : nat → nat → nat → Q) n_trees_ depth_min depth_ votes_max :
  1 ≤ n_trees_ → 1 ≤ votes_max → depth_min ≤ depth_ →
  Parameters.mk 1 depth_min 1 (gq 1 depth_min 1) (gr 1 depth_min 1)
  ∈ candidate_pars gq gr n_trees_ depth_min depth_ votes_max.
Proof.
  intros Ht Hv Hd. unfold candidate_pars.
  apply list_elem_of_bind. exists depth_min. split; [|apply elem_of_seq; lia].
  apply list_elem_of_bind. exists 1. split; [|apply elem_of_seq; lia].
  apply list_elem_of_bind. exists 1. split; [apply list_elem_of_singleton; done|].
  destruct (Nat.ltb_spec votes_max 1); [lia|]. apply elem_of_seq. lia.
Qed.

Lemma fit_times_spec
    (get_query_time get_recall : nat → nat → nat → Q) (idx_sum_gt_1 : bool)
    (depth_min votes_max : nat) (this : Mrpt F) :
  1 ≤ n_trees this → 1 ≤ votes_max → depth_min ≤ depth this →
  ∃ f, fit_times get_query_time get_recall idx_sum_gt_1 depth_min votes_max this = Some f
    ∧ StronglySorted dominated_step (opt_pars f)
    ∧ StronglySorted faster (pars f)
    ∧ opt_pars f = frontier (-1) (pars f)
    ∧ (∀ c, c ∈ candidate_pars get_query_time get_recall (n_trees this) depth_min
                  (depth this) votes_max →
         ∃ p, p ∈ pars f
              ∧ (Parameters.estimated_qtime p == Parameters.estimated_qtime c)%Q)
    ∧ (∀ p, p ∈ pars f →
         ∃ c, c ∈ candidate_pars get_query_time get_recall (n_trees this) depth_min
                    (depth this) votes_max
              ∧ Parameters.n_trees p = Parameters.n_trees c
              ∧ Parameters.depth p = Parameters.depth c
              ∧ Parameters.votes p = Parameters.votes c
              ∧ Parameters.estimated_qtime p = Parameters.estimated_qtime c).
Proof.
  intros Ht Hv Hd. unfold fit_times.
  set (cands := candidate_pars _ _ _ _ _ _).
  pose proof (candidate_first get_query_time get_recall _ _ _ _ Ht Hv Hd) as Hc0.
  fold cands in Hc0.
  assert (StronglySorted faster (insert_all cands [])) as Hs0.
  { apply insert_all_sorted. constructor. }
  destruct (insert_all cands []) as [|p0 s0] eqn:Hpars0.
  { exfalso. apply (insert_all_nonempty cands []); [|done].
    left. intros Hnil. rewrite Hnil in Hc0. by apply not_elem_of_nil in Hc0. }
  cbn [perturb_first mbind option_bind].
  set (p0' := Parameters.mk _ _ _ _ _).
  assert (StronglySorted faster (p0' :: s0)) as Hs.
  { apply StronglySorted_inv in Hs0 as [Hs0 Hall]. by constructor. }
  eexists. split; [reflexivity|].
  cbn [opt_pars pars].
  rewrite (pareto_loop (p0' :: s0) [] (-1)%Q); [|constructor|done|].
  2: { intros o p Ho. by apply not_elem_of_nil in Ho. }
  rewrite app_nil_l. split_and!; [by apply frontier_sorted|done|done| |].
  - intros c Hc.
    destruct (insert_all_time cands [] c Hc) as (p & Hp & Heq).
    rewrite Hpars0 in Hp. apply elem_of_cons in Hp as [->|Hp].
    + exists p0'. split; [left|done].
    + exists p. split; [by right|done].
  - intros p [->|Hp]%elem_of_cons.
    + assert (p0 ∈ insert_all cands []) as Hp0 by (rewrite Hpars0; left).
      apply insert_all_elem in Hp0 as [Hp0|Hp0]; [|by apply not_elem_of_nil in Hp0].
      exists p0. done.
    + assert (p ∈ insert_all cands []) as Hp0 by (rewrite Hpars0; by right).
      apply insert_all_elem in Hp0 as [Hp0|Hp0]; [|by apply not_elem_of_nil in Hp0].
      exists p. done.
Qed.


(** C8.  After [fit_times], the estimated query time and the estimated
    recall both strictly increase along [opt_pars], and [opt_pars] is the
    list of the records accepted when [pars], the set of the candidates,
    is traversed in its order of ascending estimated query time and a
    record is kept only if its estimated recall strictly exceeds the best
    recall seen so far (-1 at the start).  [pars] holds one record for each
    estimated time of a candidate of the three loops. *)
Theorem fit_times_frontier_strictly_increasing
    (get_query_time get_recall : nat → nat → nat → Q) (idx_sum_gt_1 : bool)
    (depth_min votes_max : nat) (this : Mrpt F) :
  1 ≤ n_trees this → 1 ≤ votes_max → depth_min ≤ depth this →
  ∃ f, fit_times get_query_time get_recall idx_sum_gt_1 depth_min votes_max this = Some f
    ∧ StronglySorted dominated_step (opt_pars f)
    ∧ StronglySorted faster (pars f)
    ∧ opt_pars f = frontier (-1) (pars f)
    ∧ (∀ c, c ∈ candidate_pars get_query_time get_recall (n_trees this) depth_min
                  (depth this) votes_max →
         ∃ p, p ∈ pars f
              ∧ (Parameters.estimated_qtime p == Parameters.estimated_qtime c)%Q)
    ∧ (∀ p, p ∈ pars f →
         ∃ c, c ∈ candidate_pars get_query_time get_recall (n_trees this) depth_min
                    (depth this) votes_max
              ∧ Parameters.n_trees p = Parameters.n_trees c
              ∧ Parameters.depth p = Parameters.depth c
              ∧ Parameters.votes p = Parameters.votes c
              ∧ Parameters.estimated_qtime p = Parameters.estimated_qtime c).
Proof. apply fit_times_spec. Qed.

End Tuner.

(** ** Queries without validation *)

Section QueryTotal.
Context {F : Type} `{ScalarLaws F} `{!StdAlgo} `{!StdAlgoLaws} `{!Linalg F}.

Lemma no_elem_nil {A} (l : list A) : (∀ x, x ∉ l) → l = [].
Proof. destruct l as [|x l]; [done|]. intros Hl. exfalso. apply (Hl x). left. Qed.

(** [query] on a well-formed forest returns for every [k >= 0] and every
    [votes_required]. *)
Lemma query_ok (f : Mrpt F) (q : query_vec) (k_ votes_required : Z) :
  well_formed f → (0 ≤ k_)%Z →
  ∃ out dists n_elected,
    query f q k_ votes_required = Some (out, dists, n_elected)
    ∧ length out = Z.to_nat k_
    ∧ n_elected ≤ n_trees f * (n_samples f / 2 ^ depth f + 1)
    ∧ (∀ i, n_elected ≤ i → i < Z.to_nat k_ → out !! i = Some (-1)%Z)
    ∧ ((votes_required < 1)%Z ∨ (Z.of_nat (n_trees f) < votes_required)%Z →
       n_elected = 0
       ∧ out = replicate (Z.to_nat k_) (-1)%Z
       ∧ dists = replicate (Z.to_nat k_) fneg1).
Proof.
  intros Hwf Hk. unfold query.
  destruct (found_leaves_ok f q Hwf) as (found & Hfound & Hlen & Hleaf).
  destruct (count_votes_ok f found votes_required Hwf Hleaf Hlen)
    as (votes & elected & Hcount & (_ & _ & _ & Hel & _) & _ & Hcap).
  cbn [fst snd] in *.
  rewrite Hfound. cbn [mbind option_bind]. rewrite Hcount. cbn [mbind option_bind fst snd].
  destruct (exact_knn_total q k_ elected Hk) as (out & dists & Hrun & Hout & Hpad).
  rewrite Hrun. cbn [mbind option_bind].
  exists out, dists, (length elected). split_and!; [done..|].
  intros Hvr.
  assert (elected = []) as ->.
  { apply no_elem_nil. intros idx Hidx. apply Hel in Hidx.
    pose proof (occurrences_routed_le f found idx Hwf Hleaf Hlen). lia. }
  rewrite exact_knn_empty in Hrun. by injection Hrun as <- <-.
Qed.

(** C9, as the code has it.  Neither [grow] nor [query] checks its
    arguments.  [grow] builds a forest for every value of [density]
    (below 1 it takes the sparse matrix, otherwise the dense one).  On the
    grown forest [query] returns for every [k >= 0] and every
    [votes_required], after routing and voting, with [k] output slots
    of which those from the number of elected points on hold -1; for
    [votes_required] outside [1, n_trees] no point is elected and every
    slot holds -1. *)
Theorem query_and_grow_do_not_validate
    (n_trees_ depth_ : nat) (density_ : F) (g : Draws F) :
  growable X_cols depth_ →
  ∃ f, grow Mrpt_new n_trees_ depth_ density_ g = Some f
    ∧ density f = density_
    ∧ ∀ (q : query_vec) (k_ votes_required : Z),
        (0 ≤ k_)%Z →
        ∃ out dists n_elected,
          query f q k_ votes_required = Some (out, dists, n_elected)
          ∧ length out = Z.to_nat k_
          ∧ (∀ i, n_elected ≤ i → i < Z.to_nat k_ → out !! i = Some (-1)%Z)
          ∧ ((votes_required < 1)%Z ∨ (Z.of_nat n_trees_ < votes_required)%Z →
             n_elected = 0
             ∧ out = replicate (Z.to_nat k_) (-1)%Z
             ∧ dists = replicate (Z.to_nat k_) fneg1).
Proof.
  intros Hgrow.
  destruct (grow_ok n_trees_ depth_ density_ g Hgrow)
    as (f & Hrun & Hwf & Hn & _ & Hnt & Hd & Hdens & _).
  exists f. split_and!; [done..|]. intros q k_ votes_required Hk.
  destruct (query_ok f q k_ votes_required Hwf Hk)
    as (out & dists & n_el & Hq & Hout & _ & Hpad & Hnone).
  exists out, dists, n_el. rewrite Hnt in Hnone. done.
Qed.

End QueryTotal.

(** ** Trimming for a target that cannot be met *)

Section Trim.
Context {F : Type} `{ScalarLaws F} `{!StdAlgo} `{!StdAlgoLaws} `{!Linalg F}.






End Trim.

(** ** The small instance satisfies the assumptions *)

Module GridFacts.
Import Grid.

#[export] Instance Z_scalar_laws : ScalarLaws Z.
Proof.
  constructor; unfold fle, favg, fsqrt; cbn.
  - intros a b. destruct (Z.leb_spec a b), (Z.leb_spec b a); auto. lia.
  - intros a b c Hab%Z.leb_le Hbc%Z.leb_le. apply Z.leb_le. lia.
  - intros lo hi Hle%Z.leb_le. split; apply Z.leb_le.
    + apply Z.div_le_lower_bound; lia.
    + apply Z.div_le_upper_bound; lia.
  - intros a b Hab%Z.leb_le. apply Z.leb_le. by apply Z.sqrt_le_mono.
Qed.

Section Sort.
Context {F : Type} `{ScalarLaws F}.
Variable key : nat → F.


Lemma insert_by_perm x l : insert_by (key_lt key) x l ≡ₚ x :: l.
Proof.
  induction l as [|y l IH]; cbn [insert_by]; [done|].
  destruct ((key_lt key) x y); [done|]. rewrite IH. apply Permutation_swap.
Qed.

Lemma sort_by_perm l : sort_by (key_lt key) l ≡ₚ l.
Proof.
  induction l as [|x l IH]; [done|].
  unfold sort_by in *. cbn [foldr]. by rewrite insert_by_perm, IH.
Qed.

Lemma insert_by_sorted x l :
  StronglySorted (key_le key) l → StronglySorted (key_le key) (insert_by (key_lt key) x l).
Proof.
  induction 1 as [|y l Hs IH Hall]; cbn [insert_by].
  - repeat constructor.
  - destruct ((key_lt key) x y) eqn:Hxy.
    + constructor; [by constructor|].
      apply flt_true_fle in Hxy. constructor; [done|].
      eapply list.Forall_impl; [exact Hall|].
      intros z Hz. unfold key_le in *. by eapply fle_trans.
    + apply flt_false_fle in Hxy. constructor; [done|].
      rewrite insert_by_perm. by constructor.
Qed.

Lemma sort_by_sorted l : StronglySorted (key_le key) (sort_by (key_lt key) l).
Proof.
  induction l as [|x l IH]; [constructor|].
  unfold sort_by in *. cbn [foldr]. by apply insert_by_sorted.
Qed.

Lemma sort_by_lookup l i j x y :
  i ≤ j → sort_by (key_lt key) l !! i = Some x → sort_by (key_lt key) l !! j = Some y →
  fle (key x) (key y) = true.
Proof.
  intros Hij Hx Hy. destruct (decide (i = j)) as [->|Hne].
  - rewrite Hx in Hy. injection Hy as ->. apply fle_refl.
  - pose proof (sort_by_sorted l) as Hs.
    rewrite <- (take_drop_middle _ _ _ Hx) in Hs, Hy.
    apply StronglySorted_app in Hs as (_ & _ & Hs).
    apply StronglySorted_inv in Hs as [_ Hall].
    rewrite lookup_app_r in Hy by (rewrite length_take; lia).
    rewrite length_take in Hy.
    pose proof (lookup_lt_Some _ _ _ Hx) as Hlt.
    replace (j - i `min` length (sort_by (key_lt key) l)) with (S (j - i - 1)) in Hy by lia.
    cbn [lookup list_lookup] in Hy.
    apply list_elem_of_lookup_2 in Hy.
    by apply (proj1 (list.Forall_forall _ _) Hall).
Qed.

End Sort.

#[export] Instance sort_algo_laws {F : Type} `{ScalarLaws F} : StdAlgoLaws.
Proof.
  constructor; cbn [nth_element partial_sort sort_algo].
  - intros key _ l. apply (sort_by_perm key).
  - intros key nth l i j x y Hi Hj. apply (sort_by_lookup key). lia.
  - intros key nth l j x y Hj. by apply (sort_by_lookup key).
  - intros key _ l. apply (sort_by_perm key).
  - intros key middle l i j x y _ Hij. by apply (sort_by_lookup key).
Qed.

End GridFacts.

(** ** The theorems on the small instance *)

Module GridChecks.
Import Grid GridFacts GridRuns.

Lemma growable_grid_2 : growable (@X_cols Z _) 2.
Proof. right. vm_compute. lia. Defined.


(** Eight points cannot fill the sixteen nodes of level 4: [grow] with
    depth 5 reads past the end of [tree_leaves[0]]. *)
Lemma grow_depth_5_on_grid : grow Mrpt_new 1 5 1%Z draws = None.
Proof. by vm_compute. Qed.

(** The root of the first tree of [forest] obeys the median rule. *)
Lemma grow_split_values_on_grid :
  growable (@X_cols Z _) 2
  ∧ ∃ f leaves col s,
      grow Mrpt_new 2 2 1%Z draws = Some f
      ∧ tree_leaves f !! 0 = Some leaves
      ∧ split_points f !! 0 = Some col
      ∧ col !! 0 = Some s
      ∧ median_rule
          (tree_projections_of 2 false (sparse_random_matrix f) (dense_random_matrix f) 0 0)
          (slab leaves 0 4) (slab leaves 4 8) s.
Proof.
  split; [exact growable_grid_2|].
  destruct (grow_split_values_obey_median_rule 2 2 1%Z draws growable_grid_2)
    as (f & Hrun & Hnodes).
  destruct (Hnodes 0 (Call 0 0 0 8)) as (leaves & col & s & H1 & H2 & H3 & _ & H5).
  - lia.
  - apply calls_self.
  - cbn. lia.
  - exists f, leaves, col, s. split_and!; [exact Hrun|exact H1|exact H2|exact H3|exact H5].
Defined.


Lemma query_elects_on_grid :
  growable (@X_cols Z _) 2
  ∧ (1 ≤ 2)%Z
  ∧ ∃ f found votes elected,
      grow Mrpt_new 2 2 1%Z draws = Some f
      ∧ found_leaves_of f (point 0 0) = Some found
      ∧ count_votes f found 2 = Some (votes, elected)
      ∧ NoDup elected
      ∧ ∀ idx, idx ∈ elected ↔ (2 ≤ Z.of_nat (occurrences idx (routed f found)))%Z.
Proof.
  split; [exact growable_grid_2|]. split; [lia|].
  destruct (query_elects_exactly_the_voted 2 2 1%Z draws growable_grid_2)
    as (f & Hrun & Hq).
  destruct (Hq (point 0 0) 2%Z) as (found & votes & elected & H1 & H2 & H3 & H4 & _); [lia|].
  exists f, found, votes, elected.
  split_and!; [exact Hrun|exact H1|exact H2|exact H3|exact H4].
Defined.

Lemma exact_knn_on_grid :
  (1 ≤ 3)%Z
  ∧ ∃ out dists idx,
      exact_knn (point 0 0) 3 [5; 0; 3] = Some (out, dists)
      ∧ knn_result (point 0 0) 3 [5; 0; 3] out dists idx.
Proof.
  split; [lia|].
  apply (exact_knn_sorted_closest_padded (point 0 0) 3 [5; 0; 3]). lia.
Defined.

Lemma save_load_on_grid :
  growable (@X_cols Z _) 2
  ∧ ∃ f fd, grow Mrpt_new 2 2 0%Z draws = Some f
          ∧ save f = Some fd ∧ load Mrpt_new fd = Some f.
Proof.
  split; [exact growable_grid_2|].
  destruct (save_load_round_trip 2 2 0%Z draws growable_grid_2)
    as (f & fd & f' & Hrun & Hsave & Hload & Heq & _).
  exists f, fd. rewrite Heq in Hload.
  split_and!; [exact Hrun|exact Hsave|exact Hload].
Defined.

Lemma tuned_frontier_sorted : StronglySorted faster (opt_pars tuned).
Proof. vm_compute. repeat constructor. Defined.

Lemma get_optimal_parameters_on_grid :
  StronglySorted faster (opt_pars tuned)
  ∧ ((∃ par, par ∈ opt_pars tuned ∧ get_optimal_parameters tuned (1 # 4) = par
             ∧ ∀ p, p ∈ opt_pars tuned →
                 ((1 # 4) - (1 # 10000) < Parameters.estimated_recall p)%Q →
                 p = par ∨ faster par p)
     ∨ Parameters.n_trees (get_optimal_parameters tuned (1 # 4)) = 0).
Proof.
  split; [exact tuned_frontier_sorted|].
  destruct (get_optimal_parameters_first_above_target tuned (1 # 4))
    as [(l1 & par & l2 & Heq & _ & _ & Hget & Hfirst)|(_ & _ & Hzero)].
  - left. exists par. split_and!.
    + rewrite Heq. apply elem_of_app. right. left.
    + exact Hget.
    + exact (Hfirst tuned_frontier_sorted).
  - right. exact Hzero.
Defined.

Lemma fit_times_on_grid :
  1 ≤ n_trees forest ∧ 1 ≤ 2 ∧ 1 ≤ depth forest
  ∧ ∃ f, fit_times example_time example_recall true 1 2 forest = Some f
       ∧ StronglySorted dominated_step (opt_pars f)
       ∧ opt_pars f = frontier (-1) (pars f).
Proof.
  assert (1 ≤ n_trees forest) as H1 by (vm_compute; lia).
  assert (1 ≤ depth forest) as H2 by (vm_compute; lia).
  split_and!; [exact H1|lia|exact H2|].
  destruct (fit_times_frontier_strictly_increasing example_time example_recall true
              1 2 forest H1 ltac:(lia) H2) as (f & Hrun & Hs & _ & Hopt & _).
  exists f. split_and!; [exact Hrun|exact Hs|exact Hopt].
Defined.

Lemma query_fits_buffer_on_grid :
  growable (@X_cols Z _) 2
  ∧ ∃ f found votes elected,
      grow Mrpt_new 2 2 1%Z draws = Some f
      ∧ found_leaves_of f (point 3 1) = Some found
      ∧ count_votes f found 1 = Some (votes, elected)
      ∧ length elected ≤ length (routed f found)
      ∧ length (routed f found) ≤ 2 * (8 / 2 ^ 2 + 1).
Proof.
  split; [exact growable_grid_2|].
  destruct (query_elected_fits_buffer 2 2 1%Z draws growable_grid_2)
    as (f & Hrun & _ & Hq).
  destruct (Hq (point 3 1) 1%Z) as (found & votes & elected & H1 & H2 & _ & H4 & H5).
  exists f, found, votes, elected.
  split_and!; [exact Hrun|exact H1|exact H2|exact H4|exact H5].
Defined.

(** [k] above [n_samples]: the query is not refused; it elects the two
    points of the leaf of the query in both trees, ranks them and pads. *)
Lemma query_runs_with_k_above_n_samples :
  grow Mrpt_new 2 2 1%Z draws = Some forest
  ∧ (Z.of_nat (n_samples forest) < 9)%Z
  ∧ query forest (point 0 0) 9 1
    = Some ([0; 2; -1; -1; -1; -1; -1; -1; -1]%Z,
            [0; 1; -1; -1; -1; -1; -1; -1; -1]%Z, 2).
Proof. split_and!; [by vm_compute|by vm_compute|by vm_compute]. Qed.

Lemma query_without_validation_on_grid :
  growable (@X_cols Z _) 2
  ∧ (0 ≤ 9)%Z
  ∧ ∃ f out dists n_elected,
      grow Mrpt_new 2 2 1%Z draws = Some f
      ∧ query f (point 0 0) 9 3 = Some (out, dists, n_elected)
      ∧ n_elected = 0
      ∧ out = replicate 9 (-1)%Z.
Proof.
  split; [exact growable_grid_2|]. split; [lia|].
  destruct (query_and_grow_do_not_validate 2 2 1%Z draws growable_grid_2)
    as (f & Hrun & _ & Hq).
  destruct (Hq (point 0 0) 9%Z 3%Z) as (out & dists & n_el & H1 & _ & _ & H4); [lia|].
  destruct H4 as (H5 & H6 & _); [right; lia|].
  exists f, out, dists, n_el. split_and!; [exact Hrun|exact H1|exact H5|exact H6].
Defined.




End GridChecks.

(** * Further properties *)

(** ** The leaf tables by themselves *)

(** X2.  [count_leaf_sizes] pushes onto its vector the sizes of the [2^depth]
    leaves, which add up to [n] and are all the floor or the ceiling of
    [n / 2^depth]. *)
Theorem count_leaf_sizes_balanced (n depth_ : nat) (out_leaf_sizes : list nat) :
  ∃ sizes,
    count_leaf_sizes depth_ n out_leaf_sizes = out_leaf_sizes ++ sizes
    ∧ length sizes = 2 ^ depth_
    ∧ sum_list sizes = n
    ∧ ∀ s, s ∈ sizes →
        n / 2 ^ depth_ ≤ s ∧ s ≤ n / 2 ^ depth_ + 1
        ∧ s * 2 ^ depth_ < n + 2 ^ depth_.
Proof.
  exists (count_leaf_sizes depth_ n []). split_and!.
  - apply count_leaf_sizes_app.
  - apply length_count_leaf_sizes.
  - apply sum_count_leaf_sizes.
  - intros s Hs.
    pose proof (count_leaf_sizes_floor _ _ _ Hs) as Hlo.
    pose proof (count_leaf_sizes_ceil _ _ _ Hs) as Hhi.
    pose proof (count_leaf_sizes_max _ _ _ Hs) as Hmax.
    assert (0 < 2 ^ depth_) as Hpos by (apply Nat.neq_0_lt_0, Nat.pow_nonzero; lia).
    split_and!; [|done|lia].
    apply Nat.lt_succ_r, Nat.Div0.div_lt_upper_bound. lia.
Qed.

Lemma length_count_first_leaf_indices n d :
  length (count_first_leaf_indices n d) = 2 ^ d + 1.
Proof.
  unfold count_first_leaf_indices.
  rewrite length_prefix_sums, length_count_leaf_sizes. lia.
Qed.

Lemma count_first_leaf_indices_all_spec (indices : list (list nat))
    (n depth_max : nat) :
  let all := count_first_leaf_indices_all indices n depth_max in
  length all = length indices + depth_max + 1
  ∧ (∀ i, i < length indices → all !! i = indices !! i)
  ∧ ∀ d, d ≤ depth_max →
      ∃ table,
        all !! (length indices + d) = Some table
        ∧ table = count_first_leaf_indices n d
        ∧ length table = 2 ^ d + 1
        ∧ table !! 0 = Some 0
        ∧ table !! (2 ^ d) = Some n
        ∧ ∀ leaf, leaf < 2 ^ d →
            ∃ b e, table !! leaf = Some b ∧ table !! (leaf + 1) = Some e
                 ∧ b ≤ e ∧ e ≤ n
                 ∧ n / 2 ^ d ≤ e - b ∧ e - b ≤ n / 2 ^ d + 1.
Proof.
  cbv zeta. unfold count_first_leaf_indices_all. split_and!.
  - rewrite length_app, length_fmap, length_seq. lia.
  - intros i Hi. by rewrite lookup_app_l.
  - intros d Hd. exists (count_first_leaf_indices n d). split_and!.
    + rewrite lookup_app_r by lia.
      replace (length indices + d - length indices) with d by lia.
      rewrite list_lookup_fmap, lookup_seq_lt by lia. done.
    + done.
    + apply length_count_first_leaf_indices.
    + by rewrite lookup_count_first_leaf_indices by lia.
    + rewrite lookup_count_first_leaf_indices by lia.
      rewrite firstn_all2 by (rewrite length_count_leaf_sizes; lia).
      by rewrite sum_count_leaf_sizes.
    + intros leaf Hleaf.
      destruct (leaf_bounds n d leaf Hleaf) as (b & e & Hb & He & Hbe & Hen & Hmax & Hsz).
      exists b, e. split_and!; try done.
      apply list_elem_of_lookup_2 in Hsz.
      pose proof (count_leaf_sizes_floor _ _ _ Hsz) as Hlo.
      assert (0 < 2 ^ d) as Hpos by (apply Nat.neq_0_lt_0, Nat.pow_nonzero; lia).
      apply Nat.lt_succ_r, Nat.Div0.div_lt_upper_bound. lia.
Qed.

(** X3.  [count_first_leaf_indices_all] keeps what the vector holds and appends
    the tables of the depths 0 to [depth_max]; the table of depth [d] has
    [2^d + 1] entries that rise from 0 to [n] in steps of the floor or the
    ceiling of [n / 2^d]. *)
Theorem count_first_leaf_indices_all_appends (indices : list (list nat))
    (n depth_max : nat) :
  let all := count_first_leaf_indices_all indices n depth_max in
  length all = length indices + depth_max + 1
  ∧ (∀ i, i < length indices → all !! i = indices !! i)
  ∧ ∀ d, d ≤ depth_max →
      ∃ table,
        all !! (length indices + d) = Some table
        ∧ table = count_first_leaf_indices n d
        ∧ length table = 2 ^ d + 1
        ∧ table !! 0 = Some 0
        ∧ table !! (2 ^ d) = Some n
        ∧ ∀ leaf, leaf < 2 ^ d →
            ∃ b e, table !! leaf = Some b ∧ table !! (leaf + 1) = Some e
                 ∧ b ≤ e ∧ e ≤ n
                 ∧ n / 2 ^ d ≤ e - b ∧ e - b ≤ n / 2 ^ d + 1.
Proof.
  apply count_first_leaf_indices_all_spec.
Qed.

(** ** Growing on an index that was grown before *)

Section GrowAgain.
Context {F : Type} `{ScalarLaws F} `{!StdAlgo} `{!StdAlgoLaws} `{!Linalg F}.

(** [grow] on any index: the trees are grown as on a new one, and the leaf
    table is entry [depth_] of the vector of tables after the append. *)
Lemma grow_any (this : Mrpt F) (n_trees_ depth_ : nat) (density_ : F) (g : Draws F) :
  growable (n_samples this) depth_ →
  ∃ f lfi,
    grow this n_trees_ depth_ density_ g = Some f
    ∧ count_first_leaf_indices_all (leaf_first_indices_all this) (n_samples this) depth_
        !! depth_ = Some lfi
    ∧ leaf_first_indices f = lfi
    ∧ leaf_first_indices_all f
      = count_first_leaf_indices_all (leaf_first_indices_all this) (n_samples this) depth_
    ∧ n_trees f = n_trees_ ∧ depth f = depth_ ∧ n_samples f = n_samples this
    ∧ length (tree_leaves f) = n_trees_
    ∧ (∀ leaves, leaves ∈ tree_leaves f → leaves ≡ₚ seq 0 (n_samples this)).
Proof.
  intros Hgrow. unfold grow. cbv zeta.
  destruct (lookup_lt_is_Some_2
              (count_first_leaf_indices_all (leaf_first_indices_all this)
                 (n_samples this) depth_) depth_) as [lfi Hlfi].
  { unfold count_first_leaf_indices_all.
    rewrite length_app, length_fmap, length_seq. lia. }
  rewrite Hlfi. cbn [mbind option_bind].
  set (sparse := flt density_ fone).
  set (srm := if sparse then build_sparse_random_matrix _ _ _ else _).
  set (drm := if sparse then _ else build_dense_random_matrix _ _ _).
  destruct (mapM (grow_tree g (n_samples this) depth_ (2 ^ (depth_ + 1)) sparse srm drm)
              (seq 0 n_trees_)) as [trees|] eqn:Htrees.
  2: { apply mapM_None in Htrees. apply Exists_exists in Htrees as (t & _ & Ht).
       destruct (grow_tree_ok g (n_samples this) depth_ sparse srm drm t Hgrow)
         as (? & ? & Ht' & _).
       congruence. }
  apply mapM_Some in Htrees.
  assert (length trees = n_trees_) as Hlen.
  { apply Forall2_length in Htrees. by rewrite length_seq in Htrees. }
  eexists _, lfi. split; [reflexivity|].
  cbn [n_samples n_trees depth leaf_first_indices_all leaf_first_indices tree_leaves].
  split_and!; try done.
  - by rewrite length_fmap.
  - intros leaves (t & Ht)%list_elem_of_lookup.
    rewrite list_lookup_fmap in Ht.
    destruct (trees !! t) as [[leaves' col]|] eqn:Hlk; [|done].
    injection Ht as <-.
    destruct (Forall2_lookup_r _ _ _ _ _ Htrees Hlk) as (t' & Ht' & Hrun).
    apply lookup_seq in Ht' as [-> _]. simpl in Hrun.
    destruct (grow_tree_ok g (n_samples this) depth_ sparse srm drm t Hgrow)
      as (leaves'' & col' & Hrun' & Hp & _).
    rewrite Hrun in Hrun'. by injection Hrun' as <- <-.
Qed.

(** X4.  [grow] called a second time on the same index appends its tables
    behind those of the first call: the leaf table it then takes is right
    only when the new depth does not exceed the old one; for a greater
    depth it is the table of depth [d1 - d0 - 1], too short for the new
    trees. *)
Theorem grow_again_takes_a_stale_table
    (t0 d0 : nat) (density0 : F) (g0 : Draws F)
    (t1 d1 : nat) (density1 : F) (g1 : Draws F) :
  growable X_cols d0 → growable X_cols d1 →
  ∃ f0 f1,
    grow Mrpt_new t0 d0 density0 g0 = Some f0
    ∧ grow f0 t1 d1 density1 g1 = Some f1
    ∧ n_trees f1 = t1 ∧ depth f1 = d1
    ∧ length (leaf_first_indices_all f1) = d0 + d1 + 2
    ∧ (d1 ≤ d0 → leaf_first_indices f1 = count_first_leaf_indices X_cols d1)
    ∧ (d0 < d1 →
         leaf_first_indices f1 = count_first_leaf_indices X_cols (d1 - d0 - 1)
         ∧ length (leaf_first_indices f1) < 2 ^ d1 + 1).
Proof.
  intros Hg0 Hg1.
  destruct (grow_ok t0 d0 density0 g0 Hg0)
    as (f0 & Hrun0 & _ & Hn0 & _ & _ & _ & _ & _ & _ & Hall0 & _).
  destruct (grow_any f0 t1 d1 density1 g1) as
    (f1 & lfi & Hrun1 & Hlfi & Hlfi1 & Hall1 & Ht1 & Hd1 & _).
  { by rewrite Hn0. }
  exists f0, f1. split_and!; try done.
  - rewrite Hall1. unfold count_first_leaf_indices_all.
    rewrite Hall0, length_app, !length_fmap, !length_seq. lia.
  - intros Hle. rewrite Hlfi1.
    destruct (count_first_leaf_indices_all_spec [] X_cols d0)
      as (_ & _ & Hnew).
    destruct (Hnew d1 Hle) as (table & Hlk & -> & _). cbn [length] in Hlk.
    cbn [Nat.add] in Hlk.
    destruct (count_first_leaf_indices_all_spec (leaf_first_indices_all f0)
                (n_samples f0) d1) as (_ & Hold & _).
    rewrite Hold in Hlfi.
    + rewrite Hall0 in Hlfi. unfold count_first_leaf_indices_all in Hlk.
      cbn [app] in Hlk.
      change (map ?f ?l) with (f <$> l) in Hlfi. rewrite Hlk in Hlfi. by injection Hlfi as <-.
    + rewrite Hall0, length_fmap, length_seq. lia.
  - intros Hlt.
    destruct (count_first_leaf_indices_all_spec (leaf_first_indices_all f0)
                (n_samples f0) d1) as (_ & _ & Hnew).
    destruct (Hnew (d1 - d0 - 1)) as (table & Hlk & -> & Hlen & _); [lia|].
    replace (length (leaf_first_indices_all f0) + (d1 - d0 - 1)) with d1 in Hlk.
    2: { rewrite Hall0, length_fmap, length_seq. lia. }
    rewrite Hlk in Hlfi. injection Hlfi as <-. rewrite Hlfi1, Hn0.
    split; [done|]. rewrite Hn0 in Hlen. rewrite Hlen.
    assert (2 ^ (d1 - d0 - 1) < 2 ^ d1); [|lia].
    apply Nat.pow_lt_mono_r; lia.
Qed.

End GrowAgain.

(** ** What a caller of [query] can rely on *)

Section QueryUse.
Context {F : Type} `{ScalarLaws F} `{!StdAlgo} `{!StdAlgoLaws} `{!Linalg F}.

Lemma growable_full (n depth_ : nat) : 2 ^ depth_ ≤ n → growable n depth_.
Proof.
  intros Hn. destruct depth_ as [|d]; [by left|right].
  replace (S d - 1) with d by lia.
  rewrite Nat.pow_succ_r' in Hn. lia.
Qed.

(** The votes and the elected points of a query for two thresholds. *)
Lemma count_votes_subset (f : Mrpt F) found (v v' : Z) :
  well_formed f →
  (∀ n_tree leaf, found !! n_tree = Some leaf → leaf < 2 ^ depth f) →
  length found = n_trees f →
  (1 ≤ v)%Z → (v ≤ v')%Z →
  ∃ votes elected votes' elected',
    count_votes f found v = Some (votes, elected)
    ∧ count_votes f found v' = Some (votes', elected')
    ∧ votes' = votes
    ∧ NoDup elected ∧ NoDup elected'
    ∧ elected' ⊆ elected
    ∧ length elected' ≤ length elected.
Proof.
  intros Hwf Hleaf Hlen Hv Hvv.
  destruct (count_votes_ok f found v Hwf Hleaf Hlen)
    as (votes & elected & Hcount & (Hvl & Hvotes & Hnd & Hel & _) & _).
  destruct (count_votes_ok f found v' Hwf Hleaf Hlen)
    as (votes' & elected' & Hcount' & (Hvl' & Hvotes' & Hnd' & Hel' & _) & _).
  cbn [fst snd] in *.
  exists votes, elected, votes', elected'.
  assert (elected' ⊆ elected) as Hsub.
  { intros idx Hidx. apply Hel. apply Hel' in Hidx. lia. }
  split_and!; try done.
  - apply list_eq. intros i.
    destruct (decide (i < n_samples f)) as [Hi|Hi].
    + by rewrite Hvotes, Hvotes'.
    + rewrite !lookup_ge_None_2; [done|lia..].
  - apply submseteq_length, NoDup_submseteq; done.
Qed.

(** X5.  Raising [votes_required] never enlarges the candidate set: on a grown
    forest, for thresholds [1 <= v <= v'], the query with [v'] elects a
    subset of the points elected with [v] and reports no greater
    [n_elected]. *)
Theorem query_candidates_shrink_with_votes
    (n_trees_ depth_ : nat) (density_ : F) (g : Draws F) :
  growable X_cols depth_ →
  ∃ f, grow Mrpt_new n_trees_ depth_ density_ g = Some f
    ∧ ∀ (q : query_vec) (k_ v v' : Z),
        (0 ≤ k_)%Z → (1 ≤ v)%Z → (v ≤ v')%Z →
        ∃ found votes elected elected' r r',
          found_leaves_of f q = Some found
          ∧ count_votes f found v = Some (votes, elected)
          ∧ count_votes f found v' = Some (votes, elected')
          ∧ elected' ⊆ elected
          ∧ query f q k_ v = Some (r, length elected)
          ∧ query f q k_ v' = Some (r', length elected')
          ∧ length elected' ≤ length elected.
Proof.
  intros Hgrow.
  destruct (grow_ok n_trees_ depth_ density_ g Hgrow) as (f & Hrun & Hwf & _).
  exists f. split; [done|]. intros q k_ v v' Hk Hv Hvv.
  destruct (found_leaves_ok f q Hwf) as (found & Hfound & Hlen & Hleaf).
  destruct (count_votes_subset f found v v' Hwf Hleaf Hlen Hv Hvv)
    as (votes & elected & votes' & elected' & Hc & Hc' & -> & _ & _ & Hsub & Hle).
  destruct (exact_knn_total q k_ elected Hk) as (out & dists & Hr & _).
  destruct (exact_knn_total q k_ elected' Hk) as (out' & dists' & Hr' & _).
  exists found, votes, elected, elected', (out, dists), (out', dists').
  unfold query. rewrite Hfound. cbn [mbind option_bind].
  rewrite Hc, Hc'. cbn [mbind option_bind fst snd]. rewrite Hr, Hr'.
  split_and!; done.
Qed.

(** X6.  With one vote required, at least one tree and no more leaves than
    points, a query for [k >= 1] neighbours always finds one: the leaf of
    the query in the first tree alone gives the floor of
    [n_samples / 2^depth] candidates, and the first output slot holds a
    data point, not the sentinel. *)
Theorem query_one_vote_finds_a_neighbour
    (n_trees_ depth_ : nat) (density_ : F) (g : Draws F) :
  2 ^ depth_ ≤ X_cols → 1 ≤ n_trees_ →
  ∃ f, grow Mrpt_new n_trees_ depth_ density_ g = Some f
    ∧ ∀ (q : query_vec) (k_ : Z),
        (1 ≤ k_)%Z →
        ∃ out dists n_elected c,
          query f q k_ 1 = Some (out, dists, n_elected)
          ∧ 1 ≤ n_elected
          ∧ X_cols / 2 ^ depth_ ≤ n_elected
          ∧ out !! 0 = Some (Z.of_nat c) ∧ c < X_cols.
Proof.
  intros Hn Ht.
  destruct (grow_ok n_trees_ depth_ density_ g (growable_full _ _ Hn))
    as (f & Hrun & Hwf & Hns & _ & Hnt & Hd & _).
  exists f. split; [done|]. intros q k_ Hk.
  destruct (found_leaves_ok f q Hwf) as (found & Hfound & Hlen & Hleaf).
  destruct (count_votes_ok f found 1 Hwf Hleaf Hlen)
    as (votes & elected & Hcount & (_ & _ & Hnd & Hel & _) & _).
  cbn [fst snd] in *.
  destruct (lookup_lt_is_Some_2 found 0) as [leaf Hlk]; [lia|].
  destruct (routed_slab_ok f found 0 leaf Hwf ltac:(lia) Hlk ltac:(by eapply Hleaf))
    as (indices & b & e & Hind & Hb & He & Hbe & Hel' & _ & Hperm & Hslab).
  assert (X_cols / 2 ^ depth_ ≤ e - b) as Hfloor.
  { destruct (count_first_leaf_indices_all_spec [] X_cols depth_) as (_ & _ & Htab).
    destruct (Htab depth_ ltac:(lia)) as (table & _ & -> & _ & _ & _ & Hleafs).
    destruct (Hleafs leaf) as (b' & e' & Hb' & He' & _ & _ & Hlo & _).
    { rewrite <- Hd. by eapply Hleaf. }
    rewrite (wf_lfi f Hwf), Hns, Hd in Hb, He.
    rewrite Hb in Hb'. rewrite He in He'. injection Hb' as <-. injection He' as <-.
    done. }
  assert (1 ≤ X_cols / 2 ^ depth_) as Hone.
  { apply Nat.div_le_lower_bound; [apply Nat.pow_nonzero; lia|lia]. }
  assert (routed_slab f found 0 ⊆ elected) as Hsub.
  { intros idx Hidx. apply Hel. split; [lia|].
    assert (0 < occurrences idx (routed f found)); [|lia].
    apply occurrences_pos. unfold routed.
    apply list_elem_of_join. exists (routed_slab f found 0). split; [done|].
    apply list_elem_of_fmap. exists 0. split; [done|].
    apply elem_of_seq. lia. }
  assert (e - b ≤ length elected) as Hsize.
  { rewrite <- (length_slab indices b e Hel'), <- Hslab.
    apply submseteq_length, NoDup_submseteq; [|done].
    rewrite Hslab. apply NoDup_slab. rewrite Hperm. apply NoDup_seq. }
  destruct (exact_knn_spec q k_ elected Hk) as (out & dists & idx & Hknn & Hres).
  destruct Hres as (_ & _ & Hidx & Hfront & _).
  destruct (Hfront 0) as (p & c & _ & Hc & Hout & _); [lia|].
  exists out, dists, (length elected), c.
  unfold query. rewrite Hfound. cbn [mbind option_bind].
  rewrite Hcount. cbn [mbind option_bind fst snd]. rewrite Hknn.
  split_and!; [done|lia|lia|done|].
  rewrite <- Hns. apply (routed_in_range f found c Hwf Hleaf Hlen).
  apply list_elem_of_lookup_2 in Hc. apply Hel in Hc as [_ Hc].
  apply occurrences_pos. lia.
Qed.


End QueryUse.

(** ** Accessors of a grown forest *)

Lemma sum_take_mono (l : list nat) j k :
  j ≤ k → sum_list (take j l) ≤ sum_list (take k l).
Proof.
  intros Hjk. replace (take j l) with (take j (take k l)).
  - apply sum_take_le.
  - rewrite take_take. f_equal. lia.
Qed.

(** The interval of the prefix sums that holds a position. *)
Lemma prefix_interval (sizes : list nat) : ∀ pos,
  pos < sum_list sizes →
  ∃ j, j < length sizes
     ∧ sum_list (take j sizes) ≤ pos ∧ pos < sum_list (take (S j) sizes).
Proof.
  induction sizes as [|s sizes IH]; intros pos Hpos; [simpl in Hpos; lia|].
  simpl in Hpos. destruct (decide (pos < s)) as [Hlt|Hge].
  - exists 0. simpl. lia.
  - destruct (IH (pos - s)) as (j & Hj & Hlo & Hhi); [lia|].
    exists (S j). simpl. simpl in Hhi. lia.
Qed.

Section AccessorFacts.
Context {F : Type} `{ScalarLaws F} `{!StdAlgo} `{!StdAlgoLaws} `{!Linalg F}.

(** The table the accessors read on a forest grown on a new index. *)
Lemma accessor_table (n_trees_ depth_ : nat) (density_ : F) (g : Draws F) :
  growable X_cols depth_ →
  ∃ f, grow Mrpt_new n_trees_ depth_ density_ g = Some f
    ∧ well_formed f ∧ n_samples f = X_cols ∧ n_trees f = n_trees_ ∧ depth f = depth_
    ∧ leaf_first_indices_all f !! depth f = Some (count_first_leaf_indices X_cols depth_).
Proof.
  intros Hgrow.
  destruct (grow_ok n_trees_ depth_ density_ g Hgrow)
    as (f & Hrun & Hwf & Hn & _ & Hnt & Hd & _ & _ & _ & Hall & _).
  exists f. split_and!; try done.
  rewrite Hall, Hd. change (map ?f ?l) with (f <$> l).
  rewrite list_lookup_fmap, lookup_seq_lt by lia. done.
Qed.

(** X8.  [get_leaf_size] on a grown forest: whatever the tree asked for, the
    sizes of the [2^depth] leaves are the floor or the ceiling of
    [n_samples / 2^depth] and add up to [n_samples]; a leaf number from
    [2^depth] on is read past the table. *)
Theorem get_leaf_size_balanced
    (n_trees_ depth_ : nat) (density_ : F) (g : Draws F) :
  growable X_cols depth_ →
  ∃ f sizes,
    grow Mrpt_new n_trees_ depth_ density_ g = Some f
    ∧ length sizes = 2 ^ depth_
    ∧ sum_list sizes = X_cols
    ∧ (∀ tree leaf, leaf < 2 ^ depth_ →
         ∃ s, sizes !! leaf = Some s
            ∧ get_leaf_size f tree leaf = Some (Z.of_nat s)
            ∧ X_cols / 2 ^ depth_ ≤ s ∧ s ≤ X_cols / 2 ^ depth_ + 1)
    ∧ (∀ tree leaf, 2 ^ depth_ ≤ leaf → get_leaf_size f tree leaf = None).
Proof.
  intros Hgrow.
  destruct (accessor_table n_trees_ depth_ density_ g Hgrow)
    as (f & Hrun & Hwf & Hn & Hnt & Hd & Htab).
  exists f, (count_leaf_sizes depth_ X_cols []).
  split_and!; [done|apply length_count_leaf_sizes|apply sum_count_leaf_sizes| |].
  - intros tree leaf Hleaf.
    destruct (count_first_leaf_indices_all_spec [] X_cols depth_) as (_ & _ & Hall).
    destruct (Hall depth_ ltac:(lia)) as (table & _ & -> & _ & _ & _ & Hleafs).
    destruct (Hleafs leaf Hleaf) as (b & e & Hb & He & Hbe & _ & Hlo & Hhi).
    destruct (leaf_bounds X_cols depth_ leaf Hleaf)
      as (b' & e' & Hb' & He' & _ & _ & _ & Hsz).
    rewrite Hb in Hb'. rewrite He in He'. injection Hb' as <-. injection He' as <-.
    exists (e - b). split_and!; [done| |done..].
    unfold get_leaf_size. rewrite Htab. cbn [mbind option_bind].
    rewrite He. cbn [mbind option_bind]. rewrite Hb. cbn [mbind option_bind].
    f_equal. lia.
  - intros tree leaf Hleaf. unfold get_leaf_size. rewrite Htab.
    cbn [mbind option_bind].
    rewrite (lookup_ge_None_2 _ (leaf + 1)); [done|].
    rewrite length_count_first_leaf_indices. lia.
Qed.

(** X9.  [get_leaf_point] on a grown forest: within a leaf it returns a data
    point; every data point is the point of exactly one pair (leaf,
    index) of each tree. *)
Theorem get_leaf_point_partitions
    (n_trees_ depth_ : nat) (density_ : F) (g : Draws F) :
  growable X_cols depth_ →
  ∃ f, grow Mrpt_new n_trees_ depth_ density_ g = Some f
    ∧ ∀ tree, tree < n_trees_ →
        (∀ leaf index s, leaf < 2 ^ depth_ →
           get_leaf_size f tree leaf = Some s → (Z.of_nat index < s)%Z →
           ∃ p, get_leaf_point f tree leaf index = Some p ∧ p < X_cols)
        ∧ (∀ p, p < X_cols →
             ∃ leaf index s,
               leaf < 2 ^ depth_
               ∧ get_leaf_size f tree leaf = Some s ∧ (Z.of_nat index < s)%Z
               ∧ get_leaf_point f tree leaf index = Some p)
        ∧ (∀ p leaf index s leaf' index' s',
             leaf < 2 ^ depth_ → leaf' < 2 ^ depth_ →
             get_leaf_size f tree leaf = Some s → (Z.of_nat index < s)%Z →
             get_leaf_size f tree leaf' = Some s' → (Z.of_nat index' < s')%Z →
             get_leaf_point f tree leaf index = Some p →
             get_leaf_point f tree leaf' index' = Some p →
             leaf = leaf' ∧ index = index').
Proof.
  intros Hgrow.
  destruct (accessor_table n_trees_ depth_ density_ g Hgrow)
    as (f & Hrun & Hwf & Hn & Hnt & Hd & Htab).
  exists f. split; [done|]. intros tree Htree.
  destruct (lookup_lt_is_Some_2 (tree_leaves f) tree) as [leaves Hleaves].
  { rewrite (wf_leaves_length f Hwf). lia. }
  assert (leaves ≡ₚ seq 0 X_cols) as Hperm.
  { rewrite <- Hn. apply (wf_leaves_perm f Hwf). by eapply list_elem_of_lookup_2. }
  assert (length leaves = X_cols) as Hlen.
  { apply Permutation_length in Hperm. by rewrite length_seq in Hperm. }
  assert (NoDup leaves) as Hnd by (rewrite Hperm; apply NoDup_seq).
  set (sizes := count_leaf_sizes depth_ X_cols []).
  assert (∀ leaf, leaf < 2 ^ depth_ →
            ∃ s, sizes !! leaf = Some s
               ∧ get_leaf_size f tree leaf = Some (Z.of_nat s)
               ∧ sum_list (take (S leaf) sizes) = sum_list (take leaf sizes) + s
               ∧ ∀ index, get_leaf_point f tree leaf index
                          = leaves !! (sum_list (take leaf sizes) + index)) as Hacc.
  { intros leaf Hleaf.
    destruct (leaf_bounds X_cols depth_ leaf Hleaf)
      as (b & e & Hb & He & Hbe & _ & _ & Hsz).
    pose proof Hb as Hb'. pose proof He as He'.
    rewrite lookup_count_first_leaf_indices in Hb' by lia.
    rewrite lookup_count_first_leaf_indices in He' by lia.
    injection Hb' as Hb'. injection He' as He'.
    replace (leaf + 1) with (S leaf) in He' by lia.
    exists (e - b). fold sizes in Hsz, Hb', He'. split_and!; [done| |lia|].
    - unfold get_leaf_size. rewrite Htab. cbn [mbind option_bind].
      rewrite He. cbn [mbind option_bind]. rewrite Hb. cbn [mbind option_bind].
      f_equal. lia.
    - intros index. unfold get_leaf_point. rewrite Htab. cbn [mbind option_bind].
      rewrite Hb. cbn [mbind option_bind]. rewrite Hleaves. cbn [mbind option_bind].
      by rewrite Hb'. }
  assert (sum_list sizes = X_cols) as Hsum by apply sum_count_leaf_sizes.
  assert (length sizes = 2 ^ depth_) as Hsizes by apply length_count_leaf_sizes.
  split_and!.
  - intros leaf index s Hleaf Hs Hidx.
    destruct (Hacc leaf Hleaf) as (s0 & _ & Hs0 & Hstep & Hpt).
    rewrite Hs in Hs0. injection Hs0 as ->.
    pose proof (sum_take_le sizes (S leaf)) as Hle.
    destruct (lookup_lt_is_Some_2 leaves (sum_list (take leaf sizes) + index))
      as [p Hp]; [lia|].
    exists p. rewrite Hpt. split; [done|].
    apply list_elem_of_lookup_2 in Hp. rewrite Hperm in Hp.
    apply elem_of_seq in Hp. lia.
  - intros p Hp.
    assert (p ∈ leaves) as Hin by (rewrite Hperm; apply elem_of_seq; lia).
    apply list_elem_of_lookup in Hin as (pos & Hpos).
    pose proof (lookup_lt_Some _ _ _ Hpos) as Hlt.
    destruct (prefix_interval sizes pos) as (leaf & Hleaf & Hlo & Hhi); [lia|].
    destruct (Hacc leaf ltac:(lia)) as (s0 & _ & Hs0 & Hstep & Hpt).
    exists leaf, (pos - sum_list (take leaf sizes)), (Z.of_nat s0).
    split_and!; [lia|done|lia|].
    rewrite Hpt. by replace (_ + (pos - _)) with pos by lia.
  - intros p leaf index s leaf' index' s' Hleaf Hleaf' Hs Hidx Hs' Hidx' Hp Hp'.
    destruct (Hacc leaf Hleaf) as (s0 & _ & Hs0 & Hstep & Hpt).
    destruct (Hacc leaf' Hleaf') as (s0' & _ & Hs0' & Hstep' & Hpt').
    rewrite Hs in Hs0. injection Hs0 as ->.
    rewrite Hs' in Hs0'. injection Hs0' as ->.
    rewrite Hpt in Hp. rewrite Hpt' in Hp'.
    pose proof (NoDup_lookup _ _ _ _ Hnd Hp Hp') as Heq.
    destruct (decide (leaf = leaf')) as [->|Hne]; [split; [done|lia]|].
    exfalso. destruct (decide (leaf < leaf')) as [Hlt|Hge].
    + pose proof (sum_take_mono sizes (S leaf) leaf' ltac:(lia)). lia.
    + pose proof (sum_take_mono sizes (S leaf') leaf ltac:(lia)). lia.
Qed.

End AccessorFacts.

(** ** The rows of [split_points] that [grow] leaves alone *)

Section SplitRows.
Context {F : Type} `{ScalarLaws F} `{!StdAlgo} `{!StdAlgoLaws} `{!Linalg F}.

(** The trees of a forest grown on a new index are the results of
    [grow_tree]. *)
Lemma grow_trees (n_trees_ depth_ : nat) (density_ : F) (g : Draws F) (f : Mrpt F) :
  grow Mrpt_new n_trees_ depth_ density_ g = Some f →
  ∀ t, t < n_trees_ →
    ∃ leaves col,
      grow_tree g X_cols depth_ (2 ^ (depth_ + 1)) (flt density_ fone)
        (sparse_random_matrix f) (dense_random_matrix f) t = Some (leaves, col)
      ∧ tree_leaves f !! t = Some leaves
      ∧ split_points f !! t = Some col.
Proof.
  unfold grow. cbv zeta. cbn [leaf_first_indices_all n_samples dim Mrpt_new].
  intros Hrun t Ht.
  destruct (_ !! depth_) as [lfi|]; [|done]. cbn [mbind option_bind] in Hrun.
  destruct (mapM _ _) as [trees|] eqn:Htrees; [|done].
  cbn [mbind option_bind] in Hrun. injection Hrun as <-.
  cbn [tree_leaves split_points sparse_random_matrix dense_random_matrix].
  apply mapM_Some in Htrees.
  assert (length trees = n_trees_) as Hlen.
  { apply Forall2_length in Htrees. by rewrite length_seq in Htrees. }
  destruct (lookup_lt_is_Some_2 trees t) as [[leaves col] Hlk]; [lia|].
  destruct (Forall2_lookup_r _ _ _ _ _ Htrees Hlk) as (t' & Ht' & Hrun).
  apply lookup_seq in Ht' as [-> _]. simpl in Hrun.
  exists leaves, col. rewrite !list_lookup_fmap, Hlk. done.
Qed.

(** X10.  A column of [split_points] has [2^(depth+1)] rows, of which [grow]
    writes only those of the [2^depth - 1] internal nodes: every row from
    [2^depth - 1] on still holds what the allocation left there. *)
Theorem grow_leaves_half_of_split_points_unwritten
    (n_trees_ depth_ : nat) (density_ : F) (g : Draws F) :
  growable X_cols depth_ →
  ∃ f, grow Mrpt_new n_trees_ depth_ density_ g = Some f
    ∧ ∀ tree, tree < n_trees_ →
        (∀ index, index < 2 ^ (depth_ + 1) → is_Some (get_split_point f tree index))
        ∧ (∀ index, 2 ^ (depth_ + 1) ≤ index → get_split_point f tree index = None)
        ∧ (∀ index, 2 ^ depth_ - 1 ≤ index → index < 2 ^ (depth_ + 1) →
             get_split_point f tree index = Some (uninit g index tree)).
Proof.
  intros Hgrow.
  destruct (grow_ok n_trees_ depth_ density_ g Hgrow) as (f & Hrun & Hwf & _).
  exists f. split; [done|]. intros tree Htree.
  destruct (grow_trees n_trees_ depth_ density_ g f Hrun tree Htree)
    as (leaves & col & Htr & _ & Hcol).
  unfold grow_tree in Htr.
  set (tp := tree_projections_of _ _ _ _ _) in Htr.
  set (sp := fmap _ (seq 0 (2 ^ (depth_ + 1)))) in Htr.
  assert (length sp = 2 ^ (depth_ + 1)) as Hsp.
  { unfold sp. by rewrite length_fmap, length_seq. }
  destruct (grow_subtree_spec tp depth_ 0 X_cols 0 0 (seq 0 X_cols) sp)
    as (idx' & sp' & Hrun' & _ & _ & _ & _ & Hsp' & Hframe & _).
  - lia.
  - by rewrite length_seq.
  - rewrite Nat.sub_0_r. exact Hgrow.
  - compute. lia.
  - compute. lia.
  - rewrite Hsp. simpl. rewrite Nat.pow_add_r. simpl. lia.
  - rewrite Hrun' in Htr. injection Htr as -> ->.
    unfold get_split_point. rewrite Hcol. cbn [mbind option_bind].
    split_and!.
    + intros index Hi. apply lookup_lt_is_Some_2. lia.
    + intros index Hi. apply lookup_ge_None_2. lia.
    + intros index Hlo Hhi. rewrite Hframe.
      * unfold sp. rewrite list_lookup_fmap, lookup_seq_lt by lia. done.
      * intros c Hc Hlev Heq.
        pose proof (calls_heap depth_ 0 0 0 X_cols c) as Hheap.
        destruct Hheap as [_ Hheap]; [compute; lia|compute; lia|done|].
        assert (2 ^ (c_level c + 1) ≤ 2 ^ depth_) by (apply Nat.pow_le_mono_r; lia).
        simpl in Hlev. lia.
Qed.

End SplitRows.

(** ** The true neighbours of the test queries *)

Lemma std_sort_perm (l : list Z) : std_sort l ≡ₚ l.
Proof. apply merge_sort_Permutation. Qed.

Lemma std_sort_sorted (l : list Z) : StronglySorted Z.le (std_sort l).
Proof. apply StronglySorted_merge_sort; apply _. Qed.

Lemma sorted_nodup_strict (l : list Z) :
  StronglySorted Z.le l → NoDup l → StronglySorted Z.lt l.
Proof.
  induction 1 as [|x l Hs IH Hx]; intros Hnd; [constructor|].
  apply list.NoDup_cons in Hnd as [Hnin Hnd].
  constructor; [by apply IH|].
  apply list.Forall_forall. intros y Hy.
  rewrite list.Forall_forall in Hx. specialize (Hx y Hy).
  assert (x ≠ y) by (intros ->; done). lia.
Qed.

Section ExactNeighbours.
Context {F : Type} `{ScalarLaws F} `{!StdAlgo} `{!StdAlgoLaws} `{!Linalg F}.

(** What [exact_knn] writes when the candidates are all the data points. *)
Lemma exact_knn_all (q : query_vec) (k_ : Z) (n : nat) :
  (1 ≤ k_)%Z →
  ∃ out dists idx,
    exact_knn q k_ (seq 0 n) = Some (out, dists)
    ∧ idx ≡ₚ seq 0 n
    ∧ out = (Z.of_nat <$> take (Z.to_nat k_) idx) ++ replicate (Z.to_nat k_ - n) (-1)%Z
    ∧ ∀ i j c c', i < Z.to_nat k_ → i ≤ j →
        idx !! i = Some c → idx !! j = Some c' →
        fle (squared_dist c q) (squared_dist c' q) = true.
Proof.
  intros Hk.
  destruct (exact_knn_spec q k_ (seq 0 n) Hk) as (out & dists & idx & Hrun & Hres).
  destruct Hres as (Hout & _ & Hidx & Hfront & Hord & _ & Hpad).
  rewrite length_seq in *.
  assert (length idx = n) as Hlen.
  { apply Permutation_length in Hidx. by rewrite length_seq in Hidx. }
  assert (∀ i p, idx !! i = Some p → seq 0 n !! p = Some p) as Hseq.
  { intros i p Hp. apply list_elem_of_lookup_2 in Hp. rewrite Hidx in Hp.
    apply elem_of_seq in Hp. rewrite lookup_seq_lt; [done|lia]. }
  exists out, dists, idx. split_and!; [done..| |].
  - apply list_eq. intros i.
    destruct (decide (i < Z.to_nat k_ `min` n)) as [Hi|Hi].
    + destruct (Hfront i Hi) as (p & c & Hp & Hc & Ho & _).
      rewrite (Hseq i p Hp) in Hc. injection Hc as <-.
      rewrite Ho, lookup_app_l by (rewrite length_fmap, length_take; lia).
      rewrite list_lookup_fmap, lookup_take_lt by lia. by rewrite Hp.
    + destruct (decide (i < Z.to_nat k_)) as [Hik|Hik].
      * destruct (Hpad i) as [Ho _]; [lia..|]. rewrite Ho.
        rewrite lookup_app_r by (rewrite length_fmap, length_take; lia).
        rewrite length_fmap, length_take.
        symmetry. apply lookup_replicate. split; [done|lia].
      * rewrite !lookup_ge_None_2; [done| |lia].
        rewrite length_app, length_fmap, length_take, length_replicate. lia.
  - intros i j c c' Hi Hij Hc Hc'.
    pose proof (lookup_lt_Some _ _ _ Hc) as Hlt.
    apply (Hord i j c c' c c'); [lia|done..| |]; by eapply Hseq.
Qed.

(** X11.  [compute_exact] for [1 <= k <= n_samples]: the column of a test query
    holds [k] distinct data points in strictly increasing order, and no
    data point left out is closer to the query than one of them.  For
    [k > n_samples] the column is [k - n_samples] times -1 followed by all
    the data points. *)
Theorem compute_exact_sorted_nearest (this : Mrpt F) (test_queries : list query_vec)
    (k_ : Z) :
  (1 ≤ k_)%Z →
  ∃ exact,
    compute_exact this test_queries k_ = Some exact
    ∧ length exact = length test_queries
    ∧ ∀ i q column, test_queries !! i = Some q → exact !! i = Some column →
        length column = Z.to_nat k_
        ∧ StronglySorted Z.le column
        ∧ (Z.to_nat k_ ≤ n_samples this →
             StronglySorted Z.lt column
             ∧ (∀ z, z ∈ column → ∃ c, z = Z.of_nat c ∧ c < n_samples this)
             ∧ (∀ c c', Z.of_nat c ∈ column → c' < n_samples this →
                  Z.of_nat c' ∉ column →
                  fle (squared_dist c q) (squared_dist c' q) = true))
        ∧ (n_samples this < Z.to_nat k_ →
             column = replicate (Z.to_nat k_ - n_samples this) (-1)%Z
                      ++ (Z.of_nat <$> seq 0 (n_samples this))).
Proof.
  intros Hk. unfold compute_exact.
  set (n := n_samples this).
  destruct (mapM _ test_queries) as [exact|] eqn:Hrun.
  2: { apply mapM_None in Hrun. apply Exists_exists in Hrun as (q & _ & Hq).
       destruct (exact_knn_all q k_ n Hk) as (out & dists & idx & Hr & _).
       rewrite Hr in Hq. done. }
  exists exact. split; [done|]. apply mapM_Some in Hrun.
  split; [symmetry; by eapply Forall2_length|].
  intros i q column Hq Hcol.
  destruct (Forall2_lookup_l _ _ _ _ _ Hrun Hq) as (column' & Hcol' & Hrow).
  rewrite Hcol in Hcol'. injection Hcol' as <-.
  destruct (exact_knn_all q k_ n Hk) as (out & dists & idx & Hr & Hidx & Hout & Hord).
  rewrite Hr in Hrow. cbn [mbind option_bind fst] in Hrow. injection Hrow as <-.
  assert (length idx = n) as Hlen.
  { apply Permutation_length in Hidx. by rewrite length_seq in Hidx. }
  assert (NoDup idx) as Hnd by (rewrite Hidx; apply NoDup_seq).
  split_and!.
  - rewrite (Permutation_length (std_sort_perm out)), Hout.
    rewrite length_app, length_fmap, length_take, length_replicate. lia.
  - apply std_sort_sorted.
  - intros Hkn.
    assert (out = Z.of_nat <$> take (Z.to_nat k_) idx) as Hout'.
    { rewrite Hout. replace (Z.to_nat k_ - n) with 0 by lia. simpl.
      by rewrite app_nil_r. }
    assert (∀ z, z ∈ std_sort out ↔
              ∃ i c, i < Z.to_nat k_ ∧ idx !! i = Some c ∧ z = Z.of_nat c) as Hin.
    { intros z. rewrite (std_sort_perm out), Hout', list_elem_of_fmap. split.
      - intros (c & -> & Hc). apply list_elem_of_lookup in Hc as (i' & Hi').
        pose proof (lookup_lt_Some _ _ _ Hi') as Hlt. rewrite length_take in Hlt.
        rewrite lookup_take_lt in Hi' by lia.
        exists i', c. split_and!; [lia|done..].
      - intros (i' & c & Hi' & Hc & ->). exists c. split; [done|].
        apply list_elem_of_lookup. exists i'. by rewrite lookup_take_lt by lia. }
    split_and!.
    + apply sorted_nodup_strict; [apply std_sort_sorted|].
      rewrite (std_sort_perm out), Hout'.
      apply NoDup_fmap; [apply _|].
      eapply sublist_NoDup; [exact Hnd|apply sublist_take].
    + intros z (i' & c & Hi' & Hc & ->)%Hin. exists c. split; [done|].
      apply list_elem_of_lookup_2 in Hc. rewrite Hidx in Hc.
      apply elem_of_seq in Hc. lia.
    + intros c c' (i' & c0 & Hi' & Hc0 & Heq)%Hin Hc' Hnot.
      apply Nat2Z.inj in Heq. subst c0.
      assert (c' ∈ idx) as Hc'in by (rewrite Hidx; apply elem_of_seq; lia).
      apply list_elem_of_lookup in Hc'in as (j & Hj).
      destruct (decide (j < Z.to_nat k_)) as [Hjk|Hjk].
      { destruct Hnot. apply Hin. by exists j, c'. }
      apply (Hord i' j c c'); [done|lia|done..].
  - intros Hnk.
    apply (StronglySorted_unique Z.le); [apply std_sort_sorted| |].
    + apply StronglySorted_app_2.
      * intros x y Hx Hy. apply elem_of_replicate in Hx as [-> _].
        apply list_elem_of_fmap in Hy as (c & -> & _). lia.
      * clear. induction (Z.to_nat k_ - n) as [|m IH]; [constructor|].
        simpl. constructor; [done|].
        apply list.Forall_forall. intros y Hy.
        apply elem_of_replicate in Hy as [-> _]. done.
      * clear. generalize 0. induction n as [|m IH]; intros s; [constructor|].
        simpl. constructor; [apply IH|].
        apply list.Forall_forall. intros y Hy.
        apply list_elem_of_fmap in Hy as (c & -> & Hc).
        apply elem_of_seq in Hc. lia.
    + rewrite (std_sort_perm out), Hout.
      rewrite firstn_all2 by lia. rewrite Hidx.
      apply Permutation_app_comm.
Qed.

End ExactNeighbours.

(** ** Trimming for a target that can be met *)


Section Feasible.
Context {F : Type} `{Scalar F} `{!StdAlgo} `{!Linalg F}.



End Feasible.

Section TrimFacts.
Context {F : Type} `{Scalar F}.










End TrimFacts.

Section Trimmed.
Context {F : Type} `{Scalar F} `{!StdAlgo} `{!Linalg F}.


End Trimmed.


Section TrimTheorems.
Context {F : Type} `{ScalarLaws F} `{!StdAlgo} `{!StdAlgoLaws} `{!Linalg F}.


(** What [query] reads of an index. *)
Lemma query_ext (f1 f2 : Mrpt F) :
  n_samples f2 = n_samples f1 → n_trees f2 = n_trees f1 → depth f2 = depth f1 →
  density f2 = density f1 →
  tree_leaves f2 = tree_leaves f1 → split_points f2 = split_points f1 →
  leaf_first_indices f2 = leaf_first_indices f1 →
  (flt (density f1) fone = false → dense_random_matrix f2 = dense_random_matrix f1) →
  (flt (density f1) fone = true → sparse_random_matrix f2 = sparse_random_matrix f1) →
  ∀ (q : query_vec) (k_ v : Z), query f2 q k_ v = query f1 q k_ v.
Proof.
  intros E1 E2 E3 E4 E5 E6 E7 E8 E9 q k_ v.
  unfold query, found_leaves_of, projected_query_of, count_votes.
  rewrite E1, E2, E3, E4, E5, E6, E7.
  destruct (flt (density f1) fone); [rewrite E9|rewrite E8]; done.
Qed.




End TrimTheorems.


Section TrimmedTrees.
Context {F : Type} `{ScalarLaws F} `{!StdAlgo} `{!StdAlgoLaws} `{!Linalg F}.


End TrimmedTrees.

(** ** Voting at a depth below the one grown *)

Lemma fold_opt_ext {A B} (f g : B → A → option B) (l : list A) :
  (∀ x b, x ∈ l → f b x = g b x) → ∀ b, fold_opt f l b = fold_opt g l b.
Proof.
  induction l as [|x l IH]; intros Hfg b; [done|].
  rewrite !fold_opt_cons, (Hfg x b) by left.
  destruct (g b x) as [b'|]; [|done]. cbn [mbind option_bind].
  apply IH. intros y b'' Hy. apply Hfg. by right.
Qed.

Section VoteAt.
Context {F : Type} `{Scalar F}.

(** The descent of [rem] levels from a node of level [d] stays in a
    column that holds the nodes above level [d + rem]; the stride of the
    rows of the projected query plays no part in it. *)
Lemma route_levels (split_col : list F) (pq : nat → F) n_tree stride rem :
  ∀ d idx_tree,
    2 ^ (d + rem) ≤ length split_col + 1 →
    2 ^ d ≤ idx_tree + 1 → idx_tree + 1 < 2 ^ (d + 1) →
    ∃ r, route_from split_col pq n_tree stride rem d idx_tree = Some r
       ∧ 2 ^ (d + rem) ≤ r + 1 ∧ r + 1 < 2 ^ (d + rem + 1).
Proof.
  induction rem as [|rem IH]; intros d idx_tree Hcol Hlo Hhi.
  - exists idx_tree. rewrite Nat.add_0_r. done.
  - cbn [route_from].
    assert (2 ^ (d + 1) ≤ 2 ^ (d + S rem)) by (apply Nat.pow_le_mono_r; lia).
    destruct (lookup_lt_is_Some_2 split_col idx_tree) as [s Hs]; [lia|].
    rewrite Hs. cbn [mbind option_bind].
    assert (2 ^ (d + 1) = 2 * 2 ^ d) as E1 by (rewrite Nat.pow_add_r; simpl; lia).
    assert (2 ^ (S d + 1) = 4 * 2 ^ d) as E2.
    { replace (S d + 1) with (S (S d)) by lia. rewrite !Nat.pow_succ_r'. lia. }
    assert (2 ^ S d = 2 * 2 ^ d) as E3 by apply Nat.pow_succ_r'.
    replace (d + S rem) with (S d + rem) in * by lia.
    apply IH; [done|destruct (fle _ _); lia..].
Qed.

Lemma leaf_at_ok (f : Mrpt F) (pq : nat → F) n_tree d :
  well_formed f → n_tree < n_trees f → d ≤ depth f →
  ∃ leaf, leaf_at f pq n_tree d = Some leaf ∧ leaf < 2 ^ d.
Proof.
  intros Hwf Ht Hd. unfold leaf_at.
  destruct (lookup_lt_is_Some_2 (split_points f) n_tree) as [col Hcol].
  { rewrite (wf_split_length f Hwf). lia. }
  rewrite Hcol. cbn [default from_option id].
  pose proof (wf_split_cols f Hwf col ltac:(by eapply list_elem_of_lookup_2)) as Hlen.
  rewrite (wf_n_array f Hwf) in Hlen.
  assert (2 ^ d ≤ 2 ^ (depth f + 1)) by (apply Nat.pow_le_mono_r; lia).
  destruct (route_levels col pq n_tree (depth f) d 0 0) as (r & Hr & Hlo & Hhi);
    [simpl; lia|compute; lia..|].
  rewrite Hr. cbn [mbind option_bind]. eexists. split; [done|].
  simpl in Hlo, Hhi. rewrite Nat.pow_add_r in Hhi. simpl in Hhi. lia.
Qed.

(** The leaf of the query at a depth and its points, on a forest with its
    tables. *)
Lemma leaf_points_at_ok (f : Mrpt F) (pq : nat → F) n_tree d :
  well_formed f →
  (∀ d, d ≤ depth f →
     leaf_first_indices_all f !! d = Some (count_first_leaf_indices (n_samples f) d)) →
  n_tree < n_trees f → d ≤ depth f →
  ∃ leaf indices b e,
    leaf_at f pq n_tree d = Some leaf ∧ leaf < 2 ^ d
    ∧ tree_leaves f !! n_tree = Some indices
    ∧ indices ≡ₚ seq 0 (n_samples f)
    ∧ count_first_leaf_indices (n_samples f) d !! leaf = Some b
    ∧ count_first_leaf_indices (n_samples f) d !! (leaf + 1) = Some e
    ∧ b ≤ e ∧ e ≤ length indices
    ∧ e - b ≤ n_samples f / 2 ^ d + 1
    ∧ leaf_points_at f pq n_tree d = slab indices b e.
Proof.
  intros Hwf Hall Ht Hd.
  destruct (leaf_at_ok f pq n_tree d Hwf Ht Hd) as (leaf & Hleaf & Hlt).
  destruct (lookup_lt_is_Some_2 (tree_leaves f) n_tree) as [indices Hidx].
  { by rewrite (wf_leaves_length f Hwf). }
  destruct (leaf_bounds (n_samples f) d leaf Hlt)
    as (b & e & Hb & He & Hbe & Hen & Hsz & _).
  assert (indices ≡ₚ seq 0 (n_samples f)) as Hperm.
  { apply (wf_leaves_perm f Hwf). by eapply list_elem_of_lookup_2. }
  pose proof (Permutation_length Hperm) as Hlen. rewrite length_seq in Hlen.
  exists leaf, indices, b, e.
  split_and!; [done..|lia|done|].
  unfold leaf_points_at. rewrite Hleaf. cbn [mbind option_bind].
  rewrite (Hall d Hd). cbn [mbind option_bind].
  rewrite Hb. cbn [mbind option_bind]. rewrite He. cbn [mbind option_bind].
  rewrite Hidx. done.
Qed.

Lemma length_routed_at (f : Mrpt F) (pq : nat → F) t d :
  well_formed f →
  (∀ d, d ≤ depth f →
     leaf_first_indices_all f !! d = Some (count_first_leaf_indices (n_samples f) d)) →
  t ≤ n_trees f → d ≤ depth f →
  length (routed_at f pq t d) ≤ t * (n_samples f / 2 ^ d + 1)
  ∧ ∀ idx, idx ∈ routed_at f pq t d → idx < n_samples f.
Proof.
  intros Hwf Hall Ht Hd. unfold routed_at. split.
  - rewrite <- (length_seq t 0) at 2.
    assert (∀ n, n ∈ seq 0 t → n < n_trees f) as Hts.
    { intros n Hn%elem_of_seq. lia. }
    revert Hts. generalize (seq 0 t). intros ts.
    induction ts as [|n ts IH]; intros Hts; [simpl; lia|].
    rewrite fmap_cons, mjoin_cons, length_app. cbn [length].
    destruct (leaf_points_at_ok f pq n d Hwf Hall ltac:(apply Hts; left) Hd)
      as (leaf & indices & b & e & _ & _ & _ & _ & _ & _ & Hbe & Hel & Hsz & ->).
    rewrite length_slab by done.
    specialize (IH ltac:(intros n' Hn'; apply Hts; by right)).
    revert Hsz IH. generalize (n_samples f / 2 ^ d + 1).
    generalize (length (mjoin ((λ n_tree, leaf_points_at f pq n_tree d) <$> ts))).
    intros. lia.
  - intros idx (sl & Hin & (n & -> & Hn%elem_of_seq)%list_elem_of_fmap)%list_elem_of_join.
    destruct (leaf_points_at_ok f pq n d Hwf Hall ltac:(lia) Hd)
      as (leaf & indices & b & e & _ & _ & _ & Hperm & _ & _ & _ & _ & _ & Heq).
    rewrite Heq in Hin. apply elem_of_slab in Hin as (p & _ & Hp).
    apply list_elem_of_lookup_2 in Hp. rewrite Hperm in Hp.
    apply elem_of_seq in Hp. lia.
Qed.

(** The leaves that [vote] finds. *)
Lemma vote_found (f : Mrpt F) (pq : nat → F) t d :
  well_formed f → t ≤ n_trees f → d ≤ depth f →
  ∃ found,
    mapM (λ n_tree,
        idx_tree ← route_from (default [] (split_points f !! n_tree)) pq
                      n_tree (depth f) d 0 0;
        Some (idx_tree + 1 - 2 ^ d)) (seq 0 t) = Some found
    ∧ length found = t
    ∧ ∀ n_tree, n_tree < t → found !! n_tree = leaf_at f pq n_tree d.
Proof.
  intros Hwf Ht Hd.
  destruct (mapM _ (seq 0 t)) as [found|] eqn:Hrun.
  2: { apply mapM_None in Hrun. apply list.Exists_exists in Hrun as (n & Hn%elem_of_seq & Hnone).
       destruct (leaf_at_ok f pq n d Hwf ltac:(lia) Hd) as (leaf & Hleaf & _).
       unfold leaf_at in Hleaf. rewrite Hleaf in Hnone. done. }
  exists found. split; [done|]. apply mapM_Some in Hrun.
  assert (length found = t) as Hlen.
  { apply Forall2_length in Hrun. by rewrite length_seq in Hrun. }
  split; [done|]. intros n Hn.
  destruct (lookup_lt_is_Some_2 found n) as [leaf Hleaf]; [lia|].
  destruct (Forall2_lookup_r _ _ _ _ _ Hrun Hleaf) as (n' & Hn' & Hr).
  apply lookup_seq in Hn' as [-> _]. simpl in Hr. rewrite Hleaf. done.
Qed.

(** The vote count over the first trees is the vote count over the points
    of their leaves. *)
Lemma vote_trees_eq (f : Mrpt F) (pq : nat → F) found v cap d (ts : list nat) :
  well_formed f →
  (∀ d, d ≤ depth f →
     leaf_first_indices_all f !! d = Some (count_first_leaf_indices (n_samples f) d)) →
  d ≤ depth f →
  (∀ n, n ∈ ts → n < n_trees f ∧ found !! n = leaf_at f pq n d) →
  ∀ st,
    fold_opt (count_votes_tree (count_first_leaf_indices (n_samples f) d) (tree_leaves f)
                v cap found) ts st
    = fold_opt (cast_vote v cap)
        (mjoin ((λ n_tree, leaf_points_at f pq n_tree d) <$> ts)) st.
Proof.
  intros Hwf Hall Hd. induction ts as [|n ts IH]; intros Hts st; [done|].
  rewrite fmap_cons, fold_opt_cons, mjoin_cons, fold_opt_app.
  destruct (Hts n ltac:(left)) as [Hn Hfound].
  destruct (leaf_points_at_ok f pq n d Hwf Hall Hn Hd)
    as (leaf & indices & b & e & Hleaf & _ & Hidx & _ & Hb & He & Hbe & Hel & _ & ->).
  assert (count_votes_tree (count_first_leaf_indices (n_samples f) d) (tree_leaves f)
            v cap found st n
          = fold_opt (cast_vote v cap) (slab indices b e) st) as ->.
  { unfold count_votes_tree. rewrite Hfound, Hleaf. cbn [mbind option_bind].
    rewrite Hb. cbn [mbind option_bind]. rewrite He. cbn [mbind option_bind].
    rewrite Hidx. cbn [mbind option_bind].
    rewrite fold_positions by lia. by replace (b + (e - b)) with e by lia. }
  destruct (fold_opt _ (slab indices b e) st) as [st'|]; [|done].
  cbn [mbind option_bind]. apply IH. intros n' Hn'. apply Hts. by right.
Qed.

(** [vote] on a forest with its tables, for a number of trees and a depth
    within those grown, from any position [n_elected] that leaves room
    for the points of the leaves. *)
Lemma vote_ok (f : Mrpt F) (pq : nat → F) (v : Z) (n_elected t d : nat) :
  well_formed f →
  (∀ d, d ≤ depth f →
     leaf_first_indices_all f !! d = Some (count_first_leaf_indices (n_samples f) d)) →
  t ≤ n_trees f → d ≤ depth f →
  n_elected + length (routed_at f pq t d) ≤ t * (n_samples f / 2 ^ d + 1) →
  ∃ votes elected,
    vote f pq v n_elected t d = Some (elected, n_elected + length elected)
    ∧ votes_inv (n_samples f) v (routed_at f pq t d) (votes, elected)
    ∧ elected = crossings v [] (routed_at f pq t d).
Proof.
  intros Hwf Hall Ht Hd Hroom. unfold vote.
  rewrite (Hall d Hd). cbn [mbind option_bind].
  destruct (vote_found f pq t d Hwf Ht Hd) as (found & -> & Hlen & Hfound).
  cbn [mbind option_bind].
  rewrite (vote_trees_eq f pq found v _ d (seq 0 t) Hwf Hall Hd).
  2: { intros n Hn%elem_of_seq. split; [lia|]. apply Hfound. lia. }
  fold (routed_at f pq t d).
  destruct (length_routed_at f pq t d Hwf Hall Ht Hd) as [Hcap Hrange].
  destruct (cast_votes_spec (n_samples f) v
              (t * (n_samples f / 2 ^ d + 1) - n_elected) (routed_at f pq t d) []
              (replicate (n_samples f) 0%Z, []))
    as ([votes elected] & Hrun & Hinv & Hel).
  - done.
  - simpl. revert Hroom. generalize (t * (n_samples f / 2 ^ d + 1)). lia.
  - unfold votes_inv. cbn [fst snd]. split_and!.
    + by rewrite length_replicate.
    + intros idx Hidx. by rewrite lookup_replicate_2.
    + constructor.
    + intros idx. rewrite elem_of_nil, occurrences_nil. lia.
    + done.
  - exists votes, elected. rewrite Hrun. cbn [mbind option_bind fst snd] in *.
    split_and!; done.
Qed.

End VoteAt.

Lemma fold_opt_None {A B} (f : B → A → option B) (l : list A) x :
  x ∈ l → (∀ b, f b x = None) → ∀ b, fold_opt f l b = None.
Proof.
  induction l as [|y l IH]; intros Hx Hf b; [by apply elem_of_nil in Hx|].
  rewrite fold_opt_cons. apply elem_of_cons in Hx as [<-|Hx].
  - by rewrite Hf.
  - destruct (f b y) as [b'|]; [|done]. cbn [mbind option_bind]. by apply IH.
Qed.

Section VoteTheorems.
Context {F : Type} `{ScalarLaws F} `{!StdAlgo} `{!StdAlgoLaws} `{!Linalg F}.

(** A forest grown on a new index, with its tables. *)
Lemma grow_tables (n_trees_ depth_ : nat) (density_ : F) (g : Draws F) :
  growable X_cols depth_ →
  ∃ f, grow Mrpt_new n_trees_ depth_ density_ g = Some f
    ∧ well_formed f
    ∧ n_samples f = X_cols ∧ n_trees f = n_trees_ ∧ depth f = depth_
    ∧ density f = density_
    ∧ length (leaf_first_indices_all f) = depth_ + 1
    ∧ (∀ d, d ≤ depth f →
         leaf_first_indices_all f !! d = Some (count_first_leaf_indices (n_samples f) d)).
Proof.
  intros Hgrow.
  destruct (grow_ok n_trees_ depth_ density_ g Hgrow)
    as (f & Hrun & Hwf & Hn & _ & Hnt & Hd & Hdens & _ & _ & Hall & _).
  exists f. split_and!; try done.
  - rewrite Hall. change (map ?f ?l) with (f <$> l).
    rewrite length_fmap, length_seq. lia.
  - intros d Hdd. rewrite Hall, Hn, Hd in *. change (map ?f ?l) with (f <$> l).
    rewrite list_lookup_fmap, lookup_seq_lt by lia. done.
Qed.

(** X15.  [vote] for [t] of the trees and a depth [d] of those grown: the vote
    count stays within the arrays, and the buffer receives, each once and
    in the order in which they get there, exactly the points that lie in
    the leaf of the query at depth [d] in at least [votes_required] of the
    first [t] trees.  With more trees or a greater depth than were grown
    it reads outside the index. *)
Theorem vote_elects_at_any_depth
    (n_trees_ depth_ : nat) (density_ : F) (g : Draws F) :
  growable X_cols depth_ →
  ∃ f, grow Mrpt_new n_trees_ depth_ density_ g = Some f
    ∧ (∀ (pq : nat → F) (v : Z) (t d : nat),
         t ≤ n_trees_ → d ≤ depth_ →
         ∃ elected,
           vote f pq v 0 t d = Some (elected, length elected)
           ∧ NoDup elected
           ∧ (∀ idx, idx ∈ elected ↔
                (1 ≤ v)%Z ∧ (v ≤ Z.of_nat (occurrences idx (routed_at f pq t d)))%Z)
           ∧ elected = crossings v [] (routed_at f pq t d)
           ∧ length elected ≤ t * (X_cols / 2 ^ d + 1)
           ∧ (∀ idx, idx ∈ elected → idx < X_cols)
           ∧ (∀ n_elected,
                n_elected + length (routed_at f pq t d) ≤ t * (X_cols / 2 ^ d + 1) →
                vote f pq v n_elected t d = Some (elected, n_elected + length elected)))
    ∧ (∀ (pq : nat → F) (v : Z) (n_elected t d : nat),
         n_trees_ < t ∨ depth_ < d → vote f pq v n_elected t d = None).
Proof.
  intros Hgrow.
  destruct (grow_tables n_trees_ depth_ density_ g Hgrow)
    as (f & Hrun & Hwf & Hn & Hnt & Hd & _ & Htl & Hall).
  exists f. split; [done|]. split.
  - intros pq v t d Ht Hdd.
    destruct (length_routed_at f pq t d Hwf Hall ltac:(lia) ltac:(lia)) as [Hcap Hrange].
    destruct (vote_ok f pq v 0 t d Hwf Hall ltac:(lia) ltac:(lia) ltac:(simpl; lia))
      as (votes & elected & Hrun0 & (_ & _ & Hnd & Hel & Hsz) & Hcross).
    cbn [fst snd] in *. rewrite Hn in Hcap, Hrange.
    exists elected. split_and!; try done.
    + lia.
    + intros idx Hidx. apply Hrange. apply occurrences_pos.
      apply Hel in Hidx. lia.
    + intros n0 Hroom.
      destruct (vote_ok f pq v n0 t d Hwf Hall ltac:(lia) ltac:(lia)
                  ltac:(rewrite Hn; lia))
        as (votes' & elected' & Hrun' & _ & Hcross').
      rewrite Hrun'. by rewrite Hcross, Hcross'.
  - intros pq v n0 t d Hout. unfold vote.
    destruct (decide (depth_ < d)) as [Hdd|Hdd].
    { rewrite lookup_ge_None_2 by lia. done. }
    destruct Hout as [Ht|?]; [|done].
    destruct (_ !! d) as [lfi|]; [|done]. cbn [mbind option_bind].
    destruct (mapM _ _) as [found|]; [|done]. cbn [mbind option_bind].
    rewrite (fold_opt_None _ _ n_trees_); [done|apply elem_of_seq; lia|].
    intros st. unfold count_votes_tree.
    destruct (found !! n_trees_) as [leaf|]; [|done]. cbn [mbind option_bind].
    destruct (lfi !! leaf) as [b|]; [|done]. cbn [mbind option_bind].
    destruct (lfi !! (leaf + 1)) as [e|]; [|done]. cbn [mbind option_bind].
    rewrite (lookup_ge_None_2 (tree_leaves f)); [done|].
    rewrite (wf_leaves_length f Hwf). lia.
Qed.

(** X16.  With all the trees and the full depth, [vote] on the projected query
    elects what the vote count of [query] elects. *)
Theorem vote_at_full_depth_is_the_vote_of_query
    (n_trees_ depth_ : nat) (density_ : F) (g : Draws F) :
  growable X_cols depth_ →
  ∃ f, grow Mrpt_new n_trees_ depth_ density_ g = Some f
    ∧ ∀ (q : query_vec) (v : Z),
        ∃ found votes elected,
          found_leaves_of f q = Some found
          ∧ count_votes f found v = Some (votes, elected)
          ∧ vote f (project_query f q) v 0 n_trees_ depth_
            = Some (elected, length elected).
Proof.
  intros Hgrow.
  destruct (grow_tables n_trees_ depth_ density_ g Hgrow)
    as (f & Hrun & Hwf & Hn & Hnt & Hd & _ & Htl & Hall).
  exists f. split; [done|]. intros q v.
  destruct (found_leaves_ok f q Hwf) as (found & Hfound & Hlen & Hleaf).
  destruct (count_votes_ok f found v Hwf Hleaf Hlen)
    as (votes & elected & Hcount & _ & Hcross & _).
  set (pq := project_query f q).
  destruct (length_routed_at f pq n_trees_ depth_ Hwf Hall ltac:(lia) ltac:(lia))
    as [Hcap _].
  destruct (vote_ok f pq v 0 n_trees_ depth_ Hwf Hall ltac:(lia) ltac:(lia)
              ltac:(simpl; lia))
    as (votes' & elected' & Hrun' & _ & Hcross').
  exists found, votes, elected. split_and!; [done..|].
  rewrite Hrun'. simpl.
  assert (routed_at f pq n_trees_ depth_ = routed f found) as Heq; [|congruence].
  unfold routed_at, routed. rewrite Hnt. f_equal.
  apply list_fmap_ext. intros i n Hi. apply lookup_seq in Hi as [Hni Hi].
  simpl in Hni. subst i.
  unfold found_leaves_of in Hfound. apply mapM_Some in Hfound.
  destruct (lookup_lt_is_Some_2 found n) as [leaf Hlk]; [lia|].
  destruct (Forall2_lookup_r _ _ _ _ _ Hfound Hlk) as (n' & Hn' & Hr).
  apply lookup_seq in Hn' as [-> _]. simpl in Hr.
  unfold leaf_points_at, routed_slab, leaf_at. rewrite Hlk.
  unfold found_leaf in Hr. rewrite <- Hd.
  destruct (split_points f !! n) as [col|]; [|done].
  cbn [mbind option_bind default from_option id] in *.
  fold pq. unfold pq, project_query. unfold projected_query_of in Hr.
  destruct (route_from col _ n (depth f) (depth f) 0 0) as [r|]; [|done].
  cbn [mbind option_bind] in *. injection Hr as <-.
  rewrite (Hall (depth f)) by lia. cbn [mbind option_bind].
  rewrite (wf_lfi f Hwf). done.
Qed.

End VoteTheorems.

(** ** The statistics that the tuner gathers *)

(** *** Counting under a predicate that changes at one point *)

Lemma length_filter_same {A} (P P' : A → Prop) `{!∀ x, Decision (P x)}
    `{!∀ x, Decision (P' x)} (l : list A) :
  (∀ y, y ∈ l → (P' y ↔ P y)) → length (filter P' l) = length (filter P l).
Proof.
  induction l as [|y l IH]; intros Hiff; [done|].
  rewrite !filter_cons.
  pose proof (Hiff y ltac:(left)) as Hy.
  specialize (IH ltac:(intros z Hz; apply Hiff; by right)).
  destruct (decide (P' y)), (decide (P y)); simpl; tauto || lia.
Qed.

Lemma length_filter_add {A} (P P' : A → Prop) `{!∀ x, Decision (P x)}
    `{!∀ x, Decision (P' x)} (l : list A) (x : A) :
  NoDup l → x ∈ l → (∀ y, y ≠ x → (P' y ↔ P y)) → ¬ P x → P' x →
  length (filter P' l) = S (length (filter P l)).
Proof.
  induction 1 as [|y l Hy Hnd IH]; intros Hx Hiff Hnp Hp; [by apply elem_of_nil in Hx|].
  rewrite !filter_cons. apply elem_of_cons in Hx as [<-|Hx].
  - destruct (decide (P' x)); [|done]. destruct (decide (P x)); [done|]. simpl.
    f_equal. apply length_filter_same. intros z Hz. apply Hiff. by intros ->.
  - specialize (IH Hx Hiff Hnp Hp).
    assert (y ≠ x) as Hne by (by intros ->).
    pose proof (Hiff y Hne) as Hyy.
    destruct (decide (P' y)), (decide (P y)); simpl; tauto || lia.
Qed.

Lemma occurrences_snoc idx seen x :
  occurrences idx (seen ++ [x])
  = occurrences idx seen + (if decide (x = idx) then 1 else 0).
Proof. by rewrite occurrences_app, occurrences_singleton. Qed.

(** A vote for [idx] moves [idx], and nothing else, from the points with
    [occurrences idx seen] votes to the points with one more. *)
Lemma at_least_snoc (n v : nat) (seen : list nat) (idx : nat) :
  idx < n →
  at_least n v (seen ++ [idx])
  = at_least n v seen + (if decide (v = S (occurrences idx seen)) then 1 else 0).
Proof.
  intros Hidx. unfold at_least. destruct (decide (v = S (occurrences idx seen))) as [->|Hv].
  - rewrite Nat.add_1_r. apply (length_filter_add _ _ _ idx).
    + apply NoDup_seq.
    + apply elem_of_seq. lia.
    + intros y Hy. rewrite occurrences_snoc. destruct (decide (idx = y)); [done|].
      by rewrite Nat.add_0_r.
    + lia.
    + rewrite occurrences_snoc. destruct (decide (idx = idx)); [lia|done].
  - rewrite Nat.add_0_r. apply length_filter_same.
    intros y _. rewrite occurrences_snoc. destruct (decide (idx = y)) as [->|]; lia.
Qed.

Lemma at_least_in_snoc (exact : list Z) (n v : nat) (seen : list nat) (idx : nat) :
  idx < n →
  at_least_in exact n v (seen ++ [idx])
  = at_least_in exact n v seen
    + (if decide (v = S (occurrences idx seen) ∧ Z.of_nat idx ∈ exact) then 1 else 0).
Proof.
  intros Hidx. unfold at_least_in.
  destruct (decide (v = S (occurrences idx seen) ∧ Z.of_nat idx ∈ exact)) as [[-> Hin]|Hv].
  - rewrite Nat.add_1_r.
    apply (length_filter_add (λ i, S (occurrences idx seen) ≤ occurrences i seen
                                   ∧ Z.of_nat i ∈ exact) _ _ idx).
    + apply NoDup_seq.
    + apply elem_of_seq. lia.
    + intros y Hy. rewrite occurrences_snoc. destruct (decide (idx = y)); [done|].
      by rewrite Nat.add_0_r.
    + lia.
    + rewrite occurrences_snoc. destruct (decide (idx = idx)); [|done]. split; [lia|done].
  - rewrite Nat.add_0_r.
    apply length_filter_same.
    intros y _. rewrite occurrences_snoc. destruct (decide (idx = y)) as [->|].
    + split; intros [? ?]; (split; [|done]); [|lia].
      destruct (decide (v = S (occurrences y seen))) as [->|]; [|lia].
      destruct Hv. done.
    + by rewrite Nat.add_0_r.
Qed.

Lemma at_least_nil (n v : nat) : 1 ≤ v → at_least n v [] = 0.
Proof.
  intros Hv. unfold at_least. rewrite filter_none; [done|].
  intros y _. rewrite occurrences_nil. lia.
Qed.

Lemma at_least_in_nil (exact : list Z) (n v : nat) : 1 ≤ v → at_least_in exact n v [] = 0.
Proof.
  intros Hv. unfold at_least_in. rewrite filter_none; [done|].
  intros y _. rewrite occurrences_nil. lia.
Qed.

(** *** The innermost loop *)

Section CountPoints.
Context (exact : list Z) (n votes_max : nat).

Lemma count_elected_point_step (seen : list nat) st (idx : nat) :
  idx < n → count_inv exact n votes_max seen st →
  ∃ st', count_elected_point exact votes_max st idx = Some st'
       ∧ count_inv exact n votes_max (seen ++ [idx]) st'.
Proof.
  intros Hidx (Hlen & Hvotes & Hrl & Hcl & Hcols).
  destruct st as [[votes rcol] ccol]. cbn [fst snd] in *.
  unfold count_elected_point. cbn [fst snd].
  rewrite (Hvotes idx Hidx). cbn [mbind option_bind].
  set (v0 := occurrences idx seen).
  assert (∀ idx', idx' < n →
            <[idx:=S v0]> votes !! idx' = Some (occurrences idx' (seen ++ [idx]))) as Hvotes'.
  { intros idx' Hidx'. rewrite occurrences_snoc.
    destruct (decide (idx = idx')) as [<-|Hne].
    - rewrite list_lookup_insert_eq by lia. f_equal. fold v0. lia.
    - rewrite list_lookup_insert_ne by done. rewrite Hvotes by done. f_equal. lia. }
  destruct (Nat.leb_spec (S v0) votes_max) as [Hle|Hgt].
  - destruct (Hcols (S v0) ltac:(lia) Hle) as [Hr Hc].
    rewrite Hc. cbn [mbind option_bind].
    destruct (bool_decide (Z.of_nat idx ∈ exact)) eqn:Hex.
    + apply bool_decide_eq_true in Hex. rewrite Hr. cbn [mbind option_bind].
      eexists. split; [reflexivity|]. unfold count_inv. cbn [fst snd].
      rewrite !length_insert. split_and!; [done..|].
      intros v Hv1 Hv. destruct (Hcols v Hv1 Hv) as [Hr' Hc'].
      rewrite at_least_snoc, at_least_in_snoc by done. fold v0.
      destruct (decide (v = S v0)) as [->|Hne].
      * rewrite !list_lookup_insert_eq by lia.
        destruct (decide (S v0 = S v0 ∧ Z.of_nat idx ∈ exact)) as [_|[]]; [|done].
        split; f_equal; lia.
      * rewrite !list_lookup_insert_ne by lia.
        destruct (decide (v = S v0 ∧ Z.of_nat idx ∈ exact)) as [[? _]|_]; [done|].
        rewrite Hr', Hc'. split; f_equal; lia.
    + apply bool_decide_eq_false in Hex.
      eexists. split; [reflexivity|]. unfold count_inv. cbn [fst snd].
      rewrite !length_insert. split_and!; [done..|].
      intros v Hv1 Hv. destruct (Hcols v Hv1 Hv) as [Hr' Hc'].
      rewrite at_least_snoc, at_least_in_snoc by done. fold v0.
      destruct (decide (v = S v0 ∧ Z.of_nat idx ∈ exact)) as [[_ ?]|_]; [done|].
      rewrite Hr'. split; [f_equal; lia|].
      destruct (decide (v = S v0)) as [->|Hne].
      * rewrite list_lookup_insert_eq by lia. f_equal. lia.
      * rewrite list_lookup_insert_ne by lia. rewrite Hc'. f_equal. lia.
  - eexists. split; [reflexivity|]. unfold count_inv. cbn [fst snd].
    rewrite !length_insert. split_and!; [done..|].
    intros v Hv1 Hv. destruct (Hcols v Hv1 Hv) as [Hr' Hc'].
    rewrite at_least_snoc, at_least_in_snoc by done. fold v0.
    destruct (decide (v = S v0 ∧ Z.of_nat idx ∈ exact)) as [[? _]|_]; [lia|].
    destruct (decide (v = S v0)) as [?|_]; [lia|].
    rewrite Hr', Hc'. split; f_equal; lia.
Qed.

Lemma count_elected_points (visits : list nat) : ∀ seen st,
  (∀ idx, idx ∈ visits → idx < n) → count_inv exact n votes_max seen st →
  ∃ st', fold_opt (count_elected_point exact votes_max) visits st = Some st'
       ∧ count_inv exact n votes_max (seen ++ visits) st'.
Proof.
  induction visits as [|idx visits IH]; intros seen st Hrange Hinv.
  - exists st. by rewrite app_nil_r.
  - rewrite fold_opt_cons.
    destruct (count_elected_point_step seen st idx ltac:(apply Hrange; left) Hinv)
      as (st1 & -> & Hinv1).
    cbn [mbind option_bind].
    destruct (IH (seen ++ [idx]) st1 ltac:(intros i Hi; apply Hrange; by right) Hinv1)
      as (st' & Hrun & Hinv').
    exists st'. split; [done|]. by rewrite <- app_assoc in Hinv'.
Qed.

End CountPoints.

(** *** The leaves of the query at every depth *)

Section StartIndices.
Context {F : Type} `{Scalar F}.

Lemma route_from_snoc (col : list F) (pq : nat → F) n stride rem : ∀ d idx,
  route_from col pq n stride (S rem) d idx
  = r ← route_from col pq n stride rem d idx;
    split_point ← col !! r;
    Some (if fle (pq (n * stride + (d + rem))) split_point
          then 2 * r + 1 else 2 * r + 1 + 1).
Proof.
  induction rem as [|rem IH]; intros d idx.
  - cbn [route_from mbind option_bind]. rewrite Nat.add_0_r. done.
  - change (route_from col pq n stride (S (S rem)) d idx)
      with (split_point ← col !! idx;
            route_from col pq n stride (S rem) (S d)
              (if fle (pq (n * stride + d)) split_point
               then 2 * idx + 1 else 2 * idx + 1 + 1)).
    change (route_from col pq n stride (S rem) d idx)
      with (split_point ← col !! idx;
            route_from col pq n stride rem (S d)
              (if fle (pq (n * stride + d)) split_point
               then 2 * idx + 1 else 2 * idx + 1 + 1)).
    destruct (col !! idx) as [s|]; [|done]. cbn [mbind option_bind].
    rewrite IH. replace (S d + rem) with (d + S rem) by lia. done.
Qed.

(** [start_indices[n_tree]] holds, for each depth from [depth_min] to
    [depth], the leaf that the descent of that many levels reaches. *)
Lemma start_indices_of_ok (col : list F) (pq : nat → F) n depth_ depth_min :
  2 ^ depth_ ≤ length col + 1 → depth_min ≤ depth_ + 1 →
  ∃ si, start_indices_of col pq n depth_ depth_min = Some si
      ∧ length si = depth_ + 1 - depth_min
      ∧ ∀ l, depth_min ≤ l → l ≤ depth_ →
          ∃ r, route_from col pq n depth_ l 0 0 = Some r
             ∧ si !! (l - depth_min) = Some (r + 1 - 2 ^ l).
Proof.
  intros Hcol Hmin. unfold start_indices_of.
  set (step := λ (st : nat * list nat) d, _).
  assert (∀ d', d' ≤ depth_ →
    ∃ r si, fold_opt step (seq 0 d') (0, replicate (depth_ + 1 - depth_min) 0) = Some (r, si)
          ∧ route_from col pq n depth_ d' 0 0 = Some r
          ∧ length si = depth_ + 1 - depth_min
          ∧ ∀ l, depth_min ≤ l → l ≤ d' →
              ∃ rl, route_from col pq n depth_ l 0 0 = Some rl
                  ∧ si !! (l - depth_min) = Some (rl + 1 - 2 ^ l)) as Hloop.
  { induction d' as [|d' IH]; intros Hd'.
    - eexists 0, _. split; [reflexivity|]. split; [done|].
      split; [by rewrite length_replicate|].
      intros l Hl1 Hl2. assert (l = 0) as -> by lia. exists 0. split; [done|].
      rewrite lookup_replicate_2 by lia. done.
    - destruct (IH ltac:(lia)) as (r & si & Hfold & Hroute & Hlen & Hsi).
      rewrite seq_S, fold_opt_app, Hfold. cbn [mbind option_bind Nat.add].
      rewrite fold_opt_cons. cbn [fold_opt].
      destruct (route_levels col pq n depth_ d' 0 0) as (r' & Hr' & Hlo & Hhi).
      { simpl. assert (2 ^ d' ≤ 2 ^ depth_) by (apply Nat.pow_le_mono_r; lia). lia. }
      { compute. lia. } { compute. lia. }
      rewrite Hroute in Hr'. injection Hr' as <-. simpl in Hlo, Hhi.
      assert (2 ^ (d' + 1) ≤ 2 ^ depth_) by (apply Nat.pow_le_mono_r; lia).
      destruct (lookup_lt_is_Some_2 col r) as [s Hs]; [lia|].
      unfold step at 1. cbn [fst snd]. rewrite Hs. cbn [mbind option_bind].
      set (r1 := if fle (pq (n * depth_ + d')) s then 2 * r + 1 else 2 * r + 1 + 1).
      assert (route_from col pq n depth_ (S d') 0 0 = Some r1) as Hroute1.
      { rewrite route_from_snoc, Hroute. cbn [mbind option_bind].
        rewrite Hs. done. }
      destruct (Nat.leb_spec depth_min (d' + 1)) as [Hle|Hgt].
      + rewrite option_guard_True by lia. cbn [mbind option_bind].
        eexists _, _. split; [reflexivity|]. split; [done|].
        split; [by rewrite length_insert|].
        intros l Hl1 Hl2. destruct (decide (l = S d')) as [->|Hne].
        * exists r1. split; [done|].
          replace (S d' - depth_min) with (d' + 1 - depth_min) by lia.
          rewrite list_lookup_insert_eq by lia.
          by replace (d' + 1) with (S d') by lia.
        * destruct (Hsi l Hl1 ltac:(lia)) as (rl & Hrl & Hlk).
          exists rl. split; [done|].
          rewrite list_lookup_insert_ne by lia. done.
      + eexists _, _. split; [reflexivity|]. split; [done|]. split; [done|].
        intros l Hl1 Hl2. lia. }
  destruct (Hloop depth_ ltac:(lia)) as (r & si & -> & _ & Hlen & Hsi).
  cbn [mbind option_bind snd]. exists si. split_and!; done.
Qed.

End StartIndices.

(** *** The loop over the trees *)

Section CountTrees.
Context {F : Type} `{Scalar F}.

Lemma routed_at_S (f : Mrpt F) (pq : nat → F) t d :
  routed_at f pq (S t) d = routed_at f pq t d ++ leaf_points_at f pq t d.
Proof.
  unfold routed_at. rewrite seq_S, fmap_app, join_app. simpl.
  by rewrite app_nil_r.
Qed.

(** After the first [t] trees at depth [l]: the votes count the points of
    the leaves of these trees, and column [j] of both matrices holds the
    counts for the first [j + 1] trees. *)
Lemma count_elected_trees (f : Mrpt F) (pq : nat → F) (exact : list Z)
    (votes_max : nat) (start_indices : list (list nat)) (depth_min l : nat) :
  well_formed f →
  (∀ d, d ≤ depth f →
     leaf_first_indices_all f !! d = Some (count_first_leaf_indices (n_samples f) d)) →
  depth_min ≤ l → l ≤ depth f →
  (∀ n, n < n_trees f →
     ∃ si, start_indices !! n = Some si
         ∧ si !! (l - depth_min) = leaf_at f pq n l) →
  ∀ t, t ≤ n_trees f →
    ∃ votes rcols ccols rc0 cc0,
      fold_opt (count_elected_tree (count_first_leaf_indices (n_samples f) l)
                  (tree_leaves f) exact votes_max start_indices (l - depth_min))
        (seq 0 t) (replicate (n_samples f) 0, [], []) = Some (votes, rcols, ccols)
      ∧ length rcols = t ∧ length ccols = t
      ∧ count_inv exact (n_samples f) votes_max (routed_at f pq t l) (votes, rc0, cc0)
      ∧ (∀ j, j < t →
           ∃ vj rc cc, rcols !! j = Some rc ∧ ccols !! j = Some cc
                     ∧ count_inv exact (n_samples f) votes_max
                         (routed_at f pq (S j) l) (vj, rc, cc))
      ∧ (0 < t → rcols !! (t - 1) = Some rc0 ∧ ccols !! (t - 1) = Some cc0)
      ∧ (t = 0 → rc0 = replicate votes_max 0 ∧ cc0 = replicate votes_max 0).
Proof.
  intros Hwf Hall Hmin Hl Hsi. induction t as [|t IH]; intros Ht.
  - eexists _, [], [], (replicate votes_max 0), (replicate votes_max 0).
    split; [reflexivity|]. split_and!; try done; try lia.
    unfold count_inv, routed_at. cbn [fst snd seq fmap list_fmap mjoin list_join].
    rewrite !length_replicate. split_and!; [done| |done|done|].
    + intros idx Hidx. rewrite lookup_replicate_2 by done. by rewrite occurrences_nil.
    + intros v Hv1 Hv. rewrite !lookup_replicate_2 by lia.
      by rewrite at_least_nil, at_least_in_nil.
  - destruct (IH ltac:(lia))
      as (votes & rcols & ccols & rc0 & cc0 & Hfold & Hrl & Hcl & Hinv & Hcols & Hlast & Hzero).
    rewrite seq_S, fold_opt_app, Hfold. cbn [mbind option_bind Nat.add].
    rewrite fold_opt_cons. cbn [fold_opt].
    destruct (Hsi t ltac:(lia)) as (si & Hsit & Hleafat).
    destruct (leaf_points_at_ok f pq t l Hwf Hall ltac:(lia) Hl)
      as (leaf & indices & b & e & Hleaf & _ & Hidx & Hperm & Hb & He & Hbe & Hel & _ & Hpts).
    unfold count_elected_tree at 1. cbn [fst snd].
    rewrite Hsit. cbn [mbind option_bind].
    assert ((if t =? 0 then Some (replicate votes_max 0) else rcols !! (t - 1)) = Some rc0
            ∧ (if t =? 0 then Some (replicate votes_max 0) else ccols !! (t - 1)) = Some cc0)
      as [-> ->].
    { destruct (Nat.eqb_spec t 0) as [->|Hne].
      - destruct Hzero as [-> ->]; done.
      - apply Hlast. lia. }
    cbn [mbind option_bind]. rewrite Hleafat, Hleaf. cbn [mbind option_bind].
    rewrite Hb. cbn [mbind option_bind]. rewrite He. cbn [mbind option_bind].
    rewrite Hidx. cbn [mbind option_bind].
    rewrite fold_positions by lia. replace (b + (e - b)) with e by lia.
    destruct (count_elected_points exact (n_samples f) votes_max (slab indices b e)
                (routed_at f pq t l) (votes, rc0, cc0))
      as ([[votes' rc'] cc'] & -> & Hinv').
    { intros idx (p & _ & Hp)%elem_of_slab.
      apply list_elem_of_lookup_2 in Hp. rewrite Hperm in Hp.
      apply elem_of_seq in Hp. lia. }
    { done. }
    cbn [mbind option_bind fst snd].
    rewrite <- Hpts, <- routed_at_S in Hinv'.
    exists votes', (rcols ++ [rc']), (ccols ++ [cc']), rc', cc'.
    split; [done|]. rewrite !length_app, Hrl, Hcl. cbn [length].
    split_and!; [lia|lia|done| | |lia].
    + intros j Hj. destruct (decide (j = t)) as [->|Hne].
      * exists votes', rc', cc'.
        rewrite !lookup_app_r by lia. rewrite Hrl, Hcl, Nat.sub_diag. done.
      * destruct (Hcols j ltac:(lia)) as (vj & rc & cc & Hr & Hc & Hj').
        exists vj, rc, cc. rewrite !lookup_app_l by lia. done.
    + intros _. replace (S t - 1) with t by lia.
      rewrite !lookup_app_r by lia. rewrite Hrl, Hcl, Nat.sub_diag. done.
Qed.

End CountTrees.

(** The points with at least [v >= 1] votes are the elected ones. *)
Lemma elected_count (exact : list Z) (n v : nat) (seen elected : list nat) :
  1 ≤ v → NoDup elected →
  (∀ idx, idx ∈ elected ↔ v ≤ occurrences idx seen) →
  (∀ idx, idx ∈ seen → idx < n) →
  at_least n v seen = length elected
  ∧ at_least_in exact n v seen
    = length (filter (λ idx, Z.of_nat idx ∈ exact) elected).
Proof.
  intros Hv Hnd Hel Hrange.
  assert (filter (λ idx, v ≤ occurrences idx seen) (seq 0 n) ≡ₚ elected) as Hperm.
  { apply NoDup_Permutation; [apply list.NoDup_filter, NoDup_seq|done|].
    intros idx. rewrite list_elem_of_filter, Hel, elem_of_seq. split; [tauto|].
    intros Hocc. split; [done|]. split; [lia|].
    apply Hrange, occurrences_pos. lia. }
  split.
  - unfold at_least. by rewrite Hperm.
  - unfold at_least_in. rewrite <- Hperm, list_filter_filter.
    apply length_filter_same. intros y _. tauto.
Qed.

Section CountElectedTheorem.
Context {F : Type} `{ScalarLaws F} `{!StdAlgo} `{!StdAlgoLaws} `{!Linalg F}.

(** X17.  The statistics of [count_elected] are the candidate set sizes of
    [vote]: for every depth [d] of the [n_depths] deepest, every number
    [t + 1] of trees and every threshold [v] from 1 to [votes_max], entry
    (v - 1, t) of [cs_sizes[d - depth_min]] is the number of points that
    [vote] elects at depth [d] with the first [t + 1] trees and [v] votes
    required, and the same entry of [recalls] is the number of these that
    are among the true neighbours [exact].  Asked for more depths than
    [depth + 1], [count_elected] reads before the first table. *)
Theorem count_elected_counts_what_vote_elects
    (n_trees_ depth_ : nat) (density_ : F) (g : Draws F) :
  growable X_cols depth_ → 1 ≤ n_trees_ →
  ∃ f, grow Mrpt_new n_trees_ depth_ density_ g = Some f
    ∧ (∀ (q : query_vec) (exact : list Z) (votes_max n_depths : nat),
         n_depths ≤ depth_ + 1 →
         ∃ recalls cs_sizes,
           count_elected f q exact votes_max n_depths = Some (recalls, cs_sizes)
           ∧ length recalls = n_depths ∧ length cs_sizes = n_depths
           ∧ ∀ d t v,
               depth_ + 1 - n_depths ≤ d → d ≤ depth_ → t < n_trees_ →
               1 ≤ v → v ≤ votes_max →
               ∃ elected recall recall_col candidate_set_size cs_col,
                 vote f (projected_query_of f q) (Z.of_nat v) 0 (S t) d
                 = Some (elected, length elected)
                 ∧ recalls !! (d - (depth_ + 1 - n_depths)) = Some recall
                 ∧ length recall = n_trees_
                 ∧ recall !! t = Some recall_col
                 ∧ length recall_col = votes_max
                 ∧ recall_col !! (v - 1)
                   = Some (length (filter (λ idx, Z.of_nat idx ∈ exact) elected))
                 ∧ cs_sizes !! (d - (depth_ + 1 - n_depths)) = Some candidate_set_size
                 ∧ length candidate_set_size = n_trees_
                 ∧ candidate_set_size !! t = Some cs_col
                 ∧ length cs_col = votes_max
                 ∧ cs_col !! (v - 1) = Some (length elected))
    ∧ (∀ (q : query_vec) (exact : list Z) (votes_max n_depths : nat),
         depth_ + 1 < n_depths → count_elected f q exact votes_max n_depths = None).
Proof.
  intros Hgrow Htrees.
  destruct (grow_tables n_trees_ depth_ density_ g Hgrow)
    as (f & Hrun & Hwf & Hn & Hnt & Hd & _ & Htl & Hall).
  exists f. split; [done|]. split.
  2: { intros q exact votes_max n_depths Hnd. unfold count_elected.
       rewrite option_guard_False by lia. done. }
  intros q exact votes_max n_depths Hnd. unfold count_elected. cbv zeta.
  set (pq := projected_query_of f q).
  rewrite option_guard_True by lia. cbn [mbind option_bind].
  rewrite Hd. set (depth_min := depth_ + 1 - n_depths).
  (* the leaves at every depth *)
  assert (∀ n, n < n_trees_ →
            ∃ si, start_indices_of (default [] (split_points f !! n)) pq n depth_ depth_min
                  = Some si
                ∧ ∀ l, depth_min ≤ l → l ≤ depth_ →
                    si !! (l - depth_min) = leaf_at f pq n l) as Hstart.
  { intros n Hnlt.
    destruct (lookup_lt_is_Some_2 (split_points f) n) as [col Hcol].
    { rewrite (wf_split_length f Hwf). lia. }
    pose proof (wf_split_cols f Hwf col ltac:(by eapply list_elem_of_lookup_2)) as Hlen.
    rewrite (wf_n_array f Hwf), Hd in Hlen.
    rewrite Hcol. cbn [default from_option id].
    assert (2 ^ depth_ ≤ 2 ^ (depth_ + 1)) by (apply Nat.pow_le_mono_r; lia).
    destruct (start_indices_of_ok col pq n depth_ depth_min)
      as (si & Hsi & _ & Hlk); [lia|unfold depth_min; lia|].
    exists si. split; [done|]. intros l Hl1 Hl2.
    destruct (Hlk l Hl1 Hl2) as (r & Hr & ->).
    unfold leaf_at. rewrite Hcol, Hd. cbn [default from_option id].
    rewrite Hr. done. }
  rewrite Hnt.
  destruct (mapM _ (seq 0 n_trees_)) as [start_indices|] eqn:Hsi.
  2: { apply mapM_None in Hsi.
       apply list.Exists_exists in Hsi as (n & Hnin%elem_of_seq & Hnone).
       destruct (Hstart n ltac:(lia)) as (si & Hs & _). rewrite Hs in Hnone. done. }
  cbn [mbind option_bind]. apply mapM_Some in Hsi.
  assert (∀ l, depth_min ≤ l → l ≤ depth_ →
            ∀ n, n < n_trees f →
              ∃ si, start_indices !! n = Some si
                  ∧ si !! (l - depth_min) = leaf_at f pq n l) as Hsi'.
  { intros l Hl1 Hl2 n Hnlt. rewrite Hnt in Hnlt.
    destruct (Hstart n Hnlt) as (si & Hs & Hlk).
    destruct (Forall2_lookup_l _ _ _ _ _ Hsi (lookup_seq_lt 0 n_trees_ n Hnlt))
      as (si' & Hsi2 & Hsi3).
    simpl in Hsi3. rewrite Hs in Hsi3. injection Hsi3 as <-.
    exists si. split; [done|]. by apply Hlk. }
  (* the matrices of every depth *)
  assert (∀ l, depth_min ≤ l → l ≤ depth_ →
            ∃ rcols ccols,
              count_elected_depth f exact votes_max start_indices depth_min l
              = Some (rcols, ccols)
              ∧ length rcols = n_trees_ ∧ length ccols = n_trees_
              ∧ ∀ t, t < n_trees_ →
                  ∃ vt rc cc, rcols !! t = Some rc ∧ ccols !! t = Some cc
                            ∧ count_inv exact (n_samples f) votes_max
                                (routed_at f pq (S t) l) (vt, rc, cc)) as Hdepth.
  { intros l Hl1 Hl2. unfold count_elected_depth.
    rewrite (Hall l) by lia. cbn [mbind option_bind].
    rewrite option_guard_True by lia. cbn [mbind option_bind].
    destruct (count_elected_trees f pq exact votes_max start_indices depth_min l Hwf Hall
                Hl1 ltac:(lia) (Hsi' l Hl1 Hl2) (n_trees f) ltac:(lia))
      as (votes & rcols & ccols & rc0 & cc0 & Hfold & Hrl & Hcl & _ & Hcols & _).
    rewrite Hfold. cbn [mbind option_bind fst snd].
    exists rcols, ccols. rewrite Hnt in *. split_and!; done. }
  destruct (mapM _ (seq depth_min _)) as [ms|] eqn:Hms.
  2: { apply mapM_None in Hms.
       apply list.Exists_exists in Hms as (l & Hl%elem_of_seq & Hnone).
       destruct (Hdepth l ltac:(lia) ltac:(unfold depth_min in *; lia))
         as (? & ? & Hs & _).
       rewrite Hs in Hnone. done. }
  cbn [mbind option_bind]. apply mapM_Some in Hms.
  pose proof Hms as Hlen. apply Forall2_length in Hlen. rewrite length_seq in Hlen.
  eexists _, _. split; [reflexivity|].
  rewrite !length_fmap. split_and!; [unfold depth_min in *; lia..|].
  intros d t v Hd1 Hd2 Ht Hv1 Hv.
  destruct (Hdepth d Hd1 Hd2) as (rcols & ccols & Hrun_d & Hrl & Hcl & Hcols).
  assert (ms !! (d - depth_min) = Some (rcols, ccols)) as Hmd.
  { assert (seq depth_min (depth_ + 1 - depth_min) !! (d - depth_min) = Some d) as Hlk.
    { rewrite lookup_seq_lt by (unfold depth_min in *; lia). f_equal. lia. }
    destruct (Forall2_lookup_l _ _ _ _ _ Hms Hlk) as (m & Hm & Hrun_m).
    rewrite Hrun_d in Hrun_m. by injection Hrun_m as <-. }
  destruct (Hcols t Ht) as (vt & rc & cc & Hrc & Hcc & Hinv).
  destruct Hinv as (_ & _ & Hrcl & Hccl & Hcounts). cbn [fst snd] in *.
  destruct (Hcounts v Hv1 Hv) as [Hr Hc].
  destruct (length_routed_at f pq (S t) d Hwf Hall ltac:(lia) ltac:(lia)) as [Hcap Hrange].
  destruct (vote_ok f pq (Z.of_nat v) 0 (S t) d Hwf Hall ltac:(lia) ltac:(lia)
              ltac:(simpl; lia))
    as (votes & elected & Hvote & (_ & _ & Hnodup & Hel & _) & _).
  cbn [fst snd] in *.
  destruct (elected_count exact (n_samples f) v (routed_at f pq (S t) d) elected Hv1 Hnodup)
    as [Ecs Erec].
  { intros idx. rewrite Hel. lia. }
  { done. }
  exists elected, rcols, rc, ccols, cc.
  rewrite !list_lookup_fmap, Hmd. cbn [fmap option_fmap option_map fst snd].
  rewrite Hr, Hc, Ecs, Erec. split_and!; done.
Qed.

End CountElectedTheorem.

(** ** The sparse random matrix *)

Section SparseBuild.
Context {F : Type} `{Scalar F}.






End SparseBuild.

(** ** One neighbour *)

Section OneNeighbour.
Context {F : Type} `{ScalarLaws F} `{!StdAlgo} `{!StdAlgoLaws} `{!Linalg F}.

(** [minCoeff] returns the first position of a least coefficient. *)
Lemma minCoeff_from_first (l pre : list F) best_pos best :
  pre !! best_pos = Some best →
  (∀ v, v ∈ pre → fle best v = true) →
  (∀ p v, p < best_pos → pre !! p = Some v → flt best v = true) →
  ∃ v, (pre ++ l) !! minCoeff_from best_pos best (length pre) l = Some v
       ∧ (∀ v', v' ∈ pre ++ l → fle v v' = true)
       ∧ ∀ p v', p < minCoeff_from best_pos best (length pre) l →
           (pre ++ l) !! p = Some v' → flt v v' = true.
Proof.
  revert pre best_pos best.
  induction l as [|y l IH]; intros pre best_pos best Hb Hmin Hfirst.
  - exists best. rewrite app_nil_r. done.
  - cbn [minCoeff_from]. destruct (flt y best) eqn:Hlt.
    + specialize (IH (pre ++ [y]) (length pre) y).
      rewrite length_app in IH. cbn [length] in IH.
      replace (length pre + 1) with (S (length pre)) in IH by lia.
      rewrite <- app_assoc in IH. apply IH.
      * by rewrite lookup_app_r, Nat.sub_diag.
      * intros v [Hv| ->%list_elem_of_singleton]%elem_of_app; [|apply fle_refl].
        eapply fle_trans; [by apply flt_true_fle|by apply Hmin].
      * intros p v Hp Hv. rewrite lookup_app_l in Hv by done.
        eapply flt_fle_trans; [exact Hlt|]. apply Hmin.
        by eapply list_elem_of_lookup_2.
    + specialize (IH (pre ++ [y]) best_pos best).
      rewrite length_app in IH. cbn [length] in IH.
      replace (length pre + 1) with (S (length pre)) in IH by lia.
      rewrite <- app_assoc in IH. apply IH.
      * rewrite lookup_app_l; [done|]. by eapply lookup_lt_Some.
      * intros v [Hv| ->%list_elem_of_singleton]%elem_of_app; [by apply Hmin|].
        by apply flt_false_fle.
      * intros p v Hp Hv. pose proof (lookup_lt_Some _ _ _ Hb) as Hbp.
        rewrite lookup_app_l in Hv by lia. by eapply Hfirst.
Qed.

(** X19.  [exact_knn] for one neighbour: of the candidates at the least
    distance it returns the one that comes first in the candidate buffer;
    every candidate before it is strictly farther.  Without candidates it
    writes -1. *)
Theorem exact_knn_one_takes_the_first_nearest (q : query_vec) (indices : list nat) :
  (indices = [] → exact_knn q 1 indices = Some ([(-1)%Z], [fneg1]))
  ∧ (indices ≠ [] →
       ∃ p c,
         indices !! p = Some c
         ∧ exact_knn q 1 indices = Some ([Z.of_nat c], [fsqrt (squared_dist c q)])
         ∧ (∀ c', c' ∈ indices → fle (squared_dist c q) (squared_dist c' q) = true)
         ∧ ∀ p' c', p' < p → indices !! p' = Some c' →
             flt (squared_dist c q) (squared_dist c' q) = true).
Proof.
  split; [by intros ->|]. intros Hne. unfold exact_knn.
  destruct indices as [|c0 rest] eqn:Hind; [done|]. rewrite <- Hind in *.
  assert (length indices ≠ 0) as Hlen by (rewrite Hind; simpl; lia).
  destruct (Nat.eqb_spec (length indices) 0) as [?|_]; [done|].
  cbn [Z.eqb Pos.eqb].
  remember ((λ i, squared_dist i q) <$> indices) as distances eqn:Hdist.
  assert (∃ v, distances !! minCoeff distances = Some v
             ∧ (∀ v', v' ∈ distances → fle v v' = true)
             ∧ ∀ p v', p < minCoeff distances → distances !! p = Some v' →
                 flt v v' = true) as (v & Hv & Hmin & Hfirst).
  { rewrite Hdist, Hind. cbn [fmap list_fmap minCoeff].
    destruct (minCoeff_from_first ((λ i, squared_dist i q) <$> rest)
                [squared_dist c0 q] 0 (squared_dist c0 q)) as (v & Hv & Hmin & Hfirst).
    - done.
    - intros v ->%list_elem_of_singleton. apply fle_refl.
    - intros p v Hp. lia.
    - exists v. done. }
  subst distances.
  rewrite list_lookup_fmap in Hv.
  destruct (indices !! minCoeff _) as [c|] eqn:Hc; [|done].
  injection Hv as <-.
  exists (minCoeff ((λ i, squared_dist i q) <$> indices)), c.
  rewrite Hc. cbn [mbind option_bind].
  rewrite list_lookup_fmap, Hc.
  cbn [fmap option_fmap option_map mbind option_bind].
  split_and!; [done..| |].
  - intros c' Hc'. apply Hmin. apply list_elem_of_fmap. by exists c'.
  - intros p' c' Hp' Hc''. apply (Hfirst p'); [done|].
    by rewrite list_lookup_fmap, Hc''.
Qed.

End OneNeighbour.

(** ** The whole query *)

Section WholeQuery.
Context {F : Type} `{ScalarLaws F} `{!StdAlgo} `{!StdAlgoLaws} `{!Linalg F}.

(** X20.  [query] from end to end, for [k >= 1] and [votes_required >= 1]: it
    returns; [n_elected] is the number of data points with at least
    [votes_required] votes; the first [min(k, n_elected)] output slots
    hold distinct such points in order of non-decreasing distance, with
    the square roots of their squared distances beside them; no point
    with enough votes that is left out is closer than one returned; the
    other slots hold -1. *)
Theorem query_returns_the_nearest_elected
    (n_trees_ depth_ : nat) (density_ : F) (g : Draws F) :
  growable X_cols depth_ →
  ∃ f, grow Mrpt_new n_trees_ depth_ density_ g = Some f
    ∧ ∀ (q : query_vec) (k_ v : Z),
        (1 ≤ k_)%Z → (1 ≤ v)%Z →
        ∃ out dists n_elected found,
          query f q k_ v = Some (out, dists, n_elected)
          ∧ found_leaves_of f q = Some found
          ∧ length out = Z.to_nat k_ ∧ length dists = Z.to_nat k_
          ∧ n_elected = at_least X_cols (Z.to_nat v) (routed f found)
          ∧ (∀ i, i < Z.to_nat k_ `min` n_elected →
               ∃ c, out !! i = Some (Z.of_nat c) ∧ c < X_cols
                  ∧ (v ≤ Z.of_nat (occurrences c (routed f found)))%Z
                  ∧ dists !! i = Some (fsqrt (squared_dist c q)))
          ∧ (∀ i j c c', i < j → j < Z.to_nat k_ `min` n_elected →
               out !! i = Some (Z.of_nat c) → out !! j = Some (Z.of_nat c') →
               c ≠ c' ∧ fle (squared_dist c q) (squared_dist c' q) = true)
          ∧ (∀ i c c', i < Z.to_nat k_ `min` n_elected →
               out !! i = Some (Z.of_nat c) →
               (v ≤ Z.of_nat (occurrences c' (routed f found)))%Z →
               Z.of_nat c' ∉ out →
               fle (squared_dist c q) (squared_dist c' q) = true)
          ∧ (∀ i, Z.to_nat k_ `min` n_elected ≤ i → i < Z.to_nat k_ →
               out !! i = Some (-1)%Z ∧ dists !! i = Some fneg1).
Proof.
  intros Hgrow.
  destruct (grow_ok n_trees_ depth_ density_ g Hgrow)
    as (f & Hrun & Hwf & Hn & _).
  exists f. split; [done|]. intros q k_ v Hk Hv.
  destruct (found_leaves_ok f q Hwf) as (found & Hfound & Hlen & Hleaf).
  destruct (count_votes_ok f found v Hwf Hleaf Hlen)
    as (votes & elected & Hcount & (_ & _ & Hnd & Hel & _) & _).
  cbn [fst snd] in *.
  destruct (exact_knn_spec q k_ elected Hk) as (out & dists & idx & Hknn & Hres).
  destruct Hres as (Hout & Hdists & Hidx & Hfront & Hord & _ & Hpad).
  assert (NoDup idx) as Hndi by (rewrite Hidx; apply NoDup_seq).
  assert (∀ c, c ∈ elected → c < X_cols) as Hrange.
  { intros c Hc. rewrite <- Hn. apply (routed_in_range f found c Hwf Hleaf Hlen).
    apply occurrences_pos. apply Hel in Hc. lia. }
  exists out, dists, (length elected), found.
  unfold query. rewrite Hfound. cbn [mbind option_bind].
  rewrite Hcount. cbn [mbind option_bind fst snd]. rewrite Hknn.
  split_and!; [done..| | | | |done].
  - destruct (elected_count [] X_cols (Z.to_nat v) (routed f found) elected)
      as [<- _]; [lia|done| | |done].
    + intros c. rewrite Hel. lia.
    + intros c Hc. rewrite <- Hn. by apply (routed_in_range f found c Hwf Hleaf Hlen).
  - intros i Hi. destruct (Hfront i Hi) as (p & c & Hp & Hc & Ho & Hdi).
    exists c. apply list_elem_of_lookup_2 in Hc as Hcin.
    split_and!; [done|by apply Hrange| |done].
    apply Hel in Hcin. lia.
  - intros i j c c' Hij Hj Hoi Hoj.
    destruct (Hfront i ltac:(lia)) as (p & c1 & Hp & Hc1 & Ho1 & _).
    destruct (Hfront j Hj) as (p' & c2 & Hp' & Hc2 & Ho2 & _).
    rewrite Hoi in Ho1. rewrite Hoj in Ho2.
    injection Ho1 as Ho1%Nat2Z.inj. injection Ho2 as Ho2%Nat2Z.inj. subst c1 c2.
    split.
    + intros <-. pose proof (NoDup_lookup _ _ _ _ Hnd Hc1 Hc2) as <-.
      pose proof (NoDup_lookup _ _ _ _ Hndi Hp Hp'). lia.
    + apply (Hord i j p p' c c'); [lia|lia|done..].
  - intros i c c' Hi Hoi Hvotes Hnot.
    destruct (Hfront i Hi) as (p & c1 & Hp & Hc1 & Ho1 & _).
    rewrite Hoi in Ho1. injection Ho1 as Ho1%Nat2Z.inj. subst c1.
    assert (c' ∈ elected) as Hc' by (apply Hel; lia).
    apply list_elem_of_lookup in Hc' as (p' & Hp'e).
    assert (p' ∈ idx) as Hp'i.
    { rewrite Hidx. apply elem_of_seq. apply lookup_lt_Some in Hp'e. lia. }
    apply list_elem_of_lookup in Hp'i as (j & Hj).
    destruct (decide (j < Z.to_nat k_ `min` length elected)) as [Hjlt|Hjge].
    { destruct (Hfront j Hjlt) as (p2 & c2 & Hp2 & Hc2 & Ho2 & _).
      rewrite Hj in Hp2. injection Hp2 as <-.
      rewrite Hp'e in Hc2. injection Hc2 as <-.
      destruct Hnot. by eapply list_elem_of_lookup_2. }
    apply (Hord i j p p' c c'); [done|lia|done..].
Qed.

End WholeQuery.

(** ** Loading into an index that was grown before *)

Section LoadAgain.
Context {F : Type} `{ScalarLaws F} `{!StdAlgo} `{!StdAlgoLaws} `{!Linalg F}.

(** X21.  [load] on an index that was grown before appends its tables behind
    those of [grow]: the trees and the random vectors are those of the
    file, but the leaf table is that of the file's depth only when this
    depth does not exceed the depth grown before; then every query
    answers as on the saved forest.  For a greater depth the table is that
    of depth [d - d0 - 1], too short for the trees. *)
Theorem load_after_grow_takes_a_stale_table
    (t d : nat) (density_ : F) (g : Draws F)
    (t0 d0 : nat) (density0 : F) (g0 : Draws F) :
  growable X_cols d → growable X_cols d0 →
  ∃ f fd this f',
    grow Mrpt_new t d density_ g = Some f
    ∧ save f = Some fd
    ∧ grow Mrpt_new t0 d0 density0 g0 = Some this
    ∧ load this fd = Some f'
    ∧ n_trees f' = t ∧ depth f' = d ∧ density f' = density_
    ∧ tree_leaves f' = tree_leaves f ∧ split_points f' = split_points f
    ∧ length (leaf_first_indices_all f') = d0 + d + 2
    ∧ (d ≤ d0 →
         leaf_first_indices f' = leaf_first_indices f
         ∧ ∀ (q : query_vec) (k_ v : Z), query f' q k_ v = query f q k_ v)
    ∧ (d0 < d →
         leaf_first_indices f' = count_first_leaf_indices X_cols (d - d0 - 1)
         ∧ length (leaf_first_indices f') < 2 ^ d + 1).
Proof.
  intros Hg Hg0.
  destruct (grow_ok t d density_ g Hg)
    as (f & Hrun & Hwf & Hn & Hdim & Hnt & Hd & Hdens & _).
  destruct (grow_ok t0 d0 density0 g0 Hg0)
    as (this & Hrun0 & _ & Hn0 & Hdim0 & _ & _ & _ & _ & _ & Hall0 & _).
  assert (leaf_first_indices_all this
          = count_first_leaf_indices X_cols <$> seq 0 (S d0)) as Hall0' by done.
  destruct (load_save f this Hwf ltac:(by rewrite Hdim, Hdim0))
    as (fd & lfi & Hsave & Hlfi & Hload).
  eexists f, fd, this, _. split; [done|]. split; [done|]. split; [done|].
  split; [exact Hload|].
  cbn [n_trees depth density tree_leaves split_points leaf_first_indices_all
       leaf_first_indices].
  destruct (count_first_leaf_indices_all_spec (leaf_first_indices_all this)
              (n_samples this) (depth f)) as (Hlen & Hold & Hnew).
  cbv zeta in Hlen, Hold, Hnew.
  assert (length (leaf_first_indices_all this) = d0 + 1) as Hl0.
  { rewrite Hall0', length_fmap, length_seq. lia. }
  rewrite Hd, Hn0, Hl0 in *.
  split_and!; try done.
  - lia.
  - intros Hle.
    assert (lfi = leaf_first_indices f) as ->.
    { rewrite Hold in Hlfi by lia.
      rewrite Hall0', list_lookup_fmap, lookup_seq_lt in Hlfi by lia.
      injection Hlfi as <-. by rewrite (wf_lfi f Hwf), Hn, Hd. }
    split; [done|]. apply query_ext; cbn [n_samples n_trees depth density tree_leaves
      split_points leaf_first_indices dense_random_matrix sparse_random_matrix];
      try done; try congruence.
    + intros ->. done.
    + intros ->. done.
  - intros Hlt.
    destruct (Hnew (d - d0 - 1)) as (table & Hlk & -> & Hlent & _); [lia|].
    replace (d0 + 1 + (d - d0 - 1)) with d in Hlk by lia.
    rewrite Hlk in Hlfi. injection Hlfi as <-. split; [done|].
    rewrite Hlent.
    assert (2 ^ (d - d0 - 1) < 2 ^ d); [|lia].
    apply Nat.pow_lt_mono_r; lia.
Qed.

End LoadAgain.

(** ** Trimming twice *)


Section SparseAgain.
Context {F : Type} `{Scalar F}.




End SparseAgain.

Section TrimAgain.
Context {F : Type} `{ScalarLaws F} `{!StdAlgo} `{!StdAlgoLaws} `{!Linalg F}.




End TrimAgain.

(** ** The further properties on the grid *)

Module GridExtras.
Import Grid GridFacts GridRuns GridTrims.

Lemma grid_growable_2 : growable (@X_cols Z _) 2.
Proof. right. vm_compute. lia. Defined.

Lemma grid_growable_1 : growable (@X_cols Z _) 1.
Proof. right. vm_compute. lia. Defined.

Lemma grid_not_growable_5 : ¬ growable (n_samples (Mrpt_new : Mrpt Z)) 5.
Proof. intros [Hd|Hn]; [discriminate Hd|]. vm_compute in Hn. lia. Defined.




Lemma grow_not_growable_on_grid :
  1 ≤ 1 ∧ ¬ growable (n_samples (Mrpt_new : Mrpt Z)) 5
  ∧ grow Mrpt_new 1 5 1%Z draws = None.
Proof.
  split; [lia|]. split; [exact grid_not_growable_5|].
  apply (grow_not_growable Mrpt_new 1 5 1%Z draws); [lia|exact grid_not_growable_5].
Defined.

Lemma grow_again_on_grid :
  growable (@X_cols Z _) 1 ∧ growable (@X_cols Z _) 2
  ∧ ∃ f0 f1,
      grow Mrpt_new 1 1 1%Z draws = Some f0
      ∧ grow f0 2 2 1%Z draws = Some f1
      ∧ depth f1 = 2
      ∧ leaf_first_indices f1 = count_first_leaf_indices 8 0.
Proof.
  split; [exact grid_growable_1|]. split; [exact grid_growable_2|].
  destruct (grow_again_takes_a_stale_table 1 1 1%Z draws 2 2 1%Z draws
              grid_growable_1 grid_growable_2)
    as (f0 & f1 & H0 & H1 & _ & Hd & _ & _ & Hstale).
  destruct (Hstale ltac:(lia)) as [Hs _].
  exists f0, f1. split_and!; [exact H0|exact H1|exact Hd|exact Hs].
Defined.

Lemma query_candidates_on_grid :
  growable (@X_cols Z _) 2
  ∧ ∃ f found votes elected elected',
      grow Mrpt_new 2 2 1%Z draws = Some f
      ∧ found_leaves_of f (point 0 0) = Some found
      ∧ count_votes f found 1 = Some (votes, elected)
      ∧ count_votes f found 2 = Some (votes, elected')
      ∧ elected' ⊆ elected.
Proof.
  split; [exact grid_growable_2|].
  destruct (query_candidates_shrink_with_votes 2 2 1%Z draws grid_growable_2)
    as (f & Hrun & Hq).
  destruct (Hq (point 0 0) 3%Z 1%Z 2%Z ltac:(lia) ltac:(lia) ltac:(lia))
    as (found & votes & elected & elected' & r & r' & H1 & H2 & H3 & H4 & _).
  exists f, found, votes, elected, elected'.
  split_and!; [exact Hrun|exact H1|exact H2|exact H3|exact H4].
Defined.

Lemma query_one_vote_on_grid :
  2 ^ 2 ≤ @X_cols Z _ ∧ 1 ≤ 2
  ∧ ∃ f out dists n_elected c,
      grow Mrpt_new 2 2 1%Z draws = Some f
      ∧ query f (point 3 1) 1 1 = Some (out, dists, n_elected)
      ∧ 1 ≤ n_elected
      ∧ out !! 0 = Some (Z.of_nat c) ∧ c < 8.
Proof.
  assert (2 ^ 2 ≤ @X_cols Z _) as Hpow by (vm_compute; lia).
  split; [exact Hpow|]. split; [lia|].
  destruct (query_one_vote_finds_a_neighbour 2 2 1%Z draws Hpow ltac:(lia))
    as (f & Hrun & Hq).
  destruct (Hq (point 3 1) 1%Z ltac:(lia)) as (out & dists & n_el & c & H1 & H2 & _ & H3 & H4).
  exists f, out, dists, n_el, c.
  split_and!; [exact Hrun|exact H1|exact H2|exact H3|exact H4].
Defined.


Lemma get_leaf_size_on_grid :
  growable (@X_cols Z _) 2
  ∧ ∃ f s,
      grow Mrpt_new 2 2 1%Z draws = Some f
      ∧ get_leaf_size f 0 3 = Some (Z.of_nat s)
      ∧ 8 / 2 ^ 2 ≤ s ∧ s ≤ 8 / 2 ^ 2 + 1
      ∧ get_leaf_size f 0 4 = None.
Proof.
  split; [exact grid_growable_2|].
  destruct (get_leaf_size_balanced 2 2 1%Z draws grid_growable_2)
    as (f & sizes & Hrun & _ & _ & Hin & Hout).
  destruct (Hin 0 3) as (s & _ & H1 & H2 & H3); [vm_compute; lia|].
  exists f, s.
  split_and!; [exact Hrun|exact H1|exact H2|exact H3|].
  apply (Hout 0 4). vm_compute. lia.
Defined.

Lemma get_leaf_point_on_grid :
  growable (@X_cols Z _) 2
  ∧ ∃ f leaf index s,
      grow Mrpt_new 2 2 1%Z draws = Some f
      ∧ leaf < 2 ^ 2
      ∧ get_leaf_size f 1 leaf = Some s ∧ (Z.of_nat index < s)%Z
      ∧ get_leaf_point f 1 leaf index = Some 5.
Proof.
  split; [exact grid_growable_2|].
  destruct (get_leaf_point_partitions 2 2 1%Z draws grid_growable_2) as (f & Hrun & Hp).
  destruct (Hp 1 ltac:(lia)) as (_ & Hcover & _).
  destruct (Hcover 5) as (leaf & index & s & H1 & H2 & H3 & H4); [vm_compute; lia|].
  exists f, leaf, index, s.
  split_and!; [exact Hrun|exact H1|exact H2|exact H3|exact H4].
Defined.

Lemma get_split_point_on_grid :
  growable (@X_cols Z _) 2
  ∧ ∃ f,
      grow Mrpt_new 2 2 1%Z draws = Some f
      ∧ get_split_point f 1 3 = Some (uninit draws 3 1)
      ∧ get_split_point f 1 8 = None.
Proof.
  split; [exact grid_growable_2|].
  destruct (grow_leaves_half_of_split_points_unwritten 2 2 1%Z draws grid_growable_2)
    as (f & Hrun & Hs).
  destruct (Hs 1 ltac:(lia)) as (_ & Hout & Hleaf).
  exists f. split_and!; [exact Hrun| |].
  - apply (Hleaf 3); vm_compute; lia.
  - apply (Hout 8). vm_compute. lia.
Defined.

Lemma compute_exact_on_grid :
  (1 ≤ 3)%Z
  ∧ ∃ exact column,
      compute_exact forest [point 0 0] 3 = Some exact
      ∧ exact !! 0 = Some column
      ∧ length column = 3
      ∧ StronglySorted Z.le column.
Proof.
  split; [lia|].
  destruct (compute_exact_sorted_nearest forest [point 0 0] 3%Z ltac:(lia))
    as (exact & Hrun & Hlen & Hcols).
  destruct exact as [|column rest]; [discriminate Hlen|].
  destruct (Hcols 0 (point 0 0) column eq_refl eq_refl) as (H1 & H2 & _).
  exists (column :: rest), column.
  split_and!; [exact Hrun|reflexivity|exact H1|exact H2].
Defined.





Lemma vote_on_grid :
  growable (@X_cols Z _) 2
  ∧ ∃ f elected,
      grow Mrpt_new 2 2 1%Z draws = Some f
      ∧ vote f (project_query f (point 0 0)) 1 0 1 1 = Some (elected, length elected)
      ∧ NoDup elected
      ∧ length elected ≤ 1 * (8 / 2 ^ 1 + 1)
      ∧ vote f (project_query f (point 0 0)) 1 0 3 1 = None.
Proof.
  split; [exact grid_growable_2|].
  destruct (vote_elects_at_any_depth 2 2 1%Z draws grid_growable_2)
    as (f & Hrun & Hin & Hout).
  destruct (Hin (project_query f (point 0 0)) 1%Z 1 1 ltac:(lia) ltac:(lia))
    as (elected & H1 & H2 & _ & _ & H3 & _).
  exists f, elected. split_and!; [exact Hrun|exact H1|exact H2|exact H3|].
  apply Hout. left. lia.
Defined.

Lemma vote_full_depth_on_grid :
  growable (@X_cols Z _) 2
  ∧ ∃ f found votes elected,
      grow Mrpt_new 2 2 1%Z draws = Some f
      ∧ found_leaves_of f (point 3 1) = Some found
      ∧ count_votes f found 2 = Some (votes, elected)
      ∧ vote f (project_query f (point 3 1)) 2 0 2 2 = Some (elected, length elected).
Proof.
  split; [exact grid_growable_2|].
  destruct (vote_at_full_depth_is_the_vote_of_query 2 2 1%Z draws grid_growable_2)
    as (f & Hrun & Hq).
  destruct (Hq (point 3 1) 2%Z) as (found & votes & elected & H1 & H2 & H3).
  exists f, found, votes, elected. split_and!; [exact Hrun|exact H1|exact H2|exact H3].
Defined.

Lemma count_elected_on_grid :
  growable (@X_cols Z _) 2 ∧ 1 ≤ 2
  ∧ ∃ f recalls cs_sizes,
      grow Mrpt_new 2 2 1%Z draws = Some f
      ∧ count_elected f (point 0 0) [0; 1]%Z 2 2 = Some (recalls, cs_sizes)
      ∧ length recalls = 2 ∧ length cs_sizes = 2
      ∧ count_elected f (point 0 0) [0; 1]%Z 2 4 = None.
Proof.
  split; [exact grid_growable_2|]. split; [lia|].
  destruct (count_elected_counts_what_vote_elects 2 2 1%Z draws grid_growable_2
              ltac:(lia)) as (f & Hrun & Hin & Hout).
  destruct (Hin (point 0 0) [0; 1]%Z 2 2 ltac:(lia))
    as (recalls & cs_sizes & H1 & H2 & H3 & _).
  exists f, recalls, cs_sizes. split_and!; [exact Hrun|exact H1|exact H2|exact H3|].
  apply Hout. lia.
Defined.

Lemma query_nearest_on_grid :
  growable (@X_cols Z _) 2
  ∧ ∃ f out dists n_elected found,
      grow Mrpt_new 2 2 1%Z draws = Some f
      ∧ query f (point 0 0) 3 1 = Some (out, dists, n_elected)
      ∧ found_leaves_of f (point 0 0) = Some found
      ∧ length out = 3
      ∧ n_elected = at_least 8 1 (routed f found).
Proof.
  split; [exact grid_growable_2|].
  destruct (query_returns_the_nearest_elected 2 2 1%Z draws grid_growable_2)
    as (f & Hrun & Hq).
  destruct (Hq (point 0 0) 3%Z 1%Z ltac:(lia) ltac:(lia))
    as (out & dists & n_el & found & H1 & H2 & H3 & _ & H4 & _).
  exists f, out, dists, n_el, found.
  split_and!; [exact Hrun|exact H1|exact H2|exact H3|exact H4].
Defined.

Lemma load_after_grow_on_grid :
  growable (@X_cols Z _) 2 ∧ growable (@X_cols Z _) 1
  ∧ ∃ f fd this f',
      grow Mrpt_new 2 2 0%Z draws = Some f
      ∧ save f = Some fd
      ∧ grow Mrpt_new 1 1 0%Z draws = Some this
      ∧ load this fd = Some f'
      ∧ depth f' = 2
      ∧ leaf_first_indices f' = count_first_leaf_indices 8 0.
Proof.
  split; [exact grid_growable_2|]. split; [exact grid_growable_1|].
  destruct (load_after_grow_takes_a_stale_table 2 2 0%Z draws 1 1 0%Z draws
              grid_growable_2 grid_growable_1)
    as (f & fd & this & f' & H1 & H2 & H3 & H4 & _ & H5 & _ & _ & _ & _ & _ & Hstale).
  destruct (Hstale ltac:(lia)) as [H6 _].
  exists f, fd, this, f'.
  split_and!; [exact H1|exact H2|exact H3|exact H4|exact H5|exact H6].
Defined.

Lemma exact_knn_one_on_grid :
  ∃ p c,
    [5; 0; 3] !! p = Some c
    ∧ exact_knn (point 0 0) 1 [5; 0; 3]
      = Some ([Z.of_nat c], [fsqrt (squared_dist c (point 0 0))])
    ∧ ∀ c', c' ∈ [5; 0; 3] →
        fle (squared_dist c (point 0 0)) (squared_dist c' (point 0 0)) = true.
Proof.
  destruct (exact_knn_one_takes_the_first_nearest (point 0 0) [5; 0; 3]) as [_ Hone].
  destruct (Hone ltac:(discriminate)) as (p & c & H1 & H2 & H3 & _).
  exists p, c. split_and!; [exact H1|exact H2|exact H3].
Defined.

End GridExtras.
